(** * corx receiver: a shallow embedding of [receiver.cpp]

    The receiver reads overlapping IQ blocks, tracks a carrier, looks for
    beacon pulses and writes phase-corrected correlation blocks to a
    [.corx] trace.  This file embeds the control code of [receiver.cpp]
    (the [CorxFileWriter] and the [ArrayDetector] state machine) and proves
    properties of it.

    Numbers.  [float] and [double] values are embedded as rationals ([Q]):
    every finite float is a rational.  The arithmetic on them is exact,
    except where the code stores a value in a [float] right before it
    compares it or rounds it to an integer: the time step of
    [find_beacon], the acquired [carrier_pos_] of [recover_carrier] and
    the padding product of [extract_corr_blocks] are rounded to single
    precision by [to_float], as the code rounds them.  The integer types of
    [receiver.cpp] keep their width: the wrap-around of [unsigned],
    [size_t], [uint16_t] and [int8_t] is written out with [mod].
    Conversions from floating point to an integer type truncate toward
    zero; outside the range of the target type C++ leaves them undefined,
    and the embedding follows what the x86-64 conversion instructions do
    (see [cvtt]).

    Collaborators.  The FFT, the sine-table oscillator, the fastcard block
    reader and carrier detector and the fastdet correlator are not part of
    [receiver.cpp].  What they compute from the samples reaches the control
    code as the fields of a [Block] and of a [Signal]. *)

From Stdlib Require Import ZArith QArith Qround Qabs Qpower Lia Lqa.
From Stdlib Require Import List Bool Ascii String.
Import ListNotations.

Local Open Scope Z_scope.

(** * Part I: the program *)

(** ** Numeric primitives *)

Module Num.

Definition Qlt_bool (a b : Q) : bool := negb (Qle_bool b a).

(** [round()] of <cmath>: nearest integer, halfway cases away from zero. *)
Definition c_round (x : Q) : Z :=
  if Qle_bool 0 x then Qfloor (x + (1#2)) else Qceiling (x - (1#2)).

(** Truncation toward zero, the rounding of every float-to-integer
    conversion. *)
Definition c_trunc (x : Q) : Z :=
  if Qle_bool 0 x then Qfloor x else Qceiling x.

(** [cvttss2si]/[cvttsd2si] with a [bits]-wide signed destination: the
    truncated value when it fits, the "integer indefinite" value
    [-2^(bits-1)] when it does not. *)
Definition cvtt (bits : Z) (x : Q) : Z :=
  let t := c_trunc x in
  if (- 2 ^ (bits - 1) <=? t) && (t <? 2 ^ (bits - 1)) then t
  else - 2 ^ (bits - 1).

Definition u16 (z : Z) : Z := z mod 2 ^ 16.
Definition u32 (z : Z) : Z := z mod 2 ^ 32.
Definition u64 (z : Z) : Z := z mod 2 ^ 64.

(** [int(x)] *)
Definition to_int (x : Q) : Z := cvtt 32 x.

(** [(unsigned)x] and [(uint32_t)x]: a 64-bit conversion of which the low
    32 bits are kept. *)
Definition to_unsigned (x : Q) : Z := u32 (cvtt 64 x).

(** [(size_t)x] for [x] below [2^63]: the 64-bit signed conversion,
    reinterpreted as unsigned. *)
Definition to_size_t (x : Q) : Z := u64 (cvtt 64 x).

(** Reinterpretation of the low 8 bits as [int8_t]. *)
Definition wrap_int8 (z : Z) : Z := (z + 128) mod 256 - 128.

(** [(int8_t)x]: a 32-bit conversion of which the low byte is kept. *)
Definition to_int8 (x : Q) : Z := wrap_int8 (cvtt 32 x).

(** [(uint32_t)sqrt(x)]: the integer part of a square root is the integer
    square root of the integer part. *)
Definition sqrt_to_unsigned (x : Q) : Z := u32 (Z.sqrt (Qfloor x)).

(** Reinterpretation of the low 32 bits as [int]: the conversion of a
    [size_t] to [int]. *)
Definition wrap_int32 (z : Z) : Z := (z + 2 ^ 31) mod 2 ^ 32 - 2 ^ 31.

(** *** Single precision *)

Definition pow2 (e : Z) : Q := Qpower 2 e.

(** The binary exponent of [x]: [2^(ilog2 x) <= |x| < 2^(ilog2 x + 1)]
    for [x] other than zero. *)
Definition ilog2 (x : Q) : Z :=
  let a := Qabs x in
  if Qle_bool 1 a then Z.log2 (Qfloor a)
  else - Z.log2_up (Qceiling (/ a)).

(** Nearest integer, halfway cases to the even one. *)
Definition round_half_even (x : Q) : Z :=
  let f := Qfloor x in
  let r := (x - inject_Z f)%Q in
  if Qle_bool r (1#2)
  then if Qle_bool (1#2) r then (if Z.even f then f else f + 1) else f
  else f + 1.

(** The exponent of the unit in the last place of the [float] nearest to
    [x]: 24 bits of significand, exponents from -126 on, below which the
    spacing stays that of the subnormal numbers. *)
Definition float_ulp_exp (x : Q) : Z := Z.max (ilog2 x) (-126) - 23.

(** The value of [x] as a [float] (IEEE-754 binary32, rounding to
    nearest, ties to even).  Magnitudes beyond the largest [float], which
    the hardware turns into an infinity, are rounded like any other. *)
Definition to_float (x : Q) : Q :=
  Qred (inject_Z (round_half_even (x / pow2 (float_ulp_exp x)))
        * pow2 (float_ulp_exp x)).

Definition INT_MIN : Z := - 2 ^ 31.
Definition INT_MAX : Z := 2 ^ 31 - 1.

End Num.
Import Num.

Arguments pow2 e : simpl never.
Arguments ilog2 x : simpl never.
Arguments round_half_even x : simpl never.
Arguments to_float x : simpl never.

(** ** Constants of [receiver.cpp] *)

Definition MAX_TRACKING_ANGLE_DIFF : Q := 50.
Definition TRACKING_ANGLE_DIFF_FACTOR : Q := 1 # 5.
Definition AVG_ANGLE_WEIGHT : Q := 1 # 10.
Definition BEACON_INTERVAL_SEC : Q := 1.
Definition MAX_CAPTURE_TIME : Q := 101 # 10.
Definition PREAMP_OFF_TIME : Q := 2.
Definition PREAMP_OFF_SKIP : Q := 1 # 5.
Definition OUTPUT_WINDOW_START : Z := 0.
Definition OUTPUT_WINDOW_LEN : Z := -1.
Definition BEACON_CARRIER_TRIGGER_FACTOR : Q := 4 # 5.
Definition AVG_DCAMPL_WEIGHT : Q := 1 # 10.

(** ** Angles *)

(** [DeciAngle normalize_deciangle(DeciAngle angle)] *)
Definition normalize_deciangle (angle : Q) : Q :=
  (angle - inject_Z (to_int (inject_Z (c_round angle))))%Q.

(** ** [fft_shift]

    The two [expj_multiply] calls of [fft_shift] run over [pos_len] and
    [len - pos_len] elements of [dest] and [src], all of type [size_t].
    The values they store come from the oscillator and are part of
    [corr_block] below; what is embedded here is the split. *)

(** [size_t pos_len = (len+1)/2 + carrier_offset] *)
Definition fft_shift_pos_len (len carrier_offset : Z) : Z :=
  u64 ((len + 1) / 2 + carrier_offset).

(** Element count of the second multiply, [len - pos_len]. *)
Definition fft_shift_neg_len (len carrier_offset : Z) : Z :=
  u64 (len - fft_shift_pos_len len carrier_offset).

(** Both multiplies stay inside buffers of [len] elements. *)
Definition fft_shift_in_bounds (len carrier_offset : Z) : bool :=
  (fft_shift_pos_len len carrier_offset <=? len) &&
  (fft_shift_pos_len len carrier_offset
   + fft_shift_neg_len len carrier_offset <=? len).

(** ** Faults *)

(** What ends a run other than [next] returning [false]. *)
Inductive Fault : Type :=
| assertion_failed      (* an [assert] of the writer *)
| buffer_overrun.       (* [fft_shift] outside its buffers *)

Inductive Result (A : Type) : Type :=
| Ok (a : A)
| Stop (f : Fault).
Arguments Ok {A} a.
Arguments Stop {A} f.

(** ** The trace file and its writer *)

(** What the C stream holds.  Integers are bytes; a [float] or a [double]
    occupies four or eight bytes (IEEE-754, little-endian) and is kept as
    the value it encodes. *)
Inductive Cell : Type :=
| CByte (b : Z)
| CFloat (x : Q)
| CDouble (x : Q).

(** The [n] bytes of an unsigned integer, least significant first. *)
Fixpoint le_bytes (n : nat) (z : Z) : list Cell :=
  match n with
  | O => []
  | S n' => CByte (z mod 256) :: le_bytes n' (z / 256)
  end.

(** [struct CorxFileHeader], packed: two [uint16_t]. *)
Record CorxFileHeader : Type := {
  slice_start_idx : Z;
  slice_size : Z
}.

(** [struct CorxBeaconHeader], packed. *)
Record CorxBeaconHeader : Type := {
  soa : Q;                  (* double *)
  timestamp_sec : Z;        (* uint64_t *)
  timestamp_msec : Z;       (* uint16_t *)
  beacon_amplitude : Z;     (* uint32_t *)
  beacon_noise : Z;         (* uint32_t *)
  clock_error : Q;          (* float *)
  carrier_pos : Q;          (* float *)
  carrier_amplitude : Z;    (* uint32_t *)
  preamp_on : bool
}.

(** The object representation that [fwrite] copies out. *)
Definition CorxFileHeader_bytes (h : CorxFileHeader) : list Cell :=
  le_bytes 2 (slice_start_idx h) ++ le_bytes 2 (slice_size h).

Definition CorxBeaconHeader_bytes (h : CorxBeaconHeader) : list Cell :=
  [CDouble (soa h)] ++
  le_bytes 8 (timestamp_sec h) ++
  le_bytes 2 (timestamp_msec h) ++
  le_bytes 4 (beacon_amplitude h) ++
  le_bytes 4 (beacon_noise h) ++
  [CFloat (clock_error h); CFloat (carrier_pos h)] ++
  le_bytes 4 (carrier_amplitude h) ++
  [CByte (if preamp_on h then 1 else 0)].

(** [len] elements of [complex<float>], real part first. *)
Definition complex_bytes (data : list (Q * Q)) (len : Z) : list Cell :=
  flat_map (fun c => [CFloat (fst c); CFloat (snd c)])
           (firstn (Z.to_nat len) data).

(** A call of a public writer method.  The writer keeps the calls made on
    it in [calls_], a ghost field: it has no counterpart in the C++ object
    and no method reads it. *)
Inductive WriterCall : Type :=
| call_file_header
| call_cycle_start
| call_cycle_block (phase_error : Z)
| call_cycle_stop.

(** [class CorxFileWriter].  [out_] is the [CFile]: [None] when its
    [FILE*] is null, the bytes written so far otherwise. *)
Record CorxFileWriter : Type := {
  out_ : option (list Cell);
  slice_size_ : Z;
  calls_ : list WriterCall
}.

Module Writer.

Definition version : Z := 1.

(** [CorxFileWriter(CFile&& out)] *)
Definition new (out : option (list Cell)) : CorxFileWriter :=
  {| out_ := out; slice_size_ := 0; calls_ := [] |}.

Definition is_void (w : CorxFileWriter) : bool :=
  match out_ w with None => true | Some _ => false end.

(** [fprintf], [fputc] and [fwrite] on [out_.file()]: append. *)
Definition put (cs : list Cell) (w : CorxFileWriter) : CorxFileWriter :=
  {| out_ := option_map (fun f => f ++ cs) (out_ w);
     slice_size_ := slice_size_ w;
     calls_ := calls_ w |}.

Definition called (c : WriterCall) (w : CorxFileWriter) : CorxFileWriter :=
  {| out_ := out_ w; slice_size_ := slice_size_ w;
     calls_ := calls_ w ++ [c] |}.

Definition write_file_header (header : CorxFileHeader)
           (w : CorxFileWriter) : CorxFileWriter :=
  let w := called call_file_header w in
  if is_void w then w
  else
    (* "CORX" *)
    let w := put [CByte 67; CByte 79; CByte 82; CByte 88] w in
    let w := put [CByte version] w in
    let w := put (CorxFileHeader_bytes header) w in
    {| out_ := out_ w; slice_size_ := slice_size header;
       calls_ := calls_ w |}.

Definition write_cycle_start (header : CorxBeaconHeader)
           (w : CorxFileWriter) : CorxFileWriter :=
  let w := called call_cycle_start w in
  if is_void w then w
  else put (CorxBeaconHeader_bytes header) w.

(** [fputc] writes its argument converted to [unsigned char]. *)
Definition write_cycle_block_internal (phase_error : Z)
           (data : list (Q * Q)) (len : Z)
           (w : CorxFileWriter) : CorxFileWriter :=
  let w := put [CByte (phase_error mod 256)] w in
  put (complex_bytes data len) w.

(** [None] when one of the two [assert]s fails. *)
Definition write_cycle_block (phase_error : Z)
           (data : list (Q * Q)) (len : Z)
           (w : CorxFileWriter) : option CorxFileWriter :=
  let w := called (call_cycle_block phase_error) w in
  if is_void w then Some w
  else if negb (len =? slice_size_ w) then None
  else if phase_error =? -128 then None
  else Some (write_cycle_block_internal phase_error data len w).

Definition write_cycle_stop (w : CorxFileWriter) : CorxFileWriter :=
  let w := called call_cycle_stop w in
  if is_void w then w
  else write_cycle_block_internal (-128) [] 0 w.

End Writer.

(** ** Collaborators *)

(** [fargs_t] of fastcard, as far as [receiver.cpp] reads it.  The struct
    is declared outside [receiver.cpp]; its integer members are taken as
    non-negative integers and expressions over them are not wrapped, but
    for the difference in the constructor, where the sample rate is taken
    as a [uint32_t]. *)
Record fargs_t : Type := {
  input_file : string;
  block_len : Z;
  history_len : Z;
  skip : Z;
  sdr_sample_rate : Z;
  sdr_freq : Z
}.

(** [CorrDetection] of fastdet. *)
Record CorrDetection : Type := {
  detected : bool;
  peak_idx : Z;
  peak_offset : Q;
  peak_power : Q;
  noise_power : Q
}.

(** [fastcard_data_t], the result of [carrier_det_->process()];
    [fft_power] is read through a pointer, so it is indexed by any
    integer. *)
Record fastcard_data_t : Type := {
  carrier_detected : bool;
  argmax : Z;
  fft_power : Z -> Q
}.

(** One corrected correlation block: what [fft_shift] leaves in
    [corrected_corr_fft_]. *)
Record CorrBlock : Type := {
  (** [arg(corrected_corr_fft_.data()[0]) / 2 / PI] *)
  corr_error : Q;
  corrected_corr_fft : list (Q * Q)
}.

(** The contents of [synced_signal_], seen through what the detector
    computes from them. *)
Record Signal : Type := {
  (** [abs(calculate_dc(synced_signal_, block_len))] *)
  dc_abs : Q;
  (** [arg(calculate_dc(synced_signal_, block_len)) / (float)PI / 2] *)
  dc_arg : Q;
  (** [synced_fft_calc_.execute()], then [corr_det_->detect] *)
  correlate : CorrDetection;
  (** [memcpy] from [start_idx], [corr_fft_calc_.execute()], then
      [fft_shift] with the given [shift_freq] and [shift_phase] and with
      the split at [pos_len] *)
  corr_block : Z -> Q -> Q -> Z -> CorrBlock
}.

(** One block of the reader. *)
Record Block : Type := {
  tv_sec : Z;
  tv_usec : Z;
  carrier : fastcard_data_t;
  (** [freq_shift] of the samples by [shift_freq] and [shift_phase] *)
  freq_shift : Q -> Q -> Signal
}.

(** Modelled from the spec: the block source behind [CarrierDetector],
    which is part of fastcard and fastdet.  [cancel] sets a flag, and a
    read after that reports no more data.  [bias_tee] is the state of the
    tuner's bias tee. *)
Record CarrierDetector : Type := {
  cancelled : bool;
  bias_tee : bool
}.

Module Source.

Definition new : CarrierDetector :=
  {| cancelled := false; bias_tee := false |}.

Definition cancel (c : CarrierDetector) : CarrierDetector :=
  {| cancelled := true; bias_tee := bias_tee c |}.

(** [rtlsdr_reader_set_bias_tee(reader, on)] *)
Definition set_bias_tee (on : bool) (c : CarrierDetector) : CarrierDetector :=
  {| cancelled := cancelled c; bias_tee := on |}.

(** [carrier_det_->next()]: the block read, if any. *)
Definition next (incoming : option Block) (c : CarrierDetector)
  : option Block :=
  if cancelled c then None else incoming.

End Source.

(** Modelled from the spec: [CorrDetector::interpolate_parabolic] of
    fastdet, called on a pointer [p] into a power spectrum.  The offset is
    [0.5 (p[-1] - p[+1]) / (p[-1] - 2 p[0] + p[+1])], and [0] when the
    denominator is zero. *)
Definition interpolate_parabolic (power : Z -> Q) (p : Z) : Q :=
  let a := power (p - 1) in
  let b := power p in
  let c := power (p + 1) in
  let den := (a - 2 * b + c)%Q in
  if Qeq_bool den 0 then 0%Q
  else ((1#2) * (a - c) / den)%Q.

(** Members that the constructor leaves without a value. *)
Record Indeterminate : Type := {
  any_prev_dc_angle : Q;
  any_dc_ampl : Q;
  any_clock_error : Q;
  any_num_phase_errors : Z;
  any_synced_signal : Signal
}.

(** [class ArrayDetector].  The FFT plans and the correlation buffers are
    scratch space between two statements and have no field here;
    [synced_signal_] is the buffer that [freq_shift] fills. *)
Record ArrayDetector : Type := {
  args_ : fargs_t;  (* fargs_t* args_ *)
  carrier_det_ : CarrierDetector;
  block_idx_ : Z;  (* unsigned *)
  blocks_skip_ : Z;  (* unsigned *)
  last_block_ : Z;  (* unsigned *)
  preamp_off_block_ : Z;  (* unsigned *)
  sample_phase_ : Q;  (* DeciAngle *)
  carrier_pos_ : Q;  (* float *)
  detected_carrier_ : bool;
  dc_angle_ : Q;  (* DeciAngle *)
  prev_dc_angle_ : Q;  (* DeciAngle *)
  dc_ampl_ : Q;  (* float *)
  carrier_ref_ : Q;  (* float *)
  clock_error_ : Q;  (* float *)
  avg_dc_angle_ : Q;  (* float *)
  avg_dc_ampl_ : Q;  (* float *)
  beacon_ : Z;  (* int32_t *)
  soa_ : Q;  (* double *)
  prev_soa_ : Q;  (* double *)
  cycle_ : Z;  (* int32_t *)
  skip_beacon_padding_ : Z;  (* int *)
  synced_signal_ : Signal;  (* complex<float>* *)
  corr_size_ : Z;  (* size_t *)
  num_cycles_ : Z;  (* int *)
  num_phase_errors_ : Z;  (* int *)
  slice_start_ : Z;  (* int *)
  slice_len_ : Z;  (* int *)
  writer_ : CorxFileWriter
}.

(** Assignment to one member; the other members are copied. *)
Definition set_carrier_det_ (v : CarrierDetector) (d : ArrayDetector) : ArrayDetector :=
  Build_ArrayDetector
    (args_ d) v (block_idx_ d) (blocks_skip_ d) (last_block_ d)
    (preamp_off_block_ d) (sample_phase_ d) (carrier_pos_ d)
    (detected_carrier_ d) (dc_angle_ d) (prev_dc_angle_ d) (dc_ampl_ d)
    (carrier_ref_ d) (clock_error_ d) (avg_dc_angle_ d) (avg_dc_ampl_ d)
    (beacon_ d) (soa_ d) (prev_soa_ d) (cycle_ d) (skip_beacon_padding_ d)
    (synced_signal_ d) (corr_size_ d) (num_cycles_ d) (num_phase_errors_ d)
    (slice_start_ d) (slice_len_ d) (writer_ d).
Definition set_block_idx_ (v : Z) (d : ArrayDetector) : ArrayDetector :=
  Build_ArrayDetector
    (args_ d) (carrier_det_ d) v (blocks_skip_ d) (last_block_ d)
    (preamp_off_block_ d) (sample_phase_ d) (carrier_pos_ d)
    (detected_carrier_ d) (dc_angle_ d) (prev_dc_angle_ d) (dc_ampl_ d)
    (carrier_ref_ d) (clock_error_ d) (avg_dc_angle_ d) (avg_dc_ampl_ d)
    (beacon_ d) (soa_ d) (prev_soa_ d) (cycle_ d) (skip_beacon_padding_ d)
    (synced_signal_ d) (corr_size_ d) (num_cycles_ d) (num_phase_errors_ d)
    (slice_start_ d) (slice_len_ d) (writer_ d).
Definition set_blocks_skip_ (v : Z) (d : ArrayDetector) : ArrayDetector :=
  Build_ArrayDetector
    (args_ d) (carrier_det_ d) (block_idx_ d) v (last_block_ d)
    (preamp_off_block_ d) (sample_phase_ d) (carrier_pos_ d)
    (detected_carrier_ d) (dc_angle_ d) (prev_dc_angle_ d) (dc_ampl_ d)
    (carrier_ref_ d) (clock_error_ d) (avg_dc_angle_ d) (avg_dc_ampl_ d)
    (beacon_ d) (soa_ d) (prev_soa_ d) (cycle_ d) (skip_beacon_padding_ d)
    (synced_signal_ d) (corr_size_ d) (num_cycles_ d) (num_phase_errors_ d)
    (slice_start_ d) (slice_len_ d) (writer_ d).
Definition set_last_block_ (v : Z) (d : ArrayDetector) : ArrayDetector :=
  Build_ArrayDetector
    (args_ d) (carrier_det_ d) (block_idx_ d) (blocks_skip_ d) v
    (preamp_off_block_ d) (sample_phase_ d) (carrier_pos_ d)
    (detected_carrier_ d) (dc_angle_ d) (prev_dc_angle_ d) (dc_ampl_ d)
    (carrier_ref_ d) (clock_error_ d) (avg_dc_angle_ d) (avg_dc_ampl_ d)
    (beacon_ d) (soa_ d) (prev_soa_ d) (cycle_ d) (skip_beacon_padding_ d)
    (synced_signal_ d) (corr_size_ d) (num_cycles_ d) (num_phase_errors_ d)
    (slice_start_ d) (slice_len_ d) (writer_ d).
Definition set_preamp_off_block_ (v : Z) (d : ArrayDetector) : ArrayDetector :=
  Build_ArrayDetector
    (args_ d) (carrier_det_ d) (block_idx_ d) (blocks_skip_ d)
    (last_block_ d) v (sample_phase_ d) (carrier_pos_ d)
    (detected_carrier_ d) (dc_angle_ d) (prev_dc_angle_ d) (dc_ampl_ d)
    (carrier_ref_ d) (clock_error_ d) (avg_dc_angle_ d) (avg_dc_ampl_ d)
    (beacon_ d) (soa_ d) (prev_soa_ d) (cycle_ d) (skip_beacon_padding_ d)
    (synced_signal_ d) (corr_size_ d) (num_cycles_ d) (num_phase_errors_ d)
    (slice_start_ d) (slice_len_ d) (writer_ d).
Definition set_sample_phase_ (v : Q) (d : ArrayDetector) : ArrayDetector :=
  Build_ArrayDetector
    (args_ d) (carrier_det_ d) (block_idx_ d) (blocks_skip_ d)
    (last_block_ d) (preamp_off_block_ d) v (carrier_pos_ d)
    (detected_carrier_ d) (dc_angle_ d) (prev_dc_angle_ d) (dc_ampl_ d)
    (carrier_ref_ d) (clock_error_ d) (avg_dc_angle_ d) (avg_dc_ampl_ d)
    (beacon_ d) (soa_ d) (prev_soa_ d) (cycle_ d) (skip_beacon_padding_ d)
    (synced_signal_ d) (corr_size_ d) (num_cycles_ d) (num_phase_errors_ d)
    (slice_start_ d) (slice_len_ d) (writer_ d).
Definition set_carrier_pos_ (v : Q) (d : ArrayDetector) : ArrayDetector :=
  Build_ArrayDetector
    (args_ d) (carrier_det_ d) (block_idx_ d) (blocks_skip_ d)
    (last_block_ d) (preamp_off_block_ d) (sample_phase_ d) v
    (detected_carrier_ d) (dc_angle_ d) (prev_dc_angle_ d) (dc_ampl_ d)
    (carrier_ref_ d) (clock_error_ d) (avg_dc_angle_ d) (avg_dc_ampl_ d)
    (beacon_ d) (soa_ d) (prev_soa_ d) (cycle_ d) (skip_beacon_padding_ d)
    (synced_signal_ d) (corr_size_ d) (num_cycles_ d) (num_phase_errors_ d)
    (slice_start_ d) (slice_len_ d) (writer_ d).
Definition set_detected_carrier_ (v : bool) (d : ArrayDetector) : ArrayDetector :=
  Build_ArrayDetector
    (args_ d) (carrier_det_ d) (block_idx_ d) (blocks_skip_ d)
    (last_block_ d) (preamp_off_block_ d) (sample_phase_ d) (carrier_pos_ d)
    v (dc_angle_ d) (prev_dc_angle_ d) (dc_ampl_ d) (carrier_ref_ d)
    (clock_error_ d) (avg_dc_angle_ d) (avg_dc_ampl_ d) (beacon_ d) (soa_ d)
    (prev_soa_ d) (cycle_ d) (skip_beacon_padding_ d) (synced_signal_ d)
    (corr_size_ d) (num_cycles_ d) (num_phase_errors_ d) (slice_start_ d)
    (slice_len_ d) (writer_ d).
Definition set_dc_angle_ (v : Q) (d : ArrayDetector) : ArrayDetector :=
  Build_ArrayDetector
    (args_ d) (carrier_det_ d) (block_idx_ d) (blocks_skip_ d)
    (last_block_ d) (preamp_off_block_ d) (sample_phase_ d) (carrier_pos_ d)
    (detected_carrier_ d) v (prev_dc_angle_ d) (dc_ampl_ d) (carrier_ref_ d)
    (clock_error_ d) (avg_dc_angle_ d) (avg_dc_ampl_ d) (beacon_ d) (soa_ d)
    (prev_soa_ d) (cycle_ d) (skip_beacon_padding_ d) (synced_signal_ d)
    (corr_size_ d) (num_cycles_ d) (num_phase_errors_ d) (slice_start_ d)
    (slice_len_ d) (writer_ d).
Definition set_prev_dc_angle_ (v : Q) (d : ArrayDetector) : ArrayDetector :=
  Build_ArrayDetector
    (args_ d) (carrier_det_ d) (block_idx_ d) (blocks_skip_ d)
    (last_block_ d) (preamp_off_block_ d) (sample_phase_ d) (carrier_pos_ d)
    (detected_carrier_ d) (dc_angle_ d) v (dc_ampl_ d) (carrier_ref_ d)
    (clock_error_ d) (avg_dc_angle_ d) (avg_dc_ampl_ d) (beacon_ d) (soa_ d)
    (prev_soa_ d) (cycle_ d) (skip_beacon_padding_ d) (synced_signal_ d)
    (corr_size_ d) (num_cycles_ d) (num_phase_errors_ d) (slice_start_ d)
    (slice_len_ d) (writer_ d).
Definition set_dc_ampl_ (v : Q) (d : ArrayDetector) : ArrayDetector :=
  Build_ArrayDetector
    (args_ d) (carrier_det_ d) (block_idx_ d) (blocks_skip_ d)
    (last_block_ d) (preamp_off_block_ d) (sample_phase_ d) (carrier_pos_ d)
    (detected_carrier_ d) (dc_angle_ d) (prev_dc_angle_ d) v
    (carrier_ref_ d) (clock_error_ d) (avg_dc_angle_ d) (avg_dc_ampl_ d)
    (beacon_ d) (soa_ d) (prev_soa_ d) (cycle_ d) (skip_beacon_padding_ d)
    (synced_signal_ d) (corr_size_ d) (num_cycles_ d) (num_phase_errors_ d)
    (slice_start_ d) (slice_len_ d) (writer_ d).
Definition set_clock_error_ (v : Q) (d : ArrayDetector) : ArrayDetector :=
  Build_ArrayDetector
    (args_ d) (carrier_det_ d) (block_idx_ d) (blocks_skip_ d)
    (last_block_ d) (preamp_off_block_ d) (sample_phase_ d) (carrier_pos_ d)
    (detected_carrier_ d) (dc_angle_ d) (prev_dc_angle_ d) (dc_ampl_ d)
    (carrier_ref_ d) v (avg_dc_angle_ d) (avg_dc_ampl_ d) (beacon_ d)
    (soa_ d) (prev_soa_ d) (cycle_ d) (skip_beacon_padding_ d)
    (synced_signal_ d) (corr_size_ d) (num_cycles_ d) (num_phase_errors_ d)
    (slice_start_ d) (slice_len_ d) (writer_ d).
Definition set_avg_dc_angle_ (v : Q) (d : ArrayDetector) : ArrayDetector :=
  Build_ArrayDetector
    (args_ d) (carrier_det_ d) (block_idx_ d) (blocks_skip_ d)
    (last_block_ d) (preamp_off_block_ d) (sample_phase_ d) (carrier_pos_ d)
    (detected_carrier_ d) (dc_angle_ d) (prev_dc_angle_ d) (dc_ampl_ d)
    (carrier_ref_ d) (clock_error_ d) v (avg_dc_ampl_ d) (beacon_ d)
    (soa_ d) (prev_soa_ d) (cycle_ d) (skip_beacon_padding_ d)
    (synced_signal_ d) (corr_size_ d) (num_cycles_ d) (num_phase_errors_ d)
    (slice_start_ d) (slice_len_ d) (writer_ d).
Definition set_avg_dc_ampl_ (v : Q) (d : ArrayDetector) : ArrayDetector :=
  Build_ArrayDetector
    (args_ d) (carrier_det_ d) (block_idx_ d) (blocks_skip_ d)
    (last_block_ d) (preamp_off_block_ d) (sample_phase_ d) (carrier_pos_ d)
    (detected_carrier_ d) (dc_angle_ d) (prev_dc_angle_ d) (dc_ampl_ d)
    (carrier_ref_ d) (clock_error_ d) (avg_dc_angle_ d) v (beacon_ d)
    (soa_ d) (prev_soa_ d) (cycle_ d) (skip_beacon_padding_ d)
    (synced_signal_ d) (corr_size_ d) (num_cycles_ d) (num_phase_errors_ d)
    (slice_start_ d) (slice_len_ d) (writer_ d).
Definition set_beacon_ (v : Z) (d : ArrayDetector) : ArrayDetector :=
  Build_ArrayDetector
    (args_ d) (carrier_det_ d) (block_idx_ d) (blocks_skip_ d)
    (last_block_ d) (preamp_off_block_ d) (sample_phase_ d) (carrier_pos_ d)
    (detected_carrier_ d) (dc_angle_ d) (prev_dc_angle_ d) (dc_ampl_ d)
    (carrier_ref_ d) (clock_error_ d) (avg_dc_angle_ d) (avg_dc_ampl_ d) v
    (soa_ d) (prev_soa_ d) (cycle_ d) (skip_beacon_padding_ d)
    (synced_signal_ d) (corr_size_ d) (num_cycles_ d) (num_phase_errors_ d)
    (slice_start_ d) (slice_len_ d) (writer_ d).
Definition set_soa_ (v : Q) (d : ArrayDetector) : ArrayDetector :=
  Build_ArrayDetector
    (args_ d) (carrier_det_ d) (block_idx_ d) (blocks_skip_ d)
    (last_block_ d) (preamp_off_block_ d) (sample_phase_ d) (carrier_pos_ d)
    (detected_carrier_ d) (dc_angle_ d) (prev_dc_angle_ d) (dc_ampl_ d)
    (carrier_ref_ d) (clock_error_ d) (avg_dc_angle_ d) (avg_dc_ampl_ d)
    (beacon_ d) v (prev_soa_ d) (cycle_ d) (skip_beacon_padding_ d)
    (synced_signal_ d) (corr_size_ d) (num_cycles_ d) (num_phase_errors_ d)
    (slice_start_ d) (slice_len_ d) (writer_ d).
Definition set_prev_soa_ (v : Q) (d : ArrayDetector) : ArrayDetector :=
  Build_ArrayDetector
    (args_ d) (carrier_det_ d) (block_idx_ d) (blocks_skip_ d)
    (last_block_ d) (preamp_off_block_ d) (sample_phase_ d) (carrier_pos_ d)
    (detected_carrier_ d) (dc_angle_ d) (prev_dc_angle_ d) (dc_ampl_ d)
    (carrier_ref_ d) (clock_error_ d) (avg_dc_angle_ d) (avg_dc_ampl_ d)
    (beacon_ d) (soa_ d) v (cycle_ d) (skip_beacon_padding_ d)
    (synced_signal_ d) (corr_size_ d) (num_cycles_ d) (num_phase_errors_ d)
    (slice_start_ d) (slice_len_ d) (writer_ d).
Definition set_cycle_ (v : Z) (d : ArrayDetector) : ArrayDetector :=
  Build_ArrayDetector
    (args_ d) (carrier_det_ d) (block_idx_ d) (blocks_skip_ d)
    (last_block_ d) (preamp_off_block_ d) (sample_phase_ d) (carrier_pos_ d)
    (detected_carrier_ d) (dc_angle_ d) (prev_dc_angle_ d) (dc_ampl_ d)
    (carrier_ref_ d) (clock_error_ d) (avg_dc_angle_ d) (avg_dc_ampl_ d)
    (beacon_ d) (soa_ d) (prev_soa_ d) v (skip_beacon_padding_ d)
    (synced_signal_ d) (corr_size_ d) (num_cycles_ d) (num_phase_errors_ d)
    (slice_start_ d) (slice_len_ d) (writer_ d).
Definition set_synced_signal_ (v : Signal) (d : ArrayDetector) : ArrayDetector :=
  Build_ArrayDetector
    (args_ d) (carrier_det_ d) (block_idx_ d) (blocks_skip_ d)
    (last_block_ d) (preamp_off_block_ d) (sample_phase_ d) (carrier_pos_ d)
    (detected_carrier_ d) (dc_angle_ d) (prev_dc_angle_ d) (dc_ampl_ d)
    (carrier_ref_ d) (clock_error_ d) (avg_dc_angle_ d) (avg_dc_ampl_ d)
    (beacon_ d) (soa_ d) (prev_soa_ d) (cycle_ d) (skip_beacon_padding_ d) v
    (corr_size_ d) (num_cycles_ d) (num_phase_errors_ d) (slice_start_ d)
    (slice_len_ d) (writer_ d).
Definition set_num_phase_errors_ (v : Z) (d : ArrayDetector) : ArrayDetector :=
  Build_ArrayDetector
    (args_ d) (carrier_det_ d) (block_idx_ d) (blocks_skip_ d)
    (last_block_ d) (preamp_off_block_ d) (sample_phase_ d) (carrier_pos_ d)
    (detected_carrier_ d) (dc_angle_ d) (prev_dc_angle_ d) (dc_ampl_ d)
    (carrier_ref_ d) (clock_error_ d) (avg_dc_angle_ d) (avg_dc_ampl_ d)
    (beacon_ d) (soa_ d) (prev_soa_ d) (cycle_ d) (skip_beacon_padding_ d)
    (synced_signal_ d) (corr_size_ d) (num_cycles_ d) v (slice_start_ d)
    (slice_len_ d) (writer_ d).
Definition set_writer_ (v : CorxFileWriter) (d : ArrayDetector) : ArrayDetector :=
  Build_ArrayDetector
    (args_ d) (carrier_det_ d) (block_idx_ d) (blocks_skip_ d)
    (last_block_ d) (preamp_off_block_ d) (sample_phase_ d) (carrier_pos_ d)
    (detected_carrier_ d) (dc_angle_ d) (prev_dc_angle_ d) (dc_ampl_ d)
    (carrier_ref_ d) (clock_error_ d) (avg_dc_angle_ d) (avg_dc_ampl_ d)
    (beacon_ d) (soa_ d) (prev_soa_ d) (cycle_ d) (skip_beacon_padding_ d)
    (synced_signal_ d) (corr_size_ d) (num_cycles_ d) (num_phase_errors_ d)
    (slice_start_ d) (slice_len_ d) v.

(** ** [ArrayDetector] *)

Definition stride (a : fargs_t) : Z := block_len a - history_len a.

(** The constructor; [corr_size] is an [int] and [out] is the [CFile] of
    the output.  [corr_size_] is a [size_t], so the quotient that gives
    [num_cycles_] is an unsigned one and is converted to the [int] that
    holds it; so is [slice_len_].  The sample rate is taken as the
    [uint32_t] of the tuner interface: the difference is an unsigned
    one.  A [corr_size] of zero, at which the division traps, is not
    modelled. *)
Definition ArrayDetector_new (args : fargs_t) (corr_size : Z)
           (out : option (list Cell)) (u : Indeterminate) : ArrayDetector :=
  {| args_ := args;
     carrier_det_ := Source.new;
     block_idx_ := 0;
     blocks_skip_ := skip args;
     last_block_ := 0;
     preamp_off_block_ := 0;
     sample_phase_ := 0;
     carrier_pos_ := 0;
     detected_carrier_ := false;
     dc_angle_ := 0;
     prev_dc_angle_ := any_prev_dc_angle u;
     dc_ampl_ := any_dc_ampl u;
     carrier_ref_ := - 277800;
     clock_error_ := any_clock_error u;
     avg_dc_angle_ := 0;
     avg_dc_ampl_ := 0;
     beacon_ := -1;
     soa_ := 0;
     prev_soa_ := 0;
     cycle_ := -1;
     skip_beacon_padding_ := 6000;
     synced_signal_ := any_synced_signal u;
     corr_size_ := u64 corr_size;
     num_cycles_ :=
       wrap_int32 (u32 (sdr_sample_rate args - 2 * 6000) / u64 corr_size);
     num_phase_errors_ := any_num_phase_errors u;
     slice_start_ := Z.max 0 OUTPUT_WINDOW_START;
     slice_len_ :=
       wrap_int32 (if OUTPUT_WINDOW_LEN <=? 0 then u64 corr_size
                   else Z.min (u64 corr_size) (u64 OUTPUT_WINDOW_LEN));
     writer_ := Writer.new out |}.

Definition set_bias_tee (on : bool) (d : ArrayDetector) : ArrayDetector :=
  if negb (String.eqb (input_file (args_ d)) "rtlsdr") then d
  else set_carrier_det_ (Source.set_bias_tee on (carrier_det_ d)) d.

Definition start (d : ArrayDetector) : ArrayDetector :=
  let d := set_detected_carrier_ false d in
  let d := set_bias_tee true d in
  set_writer_
    (Writer.write_file_header
       {| slice_start_idx := u16 (slice_start_ d);
          slice_size := u16 (slice_len_ d) |}
       (writer_ d)) d.

(** *** The output "-"

    [CFile("-")] is [stdout], the stream that [printf] writes to as well.
    For a detector whose writer is on [stdout], [out_] is what that
    stream holds, the text of the [printf] calls included.  The methods
    below are [set_bias_tee] and [start] for such a detector: the code
    is the same, and the [printf] of [set_bias_tee] is kept. *)

Definition newline : string := String (ascii_of_nat 10) EmptyString.

(** The bytes of a text. *)
Definition text_cells (s : string) : list Cell :=
  map (fun a => CByte (Z.of_nat (nat_of_ascii a))) (list_ascii_of_string s).

(** [printf] of a text without conversions, with the writer on
    [stdout]. *)
Definition print_text (s : string) (d : ArrayDetector) : ArrayDetector :=
  set_writer_ (Writer.put (text_cells s) (writer_ d)) d.

Definition set_bias_tee_on_stdout (on : bool) (d : ArrayDetector)
  : ArrayDetector :=
  if negb (String.eqb (input_file (args_ d)) "rtlsdr") then d
  else
    let d := set_carrier_det_ (Source.set_bias_tee on (carrier_det_ d)) d in
    print_text ((if on then "Enabled bias tee" else "Disabled bias tee")
                ++ newline) d.

Definition start_on_stdout (d : ArrayDetector) : ArrayDetector :=
  let d := set_detected_carrier_ false d in
  let d := set_bias_tee_on_stdout true d in
  set_writer_
    (Writer.write_file_header
       {| slice_start_idx := u16 (slice_start_ d);
          slice_size := u16 (slice_len_ d) |}
       (writer_ d)) d.

Definition cancel (d : ArrayDetector) : ArrayDetector :=
  set_carrier_det_ (Source.cancel (carrier_det_ d)) d.

(** The [freq_shift] call that [next] and [recover_carrier] make. *)
Definition shift_block (blk : Block) (d : ArrayDetector) : ArrayDetector :=
  set_synced_signal_ (freq_shift blk (- carrier_pos_ d) (sample_phase_ d)) d.

(** [dc = calculate_dc(...); dc_ampl_ = abs(dc); dc_angle_ = ...] *)
Definition measure_dc (d : ArrayDetector) : ArrayDetector :=
  let d := set_dc_ampl_ (dc_abs (synced_signal_ d)) d in
  set_dc_angle_ (normalize_deciangle (dc_arg (synced_signal_ d))) d.

(** The tracking branch of [recover_carrier]. *)
Definition track_carrier (blk : Block) (d : ArrayDetector) : ArrayDetector :=
  let d := shift_block blk d in
  let d := set_prev_dc_angle_ (dc_angle_ d) d in
  let d := measure_dc d in
  let angle_diff :=
    normalize_deciangle (dc_angle_ d - prev_dc_angle_ d) in
  if Qlt_bool MAX_TRACKING_ANGLE_DIFF (angle_diff * 360) then
    set_detected_carrier_ false d
  else
    set_carrier_pos_
      (carrier_pos_ d + angle_diff * TRACKING_ANGLE_DIFF_FACTOR) d.

(** The acquisition branch of [recover_carrier].  [carrier_pos_] is a
    [float]: the sum of the bin and the offset, the comparison with the
    integer quotient and the difference are [float] operations. *)
Definition acquire_carrier (blk : Block) (d : ArrayDetector) : ArrayDetector :=
  let carrier := carrier blk in
  if carrier_detected carrier then
    let carrier_offset :=
      interpolate_parabolic (fft_power carrier) (argmax carrier) in
    let d := set_carrier_pos_
               (to_float (to_float (inject_Z (argmax carrier))
                          + carrier_offset)) d in
    let d :=
      if Qlt_bool (to_float (inject_Z (block_len (args_ d) ÷ 2)))
                  (carrier_pos_ d)
      then set_carrier_pos_
             (to_float (carrier_pos_ d
                        - to_float (inject_Z (block_len (args_ d))))) d
      else d in
    let d := set_detected_carrier_ true d in
    let d := shift_block blk d in
    measure_dc d
  else d.

(** [recover_carrier]; its result, [detected_carrier_], is not used by
    the caller. *)
Definition recover_carrier (blk : Block) (d : ArrayDetector) : ArrayDetector :=
  let d := if detected_carrier_ d then track_carrier blk d else d in
  if negb (detected_carrier_ d) then acquire_carrier blk d else d.

Definition estimate_clock_error (d : ArrayDetector) : Q :=
  ((carrier_pos_ d * inject_Z (sdr_sample_rate (args_ d))
    / inject_Z (block_len (args_ d))
    - carrier_ref_ d) / inject_Z (sdr_freq (args_ d)))%Q.

Definition find_beacon (d : ArrayDetector) : CorrDetection * ArrayDetector :=
  let corr := correlate (synced_signal_ d) in
  if detected corr then
    let d := set_prev_soa_ (soa_ d) d in
    let d := set_soa_
               (inject_Z (stride (args_ d) * block_idx_ d + peak_idx corr)
                + peak_offset corr) d in
    (* [float time_step]: the quotient of the doubles, as a [float] *)
    let time_step :=
      to_float
        ((soa_ d - prev_soa_ d) / inject_Z (sdr_sample_rate (args_ d))) in
    let d :=
      if (0 <? beacon_ d) &&
         Qlt_bool ((3#2) * BEACON_INTERVAL_SEC) time_step
      then set_beacon_
             (beacon_ d + to_int (inject_Z (c_round time_step))) d
      else set_beacon_ (beacon_ d + 1) d in
    (corr, d)
  else (corr, d).

(** The [carrier_offset] argument of the [fft_shift] call, a [float]
    converted to the [size_t] parameter. *)
Definition corr_carrier_offset (d : ArrayDetector) : Z :=
  to_size_t (- carrier_pos_ d * inject_Z (corr_size_ d)
             / inject_Z (block_len (args_ d))).

(** [start] for the current [cycle_].  The padding and the cycles before
    this one are counted in [size_t]; their product with
    [1 - clock_error_] is a product of two [float]s, which is then added
    to the doubles. *)
Definition corr_start (d : ArrayDetector) : Q :=
  (soa_ d
   + to_float
       (to_float
          (inject_Z (u64 (skip_beacon_padding_ d + cycle_ d * corr_size_ d)))
        * to_float (1 - clock_error_ d))
   - inject_Z (block_idx_ d * stride (args_ d)))%Q.

(** [size_t start_idx = int(round(start))] *)
Definition corr_start_idx (d : ArrayDetector) : Z :=
  u64 (to_int (inject_Z (c_round (corr_start d)))).

(** The [for] loop of [extract_corr_blocks]; one unit of [fuel] per
    iteration. *)
Fixpoint extract_loop (fuel : nat) (d : ArrayDetector) : Result ArrayDetector :=
  match fuel with
  | O => Ok d
  | S fuel' =>
    if cycle_ d <? num_cycles_ d then
      let start := corr_start d in
      let start_idx := corr_start_idx d in
      if block_len (args_ d) <? u64 (start_idx + corr_size_ d) then
        Ok d                                                 (* break *)
      else if negb (fft_shift_in_bounds (corr_size_ d)
                                        (corr_carrier_offset d)) then
        Stop buffer_overrun
      else
        let pos_len :=
          fft_shift_pos_len (corr_size_ d) (corr_carrier_offset d) in
        let corrected :=
          corr_block (synced_signal_ d) start_idx
                     (start - inject_Z start_idx) (- avg_dc_angle_ d)
                     pos_len in
        let error := corr_error corrected in
        let d :=
          if Qlt_bool (1#5) (Qabs error)
          then set_num_phase_errors_ (num_phase_errors_ d + 1) d
          else d in
        let error_fp := to_int8 (error / (1#2) * 127) in
        match
          Writer.write_cycle_block
            error_fp
            (skipn (Z.to_nat (slice_start_ d)) (corrected_corr_fft corrected))
            (u16 (slice_len_ d))
            (writer_ d)
        with
        | None => Stop assertion_failed
        | Some w =>
          let d := set_writer_ w d in
          extract_loop fuel' (set_cycle_ (cycle_ d + 1) d)
        end
    else Ok d
  end.

Definition extract_corr_blocks (d : ArrayDetector) : Result ArrayDetector :=
  match extract_loop (Z.to_nat (num_cycles_ d - cycle_ d)) d with
  | Stop f => Stop f
  | Ok d =>
    if num_cycles_ d <=? cycle_ d then
      let d := set_cycle_ (-1) d in
      Ok (set_writer_ (Writer.write_cycle_stop (writer_ d)) d)
    else Ok d
  end.

(** The first statement of [next]: the preamp is switched off. *)
Definition switch_preamp_off (d : ArrayDetector) : ArrayDetector :=
  if (0 <? preamp_off_block_ d) && (block_idx_ d =? preamp_off_block_ d)
  then
    let d :=
      if 0 <=? cycle_ d then
        let d := set_cycle_ (-1) d in
        set_writer_ (Writer.write_cycle_stop (writer_ d)) d
      else d in
    let d := set_bias_tee false d in
    set_blocks_skip_
      (to_unsigned (PREAMP_OFF_SKIP
                    * inject_Z (sdr_sample_rate (args_ d))
                    / inject_Z (stride (args_ d)))) d
  else d.

(** The second statement of [next]: the scheduled stop. *)
Definition stop_at_last_block (d : ArrayDetector) : ArrayDetector :=
  if (0 <? last_block_ d) && (block_idx_ d =? last_block_ d)
  then cancel d
  else d.

(** The header written when a beacon is found. *)
Definition beacon_header (blk : Block) (corr : CorrDetection)
           (d : ArrayDetector) : CorxBeaconHeader :=
  {| soa := soa_ d;
     timestamp_sec := u64 (tv_sec blk);
     timestamp_msec := u16 (tv_usec blk ÷ 1000);
     beacon_amplitude := sqrt_to_unsigned (peak_power corr);
     beacon_noise := sqrt_to_unsigned (noise_power corr);
     clock_error := clock_error_ d;
     carrier_pos := carrier_pos_ d;
     carrier_amplitude := to_unsigned (dc_ampl_ d);
     preamp_on := true |}.

(** The header written when a noise cycle starts. *)
Definition noise_header (blk : Block) (d : ArrayDetector) : CorxBeaconHeader :=
  {| soa := soa_ d;
     timestamp_sec := u64 (tv_sec blk);
     timestamp_msec := u16 (tv_usec blk ÷ 1000);
     beacon_amplitude := 0;
     beacon_noise := 0;
     clock_error := clock_error_ d;
     carrier_pos := carrier_pos_ d;
     carrier_amplitude := 0;
     preamp_on := false |}.

(** The branch of [next] taken after the preamp was switched off. *)
Definition capture_noise (blk : Block) (d : ArrayDetector)
  : Result (ArrayDetector * bool) :=
  let d := shift_block blk d in
  let d :=
    if cycle_ d =? -1 then
      let d := set_soa_ (inject_Z (stride (args_ d) * block_idx_ d)) d in
      let d := set_cycle_ 0 d in
      let d := set_num_phase_errors_ 0 d in
      set_writer_
        (Writer.write_cycle_start (noise_header blk d) (writer_ d)) d
    else d in
  match extract_corr_blocks d with
  | Stop f => Stop f
  | Ok d => Ok (d, true)
  end.

(** The schedule set at the first beacon. *)
Definition schedule_capture (d : ArrayDetector) : ArrayDetector :=
  let d :=
    set_last_block_
      (to_unsigned ((MAX_CAPTURE_TIME + PREAMP_OFF_TIME)
                    * inject_Z (sdr_sample_rate (args_ d))
                    / inject_Z (stride (args_ d))
                    + inject_Z (block_idx_ d))) d in
  set_preamp_off_block_
    (to_unsigned (MAX_CAPTURE_TIME
                  * inject_Z (sdr_sample_rate (args_ d))
                  / inject_Z (stride (args_ d))
                  + inject_Z (block_idx_ d))) d.

(** The branch of [next] that tracks the carrier and looks for a beacon. *)
Definition capture (blk : Block) (d : ArrayDetector)
  : Result (ArrayDetector * bool) :=
  let d := recover_carrier blk d in
  let d :=
    set_sample_phase_
      (normalize_deciangle
         (sample_phase_ d
          - carrier_pos_ d
            * (1 - inject_Z (history_len (args_ d))
                   / inject_Z (block_len (args_ d))))) d in
  let d :=
    set_avg_dc_angle_
      (dc_angle_ d * AVG_ANGLE_WEIGHT
       + avg_dc_angle_ d * (1 - AVG_ANGLE_WEIGHT)) d in
  let d :=
    set_avg_dc_ampl_
      (dc_ampl_ d * AVG_DCAMPL_WEIGHT
       + avg_dc_ampl_ d * (1 - AVG_DCAMPL_WEIGHT)) d in
  if negb (detected_carrier_ d) then Ok (d, true)
  else
    let d :=
      if (cycle_ d =? -1) &&
         Qlt_bool (dc_ampl_ d)
                  (avg_dc_ampl_ d * BEACON_CARRIER_TRIGGER_FACTOR)
      then
        let (corr, d) := find_beacon d in
        if detected corr then
          let d := set_clock_error_ (estimate_clock_error d) d in
          let d := set_cycle_ 0 d in
          let d := set_num_phase_errors_ 0 d in
          let d := if beacon_ d =? 0 then schedule_capture d else d in
          set_writer_
            (Writer.write_cycle_start (beacon_header blk corr d) (writer_ d))
            d
        else d
      else d in
    if 0 <=? cycle_ d then
      match extract_corr_blocks d with
      | Stop f => Stop f
      | Ok d => Ok (d, true)
      end
    else Ok (d, true).

(** [next] from the read on. *)
Definition read_and_process (incoming : option Block) (d : ArrayDetector)
  : Result (ArrayDetector * bool) :=
  match Source.next incoming (carrier_det_ d) with
  | None =>
    let d :=
      if 0 <=? cycle_ d
      then set_writer_ (Writer.write_cycle_stop (writer_ d)) d
      else d in
    Ok (d, false)
  | Some blk =>
    let d := set_block_idx_ (u32 (block_idx_ d + 1)) d in
    if negb (blocks_skip_ d =? 0) then
      Ok (set_blocks_skip_ (u32 (blocks_skip_ d - 1)) d, true)
    else if (0 <? preamp_off_block_ d)
            && (preamp_off_block_ d <? block_idx_ d) then
      capture_noise blk d
    else capture blk d
  end.

(** [bool next()].  [incoming] is what the reader has for this call. *)
Definition next (incoming : option Block) (d : ArrayDetector)
  : Result (ArrayDetector * bool) :=
  let d := switch_preamp_off d in
  let d := stop_at_last_block d in
  read_and_process incoming d.

(** ** The main loop *)

(** What arrives between two iterations of the loop in [main]: a signal,
    whose handler calls [cancel], and what the reader has next. *)
Record Tick : Type := {
  interrupt : bool;
  incoming : option Block
}.

Inductive Outcome : Type :=
| Running (d : ArrayDetector)     (* every [next] so far returned true *)
| Exited (d : ArrayDetector)      (* [next] returned false *)
| Crashed (f : Fault).

(** [while (detector->next()) {}] over the given ticks. *)
Fixpoint main_loop (ticks : list Tick) (d : ArrayDetector) : Outcome :=
  match ticks with
  | [] => Running d
  | t :: ticks' =>
    let d := if interrupt t then cancel d else d in
    match next (incoming t) d with
    | Stop f => Crashed f
    | Ok (d', true) => main_loop ticks' d'
    | Ok (d', false) => Exited d'
    end
  end.

(** [CFile(output_file)] for the name of a file and for no name: a file
    just opened for writing when an output was asked for, no file
    otherwise.  With the third kind of output, "-", the writer is on
    [stdout]; what [start] does then is [start_on_stdout]. *)
Definition CFile_open (output : bool) : option (list Cell) :=
  if output then Some [] else None.

(** [detector.reset(new ArrayDetector(..., 1024, CFile(output_file)));
    detector->start(); while (detector->next()) {}] *)
Definition run (args : fargs_t) (output : bool)
           (u : Indeterminate) (ticks : list Tick) : Outcome :=
  main_loop ticks
            (start (ArrayDetector_new args 1024 (CFile_open output) u)).

(** ** Vocabulary of the properties *)

Definition is_start (c : WriterCall) : bool :=
  match c with call_cycle_start => true | _ => false end.

Definition is_stop (c : WriterCall) : bool :=
  match c with call_cycle_stop => true | _ => false end.

(** Number of [write_cycle_start] and of [write_cycle_stop] calls made. *)
Definition starts (w : CorxFileWriter) : nat :=
  List.length (filter is_start (calls_ w)).

Definition stops (w : CorxFileWriter) : nat :=
  List.length (filter is_stop (calls_ w)).

(** [cycle_] is [-1] exactly when no [write_cycle_start] waits for its
    [write_cycle_stop]; otherwise it is not negative and one does. *)
Definition cycle_matches_calls (d : ArrayDetector) : Prop :=
  (cycle_ d = -1 /\ starts (writer_ d) = stops (writer_ d)) \/
  (0 <= cycle_ d /\ starts (writer_ d) = S (stops (writer_ d))).

(** The [phase_error] arguments of the [write_cycle_block] calls. *)
Definition phase_errors (calls : list WriterCall) : list Z :=
  flat_map (fun c => match c with
                     | call_cycle_block p => [p]
                     | _ => []
                     end) calls.

(** What one call does to the three members of the writer. *)
Definition advanced (c : WriterCall) (cells : list Cell)
           (w w' : CorxFileWriter) : Prop :=
  calls_ w' = calls_ w ++ [c] /\
  slice_size_ w' = slice_size_ w /\
  out_ w' = option_map (fun f => f ++ cells) (out_ w).

(** The slice window. *)
Definition slice_window (d : ArrayDetector) : Z * Z :=
  (slice_start_ d, slice_len_ d).

(** What a run never changes about its output: the slice window and
    whether there is a file. *)
Definition sink_view (d : ArrayDetector) : Z * Z * bool :=
  (slice_start_ d, slice_len_ d, Writer.is_void (writer_ d)).

(** The members that the writer protocol depends on. *)
Definition protocol_view (d : ArrayDetector)
  : Z * CorxFileWriter * (Z * Z * Z) :=
  (cycle_ d, writer_ d, (slice_start_ d, slice_len_ d, num_cycles_ d)).

(** A trace starts with the file header. *)
Definition preamble_written (d : ArrayDetector) : Prop :=
  match out_ (writer_ d) with
  | None => True
  | Some f =>
    exists rest,
      f = [CByte 67; CByte 79; CByte 82; CByte 88; CByte 1]
          ++ le_bytes 2 (u16 (slice_start_ d))
          ++ le_bytes 2 (u16 (slice_len_ d)) ++ rest
  end.

(** A writer with a file remembers the slice size of the header. *)
Definition slice_size_set (d : ArrayDetector) : Prop :=
  Writer.is_void (writer_ d) = false ->
  slice_size_ (writer_ d) = u16 (slice_len_ d).

(** What holds of the writer between two calls of [next]. *)
Definition protocol_ok (d : ArrayDetector) : Prop :=
  cycle_matches_calls d /\ preamble_written d /\ slice_size_set d.

(** What holds of it inside a cycle. *)
Definition cycle_open (d : ArrayDetector) : Prop :=
  (0 <= cycle_ d /\ starts (writer_ d) = S (stops (writer_ d)))
  /\ preamble_written d /\ slice_size_set d.

(** The phase of a corrected block is an [arg] over [2 PI]: at most half
    a turn. *)
Definition phase_in_turns (s : Signal) : Prop :=
  forall start_idx shift_freq shift_phase pos_len,
    (- (1#2)
     <= corr_error (corr_block s start_idx shift_freq shift_phase pos_len)
     <= 1#2)%Q.

Definition block_in_turns (b : Block) : Prop :=
  forall shift_freq shift_phase,
    phase_in_turns (freq_shift b shift_freq shift_phase).

Definition tick_in_turns (t : Tick) : Prop :=
  match incoming t with
  | Some b => block_in_turns b
  | None => True
  end.

(** The [write_cycle_block] calls made so far had a phase error within
    [-127, 127], and the synced buffer yields phases in turns. *)
Definition phases_in_range (d : ArrayDetector) : Prop :=
  Forall (fun p => -127 <= p <= 127) (phase_errors (calls_ (writer_ d)))
  /\ phase_in_turns (synced_signal_ d).

(** The writer as it is when every write was dropped. *)
Definition dropped (w : CorxFileWriter) : CorxFileWriter :=
  {| out_ := None; slice_size_ := 0; calls_ := calls_ w |}.

(** The detector with the output taken away: all members but the file
    and the slice size that the writer remembers. *)
Definition without_output (d : ArrayDetector) : ArrayDetector :=
  set_writer_ (dropped (writer_ d)) d.

Definition outcome_without_output (o : Outcome) : Outcome :=
  match o with
  | Running d => Running (without_output d)
  | Exited d => Exited (without_output d)
  | Crashed f => Crashed f
  end.

Definition step_without_output (r : ArrayDetector * bool)
  : ArrayDetector * bool :=
  (without_output (fst r), snd r).

(** A computation with a file and the same computation without one: the
    second gives the result of the first with the output taken away,
    unless an assertion of the writer stops the first. *)
Definition mirrored {A : Type} (drop : A -> A)
           (with_file without_file : Result A) : Prop :=
  match with_file with
  | Ok a => without_file = Ok (drop a)
  | Stop buffer_overrun => without_file = Stop buffer_overrun
  | Stop assertion_failed => True
  end.

(** The first nine bytes of a trace: "CORX", the version, and the two
    little-endian [uint16_t] of the file header. *)
Definition file_preamble (slice_start slice_len : Z) : list Cell :=
  [CByte 67; CByte 79; CByte 82; CByte 88;
   CByte 1;
   CByte (slice_start mod 256); CByte (slice_start / 256 mod 256);
   CByte (slice_len mod 256); CByte (slice_len / 256 mod 256)].

(** The angle by which the DC component moved since the last block, as
    the tracking branch of [recover_carrier] computes it. *)
Definition tracking_angle_diff (blk : Block) (d : ArrayDetector) : Q :=
  normalize_deciangle
    (normalize_deciangle
       (dc_arg (freq_shift blk (- carrier_pos_ d) (sample_phase_ d)))
     - dc_angle_ d).


(** ** Test inputs *)

Module Scenario.

Definition quiet : CorrDetection :=
  {| detected := false; peak_idx := 0; peak_offset := 0;
     peak_power := 0; noise_power := 0 |}.

Definition pulse_at (idx : Z) : CorrDetection :=
  {| detected := true; peak_idx := idx; peak_offset := 0;
     peak_power := 10000; noise_power := 4 |}.

(** A synced block with the given DC amplitude and angle and the given
    correlator result.  Its correlation blocks have a phase of an
    eighth of a turn and hold one sample. *)
Definition signal (ampl angle : Q) (corr : CorrDetection) : Signal :=
  {| dc_abs := ampl;
     dc_arg := angle;
     correlate := corr;
     corr_block := fun _ _ _ _ =>
       {| corr_error := 1#8; corrected_corr_fft := [(1, 0)%Q] |} |}.

(** A spectrum with a symmetric peak at bin [m]. *)
Definition tone (m : Z) : fastcard_data_t :=
  {| carrier_detected := true;
     argmax := m;
     fft_power := fun k => if k =? m then 4%Q else 1%Q |}.

(** A spectrum whose peak at bin [m] leans to the right. *)
Definition skewed_tone (m : Z) : fastcard_data_t :=
  {| carrier_detected := true;
     argmax := m;
     fft_power := fun k => if k =? m then 4%Q
                           else if k =? m + 1 then 3%Q else 1%Q |}.

(** A spectrum whose peak at bin [m] leans to the right by a hair: the
    parabolic offset is 1/119998, about 0.0000083. *)
Definition faint_lean (m : Z) : fastcard_data_t :=
  {| carrier_detected := true;
     argmax := m;
     fft_power := fun k => if k =? m then 4%Q
                           else if k =? m + 1 then (10001#10000)%Q
                                else 1%Q |}.

Definition no_tone : fastcard_data_t :=
  {| carrier_detected := false; argmax := 0; fft_power := fun _ => 0%Q |}.

Definition block (c : fastcard_data_t) (s : Signal) : Block :=
  {| tv_sec := 1500000000; tv_usec := 250000;
     carrier := c;
     freq_shift := fun _ _ => s |}.

Definition tick (b : Block) : Tick :=
  {| interrupt := false; incoming := Some b |}.

Definition end_of_input : Tick :=
  {| interrupt := false; incoming := None |}.

Definition unset : Indeterminate :=
  {| any_prev_dc_angle := 0; any_dc_ampl := 0; any_clock_error := 0;
     any_num_phase_errors := 0;
     any_synced_signal := signal 0 0 quiet |}.

(** A recording with one block per second. *)
Definition args : fargs_t :=
  {| input_file := "capture.iq"; block_len := 16384; history_len := 0;
     skip := 0; sdr_sample_rate := 16384; sdr_freq := 100000000 |}.


(** Acquisition at bin 100, then a block whose DC angle is a quarter
    turn behind. *)
Definition phase_jump_back : list Tick :=
  [tick (block (tone 100) (signal 1000 (1#4) quiet));
   tick (block no_tone (signal 1000 0 quiet))].

(** Acquisition, a pulse in the second block, none in the third, a
    pulse in the fourth: the pulse between the two is missing. *)
Definition missed_pulse : list Tick :=
  [tick (block (tone 100) (signal 1000 0 quiet));
   tick (block no_tone (signal 10 0 (pulse_at 100)));
   tick (block no_tone (signal 1000 0 quiet));
   tick (block no_tone (signal 10 0 (pulse_at 100)))].

(** [n] blocks of the steady carrier. *)
Definition steady (n : nat) : list Tick :=
  repeat (tick (block no_tone (signal 1000 0 quiet))) n.

(** The detector after the given ticks of the recording. *)
Definition state_after (ticks : list Tick) : ArrayDetector :=
  match run args true unset ticks with
  | Running d | Exited d => d
  | Crashed _ => ArrayDetector_new args 1024 None unset
  end.

(** A tuner stream cut into short blocks. *)
Definition short_args : fargs_t :=
  {| input_file := "rtlsdr"; block_len := 2048; history_len := 0;
     skip := 0; sdr_sample_rate := 2400000; sdr_freq := 100000000 |}.

(** Block [k] of a carrier whose DC angle falls by 0.49 turn per
    block. *)
Definition sliding (ampl : Q) (corr : CorrDetection) (k : nat) : Block :=
  block no_tone
        (signal ampl
                (normalize_deciangle (- (49#100) * inject_Z (Z.of_nat k)))
                corr).

(** Acquisition in the middle of the band, [n] blocks of the sliding
    carrier, one more in which a pulse is found, and the three blocks
    after it. *)
Definition slide_then_pulse (n : nat) : list Tick :=
  tick (block (skewed_tone 1024) (signal 1000 0 quiet))
  :: map (fun k => tick (sliding 1000 quiet k)) (seq 1 n)
  ++ [tick (sliding 10 (pulse_at 200) (1 + n))]
  ++ map (fun k => tick (sliding 1000 quiet k)) (seq (2 + n) 3).

(** Acquisition, then a pulse so late in the second block that no
    correlation block fits behind it, then the end of the input. *)
Definition cut_in_cycle : list Tick :=
  [tick (block (tone 100) (signal 1000 0 quiet));
   tick (block no_tone (signal 10 0 (pulse_at 12000)));
   end_of_input].

(** A pulse 1.50000005 beacon intervals after sample 0 of the recording,
    seen in its second block. *)
Definition pulse_after_one_and_a_half : CorrDetection :=
  {| detected := true; peak_idx := 8192; peak_offset := 8192 # 10000000;
     peak_power := 10000; noise_power := 4 |}.


End Scenario.


(** ** Vocabulary of further properties *)

(** Where a sequence of writer calls stands in the trace format: the
    file header, then cycles, each of them a start, its blocks and a
    stop. *)
Inductive Phase : Type :=
| fresh                    (* nothing written *)
| closed                   (* header written, no cycle open *)
| opened (blocks : nat)    (* in a cycle, after that many blocks *)
| malformed.

Definition phase_step (ph : Phase) (c : WriterCall) : Phase :=
  match ph, c with
  | fresh, call_file_header => closed
  | closed, call_cycle_start => opened 0
  | opened n, call_cycle_block _ => opened (S n)
  | opened _, call_cycle_stop => closed
  | _, _ => malformed
  end.

Definition trace_phase (calls : list WriterCall) : Phase :=
  fold_left phase_step calls fresh.

(** The phase that [cycle_] stands for. *)
Definition cycle_phase (cycle : Z) : Phase :=
  if cycle =? -1 then closed else opened (Z.to_nat cycle).

(** Size in bytes of what is in the file. *)
Definition cell_size (c : Cell) : Z :=
  match c with
  | CByte _ => 1
  | CFloat _ => 4
  | CDouble _ => 8
  end.

Definition byte_size (cells : list Cell) : Z :=
  fold_right (fun c n => cell_size c + n) 0 cells.

(** The writer after any number of calls of [write_cycle_start],
    [write_cycle_block] and [write_cycle_stop]. *)
Inductive writes : CorxFileWriter -> CorxFileWriter -> Prop :=
| writes_none w : writes w w
| writes_stop w w' :
    writes w w' -> writes w (Writer.write_cycle_stop w')
| writes_start h w w' :
    writes w w' -> writes w (Writer.write_cycle_start h w')
| writes_block p data len w w' w'' :
    writes w w' ->
    Writer.write_cycle_block p data len w' = Some w'' ->
    writes w w''.

(** The break test of the loop in [extract_corr_blocks]. *)
Definition corr_block_past_end (d : ArrayDetector) : bool :=
  block_len (args_ d) <? u64 (corr_start_idx d + corr_size_ d).

(** The DC argument of a synced block is an [arg] over [2 PI]. *)
Definition dc_in_turns (b : Block) : Prop :=
  forall shift_freq shift_phase,
    (- (1#2) <= dc_arg (freq_shift b shift_freq shift_phase) <= 1#2)%Q.

Definition tick_dc_in_turns (t : Tick) : Prop :=
  match incoming t with
  | Some b => dc_in_turns b
  | None => True
  end.

(** The DC angles of the detector are normalised. *)
Definition angles_normalised (d : ArrayDetector) : Prop :=
  (- (1#2) <= dc_angle_ d <= 1#2)%Q /\
  (- (1#2) <= avg_dc_angle_ d <= 1#2)%Q.

(** A tick that delivers a block, without a signal. *)
Definition delivers (t : Tick) : bool :=
  match incoming t with
  | Some _ => negb (interrupt t)
  | None => false
  end.

(** Between two calls of [next] the calls made so far follow the trace
    format, [cycle_] says where they stand, and an open cycle is short of
    [num_cycles_] blocks. *)
Definition trace_ok (d : ArrayDetector) : Prop :=
  trace_phase (calls_ (writer_ d)) = cycle_phase (cycle_ d) /\
  (cycle_ d = -1 \/ 0 <= cycle_ d < num_cycles_ d).

(** The same inside a cycle, before the loop has run. *)
Definition trace_open (d : ArrayDetector) : Prop :=
  trace_phase (calls_ (writer_ d)) = opened (Z.to_nat (cycle_ d)) /\
  0 <= cycle_ d.

(** Size of the file, zero without one. *)
Definition file_size (w : CorxFileWriter) : Z :=
  match out_ w with
  | Some f => byte_size f
  | None => 0
  end.

(** The members that the schedule of a run depends on. *)
Definition schedule_view (d : ArrayDetector)
  : fargs_t * CarrierDetector * Z * (Z * Z) :=
  (args_ d, carrier_det_ d, block_idx_ d,
   (preamp_off_block_ d, last_block_ d)).

(** Between two calls of [next], after [n] blocks: the reader was not
    cancelled; no schedule is set, or the switch-off block is not after
    the last block and the last block is not passed; and the bias tee is
    on exactly when the input is the tuner and the switch-off block is
    not passed. *)
Definition on_schedule (args : fargs_t) (n : Z) (d : ArrayDetector) : Prop :=
  args_ d = args /\
  block_idx_ d = n /\
  cancelled (carrier_det_ d) = false /\
  ((preamp_off_block_ d = 0 /\ last_block_ d = 0) \/
   (0 < preamp_off_block_ d <= last_block_ d /\
    block_idx_ d <= last_block_ d)) /\
  bias_tee (carrier_det_ d)
  = String.eqb (input_file args) "rtlsdr"
    && negb ((0 <? preamp_off_block_ d)
             && (preamp_off_block_ d <? block_idx_ d)).

(** The two DC angles. *)
Definition angle_view (d : ArrayDetector) : Q * Q :=
  (dc_angle_ d, avg_dc_angle_ d).

(** The recording of the test inputs, read from its third block on. *)
Definition late_start_args : fargs_t :=
  {| input_file := "capture.iq"; block_len := 16384; history_len := 0;
     skip := 2; sdr_sample_rate := 16384; sdr_freq := 100000000 |}.

(** * Part II: properties *)

(** ** Numeric primitives *)

Section NumLemmas.

Lemma Qlt_bool_iff (a b : Q) : Qlt_bool a b = true <-> (a < b)%Q.
Proof.
  unfold Qlt_bool. rewrite negb_true_iff.
  split; intro H.
  - apply Qnot_le_lt. intro Hle. apply Qle_bool_iff in Hle. congruence.
  - destruct (Qle_bool b a) eqn:E; [|reflexivity].
    apply Qle_bool_iff in E. exfalso. apply (Qlt_not_le _ _ H E).
Qed.

Lemma Qlt_bool_false_iff (a b : Q) : Qlt_bool a b = false <-> (b <= a)%Q.
Proof.
  unfold Qlt_bool. rewrite negb_false_iff. apply Qle_bool_iff.
Qed.

Lemma Qle_bool_false_iff (a b : Q) : Qle_bool a b = false <-> (b < a)%Q.
Proof.
  split; intro H.
  - apply Qnot_le_lt. intro Hle. apply Qle_bool_iff in Hle. congruence.
  - destruct (Qle_bool a b) eqn:E; [|reflexivity].
    apply Qle_bool_iff in E. exfalso. apply (Qlt_not_le _ _ H E).
Qed.

Lemma c_trunc_inject_Z (z : Z) : c_trunc (inject_Z z) = z.
Proof.
  unfold c_trunc. destruct (Qle_bool 0 (inject_Z z));
    [apply Qfloor_Z | apply Qceiling_Z].
Qed.

(** Truncation keeps a value between two integers that bracket it. *)
Lemma c_trunc_between (lo hi : Z) (x : Q) :
  lo <= 0 <= hi ->
  (inject_Z lo <= x <= inject_Z hi)%Q ->
  lo <= c_trunc x <= hi.
Proof.
  intros [Hlo Hhi] [Hx1 Hx2]. unfold c_trunc.
  destruct (Qle_bool 0 x) eqn:E.
  - apply Qle_bool_iff in E.
    pose proof (Qfloor_resp_le _ _ E) as H0.
    pose proof (Qfloor_resp_le _ _ Hx2) as H1.
    rewrite Qfloor_Z in H1. change (Qfloor 0) with 0 in H0. lia.
  - apply Qle_bool_false_iff in E. apply Qlt_le_weak in E.
    pose proof (Qceiling_resp_le _ _ E) as H0.
    pose proof (Qceiling_resp_le _ _ Hx1) as H1.
    rewrite Qceiling_Z in H1. change (Qceiling 0) with 0 in H0. lia.
Qed.

(** Truncation is within one unit of its argument, toward zero. *)
Lemma c_trunc_nonneg (x : Q) :
  (0 <= x)%Q ->
  0 <= c_trunc x /\ (inject_Z (c_trunc x) <= x)%Q
  /\ (x < inject_Z (c_trunc x) + 1)%Q.
Proof.
  intros Hx. unfold c_trunc.
  pose proof Hx as Hb. apply Qle_bool_iff in Hb. rewrite Hb.
  pose proof (Qfloor_resp_le _ _ Hx) as H0. change (Qfloor 0) with 0 in H0.
  pose proof (Qlt_floor x) as H1. rewrite inject_Z_plus in H1.
  change (inject_Z 1) with 1%Q in H1.
  split; [exact H0 | split; [apply Qfloor_le | exact H1]].
Qed.

Lemma c_trunc_nonpos (x : Q) :
  (x <= 0)%Q ->
  c_trunc x <= 0 /\ (x <= inject_Z (c_trunc x))%Q
  /\ (inject_Z (c_trunc x) - 1 < x)%Q.
Proof.
  intros Hx. unfold c_trunc.
  destruct (Qle_bool 0 x) eqn:E.
  - apply Qle_bool_iff in E.
    pose proof (Qfloor_resp_le _ _ E) as H0.
    pose proof (Qfloor_resp_le _ _ Hx) as H1.
    change (Qfloor 0) with 0 in H0, H1.
    assert (Hz : Qfloor x = 0) by lia.
    rewrite Hz. change (inject_Z 0) with 0%Q.
    split; [lia | split; lra].
  - pose proof (Qceiling_resp_le _ _ Hx) as H0.
    change (Qceiling 0) with 0 in H0.
    pose proof (Qceiling_lt x) as H1. unfold Z.sub in H1.
    rewrite inject_Z_plus in H1.
    change (inject_Z (- (1))) with (- (1))%Q in H1.
    split; [exact H0 | split; [apply Qle_ceiling | lra]].
Qed.

Lemma cvtt_in_range (bits : Z) (x : Q) :
  - 2 ^ (bits - 1) <= c_trunc x < 2 ^ (bits - 1) ->
  cvtt bits x = c_trunc x.
Proof.
  intros [Hlo Hhi]. unfold cvtt.
  apply Z.leb_le in Hlo. apply Z.ltb_lt in Hhi.
  cbv zeta. rewrite Hlo, Hhi. reflexivity.
Qed.

Lemma to_int_round (x : Q) :
  INT_MIN <= c_round x <= INT_MAX ->
  to_int (inject_Z (c_round x)) = c_round x.
Proof.
  unfold INT_MIN, INT_MAX. intros H. unfold to_int.
  rewrite cvtt_in_range; rewrite c_trunc_inject_Z; [reflexivity | lia].
Qed.

(** [round] is within one half of its argument; the bound is strict on
    the side facing away from zero. *)
Lemma c_round_nonneg (x : Q) :
  (0 <= x)%Q ->
  (- (1#2) <= x - inject_Z (c_round x) /\ x - inject_Z (c_round x) < 1#2)%Q.
Proof.
  intros Hx. unfold c_round.
  apply Qle_bool_iff in Hx. rewrite Hx.
  pose proof (Qfloor_le (x + (1#2))) as Hlo.
  pose proof (Qlt_floor (x + (1#2))) as Hhi.
  rewrite inject_Z_plus in Hhi. change (inject_Z 1) with 1%Q in Hhi.
  split; lra.
Qed.

Lemma c_round_neg (x : Q) :
  (x < 0)%Q ->
  (- (1#2) < x - inject_Z (c_round x) /\ x - inject_Z (c_round x) <= 1#2)%Q.
Proof.
  intros Hx. unfold c_round.
  apply Qle_bool_false_iff in Hx. rewrite Hx.
  pose proof (Qle_ceiling (x - (1#2))) as Hhi.
  pose proof (Qceiling_lt (x - (1#2))) as Hlo.
  unfold Z.sub in Hlo. rewrite inject_Z_plus in Hlo.
  change (inject_Z (- (1))) with (- (1))%Q in Hlo.
  split; lra.
Qed.

Lemma c_round_half (x : Q) :
  (- (1#2) <= x - inject_Z (c_round x) <= 1#2)%Q.
Proof.
  destruct (Qlt_le_dec x 0) as [Hneg | Hpos].
  - pose proof (c_round_neg x Hneg). lra.
  - pose proof (c_round_nonneg x Hpos). lra.
Qed.


Lemma wrap_int8_small (z : Z) : -128 <= z <= 127 -> wrap_int8 z = z.
Proof.
  intros H. unfold wrap_int8. rewrite Z.mod_small; lia.
Qed.

(** The quantiser of [extract_corr_blocks] on a phase of at most half a
    turn. *)
Lemma quantise_range (error : Q) :
  (- (1#2) <= error <= 1#2)%Q ->
  -127 <= to_int8 (error / (1#2) * 127) <= 127.
Proof.
  intros H.
  assert (Hb : -127 <= c_trunc (error / (1#2) * 127) <= 127).
  { apply c_trunc_between; [lia|].
    assert (E : (error / (1#2) * 127 == error * 254)%Q) by field.
    rewrite E. change (inject_Z (-127)) with (-127)%Q.
    change (inject_Z 127) with 127%Q. lra. }
  unfold to_int8. rewrite cvtt_in_range by (simpl; lia).
  rewrite wrap_int8_small; lia.
Qed.


End NumLemmas.

(** ** [normalize_deciangle] *)

(** C3, as amended: when the nearest integer of the angle fits an [int],
    [normalize_deciangle] subtracts that integer ([round], halfway cases
    away from zero) and the result lies in the closed interval
    [-1/2, +1/2]; it is below [+1/2] for a non-negative angle and above
    [-1/2] for a negative one. *)
Theorem normalize_deciangle_closed_range (angle : Q) :
  INT_MIN <= c_round angle <= INT_MAX ->
  (normalize_deciangle angle == angle - inject_Z (c_round angle))%Q /\
  (- (1#2) <= normalize_deciangle angle <= 1#2)%Q /\
  ((0 <= angle)%Q -> (normalize_deciangle angle < 1#2)%Q) /\
  ((angle < 0)%Q -> (- (1#2) < normalize_deciangle angle)%Q).
Proof.
  intros Hr. unfold normalize_deciangle. rewrite (to_int_round _ Hr).
  split; [reflexivity|].
  split; [apply c_round_half|].
  split; intro H.
  - apply (c_round_nonneg _ H).
  - apply (c_round_neg _ H).
Qed.

Lemma normalize_deciangle_closed_range_witness :
  INT_MIN <= c_round (7#4) <= INT_MAX /\
  (- (1#2) <= normalize_deciangle (7#4) <= 1#2)%Q.
Proof.
  assert (H : INT_MIN <= c_round (7#4) <= INT_MAX)
    by (vm_compute; split; discriminate).
  split; [exact H|].
  exact (proj1 (proj2 (normalize_deciangle_closed_range (7#4) H))).
Defined.

(** C3, counterexample: the angle [-1/2] is sent to [+1/2], which is
    outside the half-open interval from [-1/2] to [+1/2]. *)
Lemma normalize_deciangle_half_open_fails :
  (normalize_deciangle (- (1#2)) == 1#2)%Q /\
  ~ (forall angle : Q,
        (- (1#2) <= normalize_deciangle angle)%Q /\
        (normalize_deciangle angle < 1#2)%Q).
Proof.
  split; [reflexivity|].
  intros H. destruct (H (- (1#2))%Q) as [_ Hlt].
  vm_compute in Hlt. discriminate.
Qed.

(** ** Single precision *)

Section SinglePrecision.






















End SinglePrecision.

(** ** Which members a method leaves alone *)

Ltac split_ifs :=
  repeat match goal with
         | |- context [if ?c then _ else _] => destruct c
         end.

(** Projections of assignments, and nothing else. *)
Ltac members :=
  cbn [
        args_ carrier_det_ block_idx_ blocks_skip_ last_block_
        preamp_off_block_ sample_phase_ carrier_pos_ detected_carrier_
        dc_angle_ prev_dc_angle_ dc_ampl_ carrier_ref_ clock_error_
        avg_dc_angle_ avg_dc_ampl_ beacon_ soa_ prev_soa_ cycle_
        skip_beacon_padding_ synced_signal_ corr_size_ num_cycles_
        num_phase_errors_ slice_start_ slice_len_ writer_ set_carrier_det_
        set_block_idx_ set_blocks_skip_ set_last_block_
        set_preamp_off_block_ set_sample_phase_ set_carrier_pos_
        set_detected_carrier_ set_dc_angle_ set_prev_dc_angle_
        set_dc_ampl_ set_clock_error_ set_avg_dc_angle_ set_avg_dc_ampl_
        set_beacon_ set_soa_ set_prev_soa_ set_cycle_ set_synced_signal_
        set_num_phase_errors_ set_writer_
       negb andb fst snd].

(** What a method does to the members does not depend on how a [float]
    is rounded: the rounding is made a variable. *)
Ltac any_rounding :=
  let fl := fresh "fl" in generalize to_float; intros fl.

Section Frame.

Lemma view_set_bias_tee (on : bool) (d : ArrayDetector) :
  protocol_view (set_bias_tee on d) = protocol_view d.
Proof. unfold set_bias_tee. split_ifs; reflexivity. Qed.

Lemma view_cancel (d : ArrayDetector) :
  protocol_view (cancel d) = protocol_view d.
Proof. reflexivity. Qed.

Lemma view_recover_carrier (blk : Block) (d : ArrayDetector) :
  protocol_view (recover_carrier blk d) = protocol_view d.
Proof.
  unfold recover_carrier, track_carrier, acquire_carrier.
  split_ifs; reflexivity.
Qed.

Lemma view_find_beacon (d : ArrayDetector) :
  protocol_view (snd (find_beacon d)) = protocol_view d.
Proof. unfold find_beacon. split_ifs; reflexivity. Qed.

Lemma view_schedule_capture (d : ArrayDetector) :
  protocol_view (schedule_capture d) = protocol_view d.
Proof. reflexivity. Qed.

Lemma view_stop_at_last_block (d : ArrayDetector) :
  protocol_view (stop_at_last_block d) = protocol_view d.
Proof. unfold stop_at_last_block. split_ifs; reflexivity. Qed.

End Frame.

(** ** The writer *)

Section WriterLemmas.

Lemma write_cycle_stop_advanced (w : CorxFileWriter) :
  advanced call_cycle_stop [CByte 128] w (Writer.write_cycle_stop w).
Proof.
  unfold advanced, Writer.write_cycle_stop, Writer.is_void.
  destruct w as [[f|] ss cs]; simpl; repeat split.
  rewrite app_nil_r. reflexivity.
Qed.

Lemma write_cycle_start_advanced (h : CorxBeaconHeader) (w : CorxFileWriter) :
  advanced call_cycle_start (CorxBeaconHeader_bytes h) w
           (Writer.write_cycle_start h w).
Proof.
  unfold advanced, Writer.write_cycle_start, Writer.is_void.
  destruct w as [[f|] ss cs]; simpl; repeat split.
Qed.

Lemma write_cycle_block_advanced (p : Z) (data : list (Q * Q)) (len : Z)
      (w w' : CorxFileWriter) :
  Writer.write_cycle_block p data len w = Some w' ->
  advanced (call_cycle_block p)
           (CByte (p mod 256) :: complex_bytes data len) w w'.
Proof.
  unfold advanced, Writer.write_cycle_block, Writer.is_void.
  destruct w as [[f|] ss cs]; simpl.
  - destruct (len =? ss); simpl; [|discriminate].
    destruct (p =? -128); [discriminate|].
    intros H. injection H as <-. simpl. repeat split.
    rewrite <- app_assoc. reflexivity.
  - intros H. injection H as <-. simpl. repeat split.
Qed.

(** The two assertions: the only way for [write_cycle_block] to fail. *)
Lemma write_cycle_block_asserts (p : Z) (data : list (Q * Q)) (len : Z)
      (w : CorxFileWriter) :
  Writer.write_cycle_block p data len w = None <->
  Writer.is_void w = false /\ (len <> slice_size_ w \/ p = -128).
Proof.
  unfold Writer.write_cycle_block, Writer.is_void.
  destruct w as [[f|] ss cs]; simpl.
  - destruct (Z.eqb_spec len ss) as [E|E]; simpl.
    + destruct (Z.eqb_spec p (-128)) as [Ep|Ep].
      * split; [intros _; split; [reflexivity | right; exact Ep] | reflexivity].
      * split; [discriminate | intros [_ [H|H]]; contradiction].
    + split; [intros _; split; [reflexivity | left; exact E] | reflexivity].
  - split; [discriminate | intros [H _]; discriminate].
Qed.

Lemma advanced_is_void (c : WriterCall) (cells : list Cell)
      (w w' : CorxFileWriter) :
  advanced c cells w w' -> Writer.is_void w' = Writer.is_void w.
Proof.
  intros (_ & _ & Ho). unfold Writer.is_void. rewrite Ho.
  destruct (out_ w); reflexivity.
Qed.

Lemma advanced_starts (c : WriterCall) (cells : list Cell)
      (w w' : CorxFileWriter) :
  advanced c cells w w' ->
  starts w' = (starts w + if is_start c then 1 else 0)%nat /\
  stops w' = (stops w + if is_stop c then 1 else 0)%nat.
Proof.
  intros (Hc & _ & _). unfold starts, stops. rewrite Hc.
  rewrite !filter_app, !length_app. simpl.
  destruct (is_start c), (is_stop c); simpl; split; reflexivity.
Qed.

End WriterLemmas.

(** ** The cycle protocol *)

Section Protocol.

Lemma protocol_ok_view (d d' : ArrayDetector) :
  protocol_view d' = protocol_view d -> protocol_ok d -> protocol_ok d'.
Proof.
  unfold protocol_view, protocol_ok, cycle_matches_calls, preamble_written,
    slice_size_set.
  intros E. injection E as Ec Ew Es El _.
  rewrite Ec, Ew, Es, El. tauto.
Qed.

Lemma cycle_open_view (d d' : ArrayDetector) :
  protocol_view d' = protocol_view d -> cycle_open d -> cycle_open d'.
Proof.
  unfold protocol_view, cycle_open, preamble_written, slice_size_set.
  intros E. injection E as Ec Ew Es El _.
  rewrite Ec, Ew, Es, El. tauto.
Qed.

(** A call keeps the header at the front of the file and the slice
    size in the writer. *)
Lemma advanced_file (c : WriterCall) (cells : list Cell)
      (d d' : ArrayDetector) :
  advanced c cells (writer_ d) (writer_ d') ->
  slice_window d' = slice_window d ->
  preamble_written d /\ slice_size_set d ->
  preamble_written d' /\ slice_size_set d'.
Proof.
  intros Ha Es [Hp Hs].
  pose proof (advanced_is_void _ _ _ _ Ha) as Hv.
  destruct Ha as (_ & Hss & Ho).
  unfold slice_window in Es. injection Es as Es El.
  unfold preamble_written, slice_size_set in *.
  rewrite Hv, Hss, Ho, Es, El. split; [|exact Hs].
  destruct (out_ (writer_ d)) as [f|]; simpl; [|exact I].
  destruct Hp as [rest ->]. exists (rest ++ cells).
  rewrite <- !app_assoc. reflexivity.
Qed.

Lemma open_by_start (cells : list Cell) (d d' : ArrayDetector) :
  protocol_ok d -> cycle_ d = -1 -> cycle_ d' = 0 ->
  advanced call_cycle_start cells (writer_ d) (writer_ d') ->
  slice_window d' = slice_window d ->
  cycle_open d'.
Proof.
  intros (Hc & Hf) Hm1 H0 Ha Es.
  split; [|apply (advanced_file _ _ _ _ Ha Es Hf)].
  destruct (advanced_starts _ _ _ _ Ha) as [Hst Hsp]. simpl in Hst, Hsp.
  destruct Hc as [[_ Hc] | [Hc _]]; [|lia].
  rewrite H0, Hst, Hsp, Hc. split; lia.
Qed.

Lemma block_in_cycle (p : Z) (cells : list Cell) (d d' : ArrayDetector) :
  cycle_open d -> cycle_ d' = cycle_ d + 1 ->
  advanced (call_cycle_block p) cells (writer_ d) (writer_ d') ->
  slice_window d' = slice_window d ->
  cycle_open d'.
Proof.
  intros ([Hc Hn] & Hf) H1 Ha Es.
  split; [|apply (advanced_file _ _ _ _ Ha Es Hf)].
  destruct (advanced_starts _ _ _ _ Ha) as [Hst Hsp]. simpl in Hst, Hsp.
  rewrite H1, Hst, Hsp, Hn. split; lia.
Qed.

Lemma close_by_stop (cells : list Cell) (d d' : ArrayDetector) :
  cycle_open d -> cycle_ d' = -1 ->
  advanced call_cycle_stop cells (writer_ d) (writer_ d') ->
  slice_window d' = slice_window d ->
  protocol_ok d'.
Proof.
  intros ([Hc Hn] & Hf) H1 Ha Es.
  split; [|apply (advanced_file _ _ _ _ Ha Es Hf)].
  destruct (advanced_starts _ _ _ _ Ha) as [Hst Hsp]. simpl in Hst, Hsp.
  left. rewrite Hst, Hsp, Hn. split; [exact H1 | lia].
Qed.

(** The stop written when the reader fails inside a cycle: the calls
    are balanced, whatever [cycle_] still says. *)
Lemma stop_on_exit (cells : list Cell) (d d' : ArrayDetector) :
  cycle_open d ->
  advanced call_cycle_stop cells (writer_ d) (writer_ d') ->
  slice_window d' = slice_window d ->
  starts (writer_ d') = stops (writer_ d') /\ preamble_written d'.
Proof.
  intros ([Hc Hn] & Hf) Ha Es.
  split; [|apply (advanced_file _ _ _ _ Ha Es Hf)].
  destruct (advanced_starts _ _ _ _ Ha) as [Hst Hsp]. simpl in Hst, Hsp.
  rewrite Hst, Hsp, Hn. lia.
Qed.

Lemma protocol_ok_cases (d : ArrayDetector) :
  protocol_ok d ->
  (cycle_ d = -1 /\ starts (writer_ d) = stops (writer_ d))
  \/ cycle_open d.
Proof.
  intros ([H|H] & Hf); [left; exact H | right; split; assumption].
Qed.

Lemma cycle_open_protocol_ok (d : ArrayDetector) :
  cycle_open d -> protocol_ok d.
Proof. intros (H & Hf). split; [right; exact H | exact Hf]. Qed.

Lemma extract_loop_open (fuel : nat) :
  forall d d',
    cycle_open d -> extract_loop fuel d = Ok d' ->
    cycle_open d' /\ num_cycles_ d' = num_cycles_ d.
Proof.
  induction fuel as [|fuel IH]; intros d d' Hopen; simpl.
  - intros H. injection H as <-. split; [exact Hopen | reflexivity].
  - destruct (cycle_ d <? num_cycles_ d);
      [|intros H; injection H as <-; split; [exact Hopen | reflexivity]].
    destruct (block_len (args_ d) <? _);
      [intros H; injection H as <-; split; [exact Hopen | reflexivity]|].
    destruct (negb (fft_shift_in_bounds _ _)); [discriminate|].
    destruct (Qlt_bool (1#5) _).
    all: match goal with
         | |- context [Writer.write_cycle_block ?p ?data ?len ?w] =>
           destruct (Writer.write_cycle_block p data len w) as [w'|] eqn:Ew;
             [apply write_cycle_block_advanced in Ew | discriminate]
         end.
    all: intros H; apply IH in H;
      [ destruct H as [H1 H2]; split; [exact H1 | rewrite H2; reflexivity]
      | eapply block_in_cycle;
        [exact Hopen | reflexivity | exact Ew | reflexivity] ].
Qed.

Lemma extract_corr_blocks_protocol (d d' : ArrayDetector) :
  cycle_open d -> extract_corr_blocks d = Ok d' -> protocol_ok d'.
Proof.
  intros Hopen. unfold extract_corr_blocks.
  destruct (extract_loop _ d) as [d1|f] eqn:E; [|discriminate].
  apply (extract_loop_open _ _ _ Hopen) in E. destruct E as [H1 _].
  destruct (num_cycles_ d1 <=? cycle_ d1); intros H; injection H as <-.
  - eapply close_by_stop; [exact H1 | reflexivity | | reflexivity].
    apply write_cycle_stop_advanced.
  - apply cycle_open_protocol_ok. exact H1.
Qed.

Lemma switch_preamp_off_protocol (d : ArrayDetector) :
  protocol_ok d -> protocol_ok (switch_preamp_off d).
Proof.
  intros Hok. unfold switch_preamp_off.
  destruct (_ && _); [|exact Hok].
  cbv zeta.
  match goal with
  | |- protocol_ok (set_blocks_skip_ _ (set_bias_tee false ?x)) =>
    set (d1 := x)
  end.
  apply protocol_ok_view with (d := d1).
  - transitivity (protocol_view (set_bias_tee false d1));
      [reflexivity | apply view_set_bias_tee].
  - subst d1.
    destruct (Z.leb_spec 0 (cycle_ d)) as [Hc|Hc]; [|exact Hok].
    destruct (protocol_ok_cases _ Hok) as [[Hm _]|Hopen]; [lia|].
    eapply close_by_stop; [exact Hopen | reflexivity | | reflexivity].
    apply write_cycle_stop_advanced.
Qed.

Lemma capture_noise_protocol (blk : Block) (d d' : ArrayDetector) (b : bool) :
  protocol_ok d -> capture_noise blk d = Ok (d', b) ->
  b = true /\ protocol_ok d'.
Proof.
  intros Hok. unfold capture_noise.
  match goal with
  | |- context [extract_corr_blocks ?x] =>
    destruct (extract_corr_blocks x) as [d1|f] eqn:E; [|discriminate];
      assert (Hopen : cycle_open x)
  end.
  { destruct (Z.eqb_spec (cycle_ (shift_block blk d)) (-1)) as [Hc|Hc].
    - eapply open_by_start;
        [exact Hok | exact Hc | reflexivity | | reflexivity].
      apply write_cycle_start_advanced.
    - destruct (protocol_ok_cases _ Hok) as [[Hm _]|Hopen];
        [contradiction | exact Hopen]. }
  intros H. injection H as <- <-. split; [reflexivity|].
  apply (extract_corr_blocks_protocol _ _ Hopen E).
Qed.

End Protocol.

Section ProtocolSteps.

Lemma view_equal_cycle (d d' : ArrayDetector) :
  protocol_view d' = protocol_view d -> cycle_ d' = cycle_ d.
Proof. intros E. injection E as Ec _ _ _ _. exact Ec. Qed.

(** The state in which [capture] looks for a beacon. *)
Lemma capture_tracking_view (blk : Block) (d : ArrayDetector) (a b c : Q) :
  protocol_view
    (set_avg_dc_ampl_ c
       (set_avg_dc_angle_ b
          (set_sample_phase_ a (recover_carrier blk d))))
  = protocol_view d.
Proof. rewrite <- (view_recover_carrier blk d). reflexivity. Qed.

(** From a closed cycle, the beacon search leaves the cycle closed or
    opens it. *)
Lemma beacon_search_protocol (blk : Block) (d : ArrayDetector) :
  protocol_ok d -> cycle_ d = -1 ->
  let (corr, d1) := find_beacon d in
  protocol_ok
    (if detected corr then
       let d2 := set_clock_error_ (estimate_clock_error d1) d1 in
       let d2 := set_cycle_ 0 d2 in
       let d2 := set_num_phase_errors_ 0 d2 in
       let d2 := if beacon_ d2 =? 0 then schedule_capture d2 else d2 in
       set_writer_
         (Writer.write_cycle_start (beacon_header blk corr d2) (writer_ d2))
         d2
     else d1).
Proof.
  intros Hok Hc.
  pose proof (view_find_beacon d) as Hv.
  destruct (find_beacon d) as [corr d1]. simpl in Hv.
  pose proof (protocol_ok_view _ _ Hv Hok) as Hok1.
  destruct (detected corr); [|exact Hok1].
  apply cycle_open_protocol_ok. cbv zeta.
  eapply open_by_start with (d := d1).
  - exact Hok1.
  - rewrite (view_equal_cycle _ _ Hv). exact Hc.
  - split_ifs; reflexivity.
  - split_ifs; apply write_cycle_start_advanced.
  - split_ifs; reflexivity.
Qed.

Lemma capture_protocol (blk : Block) (d d' : ArrayDetector) (b : bool) :
  protocol_ok d -> capture blk d = Ok (d', b) ->
  b = true /\ protocol_ok d'.
Proof.
  intros Hok. unfold capture. cbv zeta.
  match goal with
  | |- context [negb (detected_carrier_ ?x)] => set (d4 := x)
  end.
  assert (Hok4 : protocol_ok d4).
  { apply protocol_ok_view with (d := d); [|exact Hok].
    apply capture_tracking_view. }
  clearbody d4. clear d Hok.
  destruct (negb (detected_carrier_ d4)).
  { intros H. injection H as <- <-. split; [reflexivity | exact Hok4]. }
  match goal with
  | |- context [0 <=? cycle_ ?x] => set (d5 := x)
  end.
  assert (Hok5 : protocol_ok d5).
  { subst d5. destruct (Z.eqb_spec (cycle_ d4) (-1)) as [Hc|Hc];
      [|exact Hok4].
    destruct (Qlt_bool _ _); [|exact Hok4]. simpl andb. cbv iota.
    pose proof (beacon_search_protocol blk d4 Hok4 Hc) as Hb.
    destruct (find_beacon d4) as [corr d1]. exact Hb. }
  clearbody d5.
  destruct (Z.leb_spec 0 (cycle_ d5)) as [Hc|Hc].
  - destruct (extract_corr_blocks d5) as [d6|f] eqn:E; [|discriminate].
    intros H. injection H as <- <-. split; [reflexivity|].
    destruct (protocol_ok_cases _ Hok5) as [[Hm _]|Hopen]; [lia|].
    apply (extract_corr_blocks_protocol _ _ Hopen E).
  - intros H. injection H as <- <-. split; [reflexivity | exact Hok5].
Qed.

(** One call of [next]: the protocol holds again when it returns
    [true], and the calls are balanced when it returns [false]. *)
Lemma read_and_process_protocol (inc : option Block)
      (d d' : ArrayDetector) (b : bool) :
  protocol_ok d -> read_and_process inc d = Ok (d', b) ->
  preamble_written d' /\
  if b then protocol_ok d'
  else starts (writer_ d') = stops (writer_ d').
Proof.
  intros Hok. unfold read_and_process.
  destruct (Source.next inc (carrier_det_ d)) as [blk|].
  - cbv zeta.
    destruct (negb (blocks_skip_ _ =? 0)).
    { intros H. injection H as <- <-.
      split; [apply Hok | exact Hok]. }
    destruct (_ && _); intros H.
    + apply capture_noise_protocol in H; [|exact Hok].
      destruct H as [-> H]. split; [apply H | exact H].
    + apply capture_protocol in H; [|exact Hok].
      destruct H as [-> H]. split; [apply H | exact H].
  - intros H. injection H as <- <-.
    destruct (Z.leb_spec 0 (cycle_ d)) as [Hc|Hc].
    + destruct (protocol_ok_cases _ Hok) as [[Hm _]|Hopen]; [lia|].
      pose proof (stop_on_exit _ d
                    (set_writer_ (Writer.write_cycle_stop (writer_ d)) d)
                    Hopen (write_cycle_stop_advanced _) eq_refl) as [H1 H2].
      split; assumption.
    + destruct Hok as ([[_ H]|[H _]] & Hp & _); [|lia].
      split; assumption.
Qed.

Lemma next_protocol (inc : option Block) (d d' : ArrayDetector) (b : bool) :
  protocol_ok d -> next inc d = Ok (d', b) ->
  preamble_written d' /\
  if b then protocol_ok d'
  else starts (writer_ d') = stops (writer_ d').
Proof.
  intros Hok. unfold next. cbv zeta.
  apply read_and_process_protocol.
  apply protocol_ok_view with (d := switch_preamp_off d).
  - apply view_stop_at_last_block.
  - apply switch_preamp_off_protocol. exact Hok.
Qed.

Lemma cancel_protocol (d : ArrayDetector) :
  protocol_ok d -> protocol_ok (cancel d).
Proof. intros H. exact H. Qed.

Lemma main_loop_protocol (ticks : list Tick) :
  forall d, protocol_ok d ->
    match main_loop ticks d with
    | Running d' => protocol_ok d'
    | Exited d' =>
      starts (writer_ d') = stops (writer_ d') /\ preamble_written d'
    | Crashed _ => True
    end.
Proof.
  induction ticks as [|t ticks IH]; intros d Hok; simpl; [exact Hok|].
  assert (Hok' : protocol_ok (if interrupt t then cancel d else d))
    by (destruct (interrupt t); exact Hok).
  destruct (next _ _) as [[d' b]|f] eqn:E; [|exact I].
  apply (next_protocol _ _ _ _ Hok') in E. destruct E as [Hp E].
  destruct b; [apply IH; exact E | split; assumption].
Qed.

Lemma start_protocol (args : fargs_t) (corr_size : Z)
      (output : bool) (u : Indeterminate) :
  protocol_ok
    (start (ArrayDetector_new args corr_size (CFile_open output) u)).
Proof.
  unfold start, set_bias_tee. cbv zeta.
  destruct (negb _); destruct output;
    (split; [left; split; reflexivity
            |split; [simpl; try exact I; eexists; reflexivity
                    |intros H; try discriminate H; reflexivity]]).
Qed.

End ProtocolSteps.

(** ** Balance of cycle starts and stops *)

Section Exits.

Lemma capture_noise_returns_true (blk : Block) (d d' : ArrayDetector)
      (b : bool) :
  capture_noise blk d = Ok (d', b) -> b = true.
Proof.
  unfold capture_noise. destruct (extract_corr_blocks _); [|discriminate].
  intros H. injection H as _ <-. reflexivity.
Qed.

Lemma capture_returns_true (blk : Block) (d d' : ArrayDetector) (b : bool) :
  capture blk d = Ok (d', b) -> b = true.
Proof.
  unfold capture. cbv zeta.
  destruct (negb (detected_carrier_ _)).
  { intros H. injection H as _ <-. reflexivity. }
  destruct (0 <=? cycle_ _).
  - destruct (extract_corr_blocks _); [|discriminate].
    intros H. injection H as _ <-. reflexivity.
  - intros H. injection H as _ <-. reflexivity.
Qed.

(** [next] returns [false] only when the read fails, and then it has
    written a stop if a cycle was open when it was called. *)
Lemma next_false_stops (inc : option Block) (d d' : ArrayDetector) :
  next inc d = Ok (d', false) ->
  calls_ (writer_ d')
  = calls_ (writer_ d)
    ++ (if 0 <=? cycle_ d then [call_cycle_stop] else []).
Proof.
  unfold next, read_and_process. cbv zeta.
  set (d1 := switch_preamp_off d).
  assert (H1 : (cycle_ d1 = -1 /\
                calls_ (writer_ d1)
                = calls_ (writer_ d)
                  ++ (if 0 <=? cycle_ d then [call_cycle_stop] else []))
               \/ (cycle_ d1 = cycle_ d /\ writer_ d1 = writer_ d)).
  { subst d1. unfold switch_preamp_off, set_bias_tee.
    destruct (_ && _); [|right; split; reflexivity].
    cbv zeta.
    destruct (Z.leb_spec 0 (cycle_ d)) as [Hc|Hc].
    - left. destruct (negb _); split; try reflexivity;
        apply write_cycle_stop_advanced.
    - right. destruct (negb _); split; reflexivity. }
  clearbody d1.
  set (d2 := stop_at_last_block d1).
  assert (H2 : cycle_ d2 = cycle_ d1 /\ writer_ d2 = writer_ d1).
  { pose proof (view_stop_at_last_block d1) as E.
    injection E as Ec Ew _ _ _. split; assumption. }
  clearbody d2. destruct H2 as [H2c H2w].
  destruct (Source.next inc (carrier_det_ d2)) as [blk|].
  - destruct (negb _); [discriminate|].
    destruct (_ && _); intros H.
    + apply capture_noise_returns_true in H. discriminate.
    + apply capture_returns_true in H. discriminate.
  - intros H. injection H as <-.
    rewrite H2c. destruct H1 as [[H1c H1w] | [H1c H1w]].
    + rewrite H1c. simpl. rewrite H2w. exact H1w.
    + rewrite H1c. destruct (0 <=? cycle_ d); simpl.
      * rewrite H2w, H1w. apply write_cycle_stop_advanced.
      * rewrite H2w, H1w, app_nil_r. reflexivity.
Qed.

(** A failed read ends the run, without a fault. *)
Lemma read_failure_exits (d : ArrayDetector) :
  exists d', next None d = Ok (d', false).
Proof.
  unfold next, read_and_process, Source.next. cbv zeta.
  destruct (cancelled _); eexists; reflexivity.
Qed.

(** So does any read after [cancel]. *)
Lemma cancel_exits (inc : option Block) (d : ArrayDetector) :
  cancelled (carrier_det_ d) = true ->
  exists d', next inc d = Ok (d', false).
Proof.
  intros Hc. unfold next, read_and_process, Source.next. cbv zeta.
  assert (H : cancelled
                (carrier_det_ (stop_at_last_block (switch_preamp_off d)))
              = true).
  { unfold stop_at_last_block, switch_preamp_off, set_bias_tee.
    split_ifs; simpl; try reflexivity; exact Hc. }
  rewrite H. eexists; reflexivity.
Qed.

End Exits.

(** C1, as amended: in a run of the main loop the calls of
    [write_cycle_stop] equal those of [write_cycle_start] when [next]
    returns [false], whether the reader ran out, the scheduled stop was
    reached or a signal cancelled the run; while the loop runs, that is
    after every [next] that returned [true], [cycle_] is [-1] exactly
    when no start waits for its stop; a [next] that returns [false] has
    written a stop exactly when a cycle was open; and a failed read
    always makes [next] return [false]. *)
Theorem cycle_stops_match_starts :
  (forall args output u ticks,
      match run args output u ticks with
      | Running d => cycle_matches_calls d
      | Exited d => starts (writer_ d) = stops (writer_ d)
      | Crashed _ => True
      end) /\
  (forall inc d,
      match next inc d with
      | Ok (d', false) =>
        calls_ (writer_ d')
        = calls_ (writer_ d)
          ++ (if 0 <=? cycle_ d then [call_cycle_stop] else [])
      | _ => True
      end) /\
  (forall d, exists d', next None d = Ok (d', false)) /\
  (forall inc d, exists d', next inc (cancel d) = Ok (d', false)).
Proof.
  split; [|split; [|split]].
  - intros args output u ticks. unfold run.
    pose proof (main_loop_protocol ticks _ (start_protocol args 1024 output u))
      as H.
    destruct (main_loop _ _); [apply H | apply H | exact I].
  - intros inc d. destruct (next inc d) as [[d' [|]]|f] eqn:E; try exact I.
    apply (next_false_stops _ _ _ E).
  - apply read_failure_exits.
  - intros inc d. apply cancel_exits. reflexivity.
Qed.

(** C1, counterexample: the input ends while a cycle is open.  The last
    [next] writes the stop, so that the stops equal the starts, but it
    leaves [cycle_] at 0, unlike the two other places that close a
    cycle: after the exit no start waits for its stop and [cycle_] is
    not [-1]. *)
Lemma exit_leaves_cycle_index :
  match run Scenario.args true Scenario.unset Scenario.cut_in_cycle with
  | Exited d =>
    cycle_ d = 0 /\
    starts (writer_ d) = 1%nat /\ stops (writer_ d) = 1%nat /\
    ~ cycle_matches_calls d
  | _ => False
  end.
Proof.
  vm_compute. repeat split.
  intros [[H _]|[_ H]]; discriminate H.
Qed.

(** ** The phase byte *)

Section Phases.

Lemma phase_errors_app (cs cs' : list WriterCall) :
  phase_errors (cs ++ cs') = phase_errors cs ++ phase_errors cs'.
Proof. apply flat_map_app. Qed.

(** A call keeps the recorded phase errors in range, provided its own
    is. *)
Lemma advanced_phases (c : WriterCall) (cells : list Cell)
      (d d' : ArrayDetector) :
  advanced c cells (writer_ d) (writer_ d') ->
  synced_signal_ d' = synced_signal_ d ->
  match c with
  | call_cycle_block p => -127 <= p <= 127
  | _ => True
  end ->
  phases_in_range d -> phases_in_range d'.
Proof.
  intros (Hc & _ & _) Hs Hp [Hf Ht]. unfold phases_in_range.
  rewrite Hc, Hs, phase_errors_app. split; [|exact Ht].
  apply Forall_app. split; [exact Hf|].
  destruct c; simpl; constructor; [exact Hp | constructor].
Qed.

Lemma phases_in_range_view (d d' : ArrayDetector) :
  writer_ d' = writer_ d -> synced_signal_ d' = synced_signal_ d ->
  phases_in_range d -> phases_in_range d'.
Proof. unfold phases_in_range. intros -> ->. tauto. Qed.

Lemma phases_shift_block (blk : Block) (d : ArrayDetector) :
  block_in_turns blk -> phases_in_range d ->
  phases_in_range (shift_block blk d).
Proof. intros Hb [Hf _]. split; [exact Hf | apply Hb]. Qed.

Lemma phases_recover_carrier (blk : Block) (d : ArrayDetector) :
  block_in_turns blk -> phases_in_range d ->
  phases_in_range (recover_carrier blk d).
Proof.
  intros Hb [Hf Ht].
  unfold recover_carrier, track_carrier, acquire_carrier.
  split_ifs; (split; [exact Hf | first [exact Ht | apply Hb]]).
Qed.

Lemma phases_find_beacon (d : ArrayDetector) :
  phases_in_range d -> phases_in_range (snd (find_beacon d)).
Proof.
  intros H. unfold find_beacon. split_ifs; exact H.
Qed.

(** Inside a cycle the loop writes phase errors in range, and neither
    assertion of the writer fails. *)
Lemma extract_loop_phases (fuel : nat) :
  forall d,
    cycle_open d -> phases_in_range d ->
    match extract_loop fuel d with
    | Ok d' => phases_in_range d'
    | Stop f => f = buffer_overrun
    end.
Proof.
  induction fuel as [|fuel IH]; intros d Hopen Hph; simpl; [exact Hph|].
  destruct (cycle_ d <? num_cycles_ d); [|exact Hph].
  destruct (block_len (args_ d) <? _); [exact Hph|].
  destruct (negb (fft_shift_in_bounds _ _)); [reflexivity|].
  match goal with
  | |- context [to_int8 (corr_error ?b / _ * _)] =>
    assert (Hq : -127 <= to_int8 (corr_error b / (1#2) * 127) <= 127)
      by (apply quantise_range; apply Hph)
  end.
  destruct (Qlt_bool (1#5) _).
  all: match goal with
       | |- context [Writer.write_cycle_block ?p ?data ?len ?w] =>
         destruct (Writer.write_cycle_block p data len w) as [w'|] eqn:Ew
       end.
  all: try (exfalso; apply write_cycle_block_asserts in Ew;
            destruct Ew as [Hv [Hl | Hp]];
            [ apply Hl; symmetry; apply Hopen; exact Hv | lia ]).
  all: pose proof (write_cycle_block_advanced _ _ _ _ _ Ew) as Ha;
    apply IH;
    [ eapply block_in_cycle;
      [exact Hopen | reflexivity | exact Ha | reflexivity]
    | eapply advanced_phases;
      [ | | | exact Hph]; [exact Ha | reflexivity | exact Hq] ].
Qed.

Lemma extract_corr_blocks_phases (d : ArrayDetector) :
  cycle_open d -> phases_in_range d ->
  match extract_corr_blocks d with
  | Ok d' => phases_in_range d'
  | Stop f => f = buffer_overrun
  end.
Proof.
  intros Hopen Hph. unfold extract_corr_blocks.
  pose proof (extract_loop_phases (Z.to_nat (num_cycles_ d - cycle_ d))
                                  d Hopen Hph) as H.
  destruct (extract_loop _ d) as [d1|f]; [|exact H].
  destruct (num_cycles_ d1 <=? cycle_ d1); [|exact H].
  eapply advanced_phases; [ | | | exact H].
  - apply write_cycle_stop_advanced.
  - reflexivity.
  - exact I.
Qed.

Lemma switch_preamp_off_phases (d : ArrayDetector) :
  phases_in_range d -> phases_in_range (switch_preamp_off d).
Proof.
  intros Hph. unfold switch_preamp_off, set_bias_tee. cbv zeta.
  destruct (_ && _); [|exact Hph].
  destruct (0 <=? cycle_ d); destruct (negb _); try exact Hph.
  all: eapply advanced_phases with (d := d);
    [apply write_cycle_stop_advanced | reflexivity | exact I | exact Hph].
Qed.

Lemma capture_noise_phases (blk : Block) (d : ArrayDetector) :
  block_in_turns blk -> protocol_ok d -> phases_in_range d ->
  match capture_noise blk d with
  | Ok (d', _) => phases_in_range d'
  | Stop f => f = buffer_overrun
  end.
Proof.
  intros Hb Hok Hph. unfold capture_noise.
  match goal with
  | |- context [extract_corr_blocks ?x] =>
    assert (Hx : cycle_open x /\ phases_in_range x);
      [|pose proof (extract_corr_blocks_phases x (proj1 Hx) (proj2 Hx)) as H;
        destruct (extract_corr_blocks x); exact H]
  end.
  pose proof (phases_shift_block blk d Hb Hph) as Hph1.
  destruct (Z.eqb_spec (cycle_ (shift_block blk d)) (-1)) as [Hc|Hc].
  - split.
    + eapply open_by_start;
        [exact Hok | exact Hc | reflexivity | | reflexivity].
      apply write_cycle_start_advanced.
    + eapply advanced_phases with (d := shift_block blk d);
        [apply write_cycle_start_advanced | reflexivity | exact I
         | exact Hph1].
  - split; [|exact Hph1].
    destruct (protocol_ok_cases _ Hok) as [[Hm _]|Hopen];
      [contradiction | exact Hopen].
Qed.

Lemma beacon_search_phases (blk : Block) (d : ArrayDetector) :
  phases_in_range d ->
  let (corr, d1) := find_beacon d in
  phases_in_range
    (if detected corr then
       let d2 := set_clock_error_ (estimate_clock_error d1) d1 in
       let d2 := set_cycle_ 0 d2 in
       let d2 := set_num_phase_errors_ 0 d2 in
       let d2 := if beacon_ d2 =? 0 then schedule_capture d2 else d2 in
       set_writer_
         (Writer.write_cycle_start (beacon_header blk corr d2) (writer_ d2))
         d2
     else d1).
Proof.
  intros Hph. pose proof (phases_find_beacon d Hph) as H1.
  destruct (find_beacon d) as [corr d1]. simpl in H1.
  destruct (detected corr); [|exact H1]. cbv zeta.
  eapply advanced_phases with (d := d1) (c := call_cycle_start);
    [ | | exact I | exact H1].
  - split_ifs; apply write_cycle_start_advanced.
  - split_ifs; reflexivity.
Qed.

Lemma capture_phases (blk : Block) (d : ArrayDetector) :
  block_in_turns blk -> protocol_ok d -> phases_in_range d ->
  match capture blk d with
  | Ok (d', _) => phases_in_range d'
  | Stop f => f = buffer_overrun
  end.
Proof.
  intros Hb Hok Hph. unfold capture. cbv zeta.
  match goal with
  | |- context [negb (detected_carrier_ ?x)] => set (d4 := x)
  end.
  assert (H4 : protocol_ok d4 /\ phases_in_range d4).
  { split.
    - apply protocol_ok_view with (d := d); [|exact Hok].
      apply capture_tracking_view.
    - apply (phases_recover_carrier blk d Hb Hph). }
  clearbody d4. clear d Hok Hph. destruct H4 as [Hok4 Hph4].
  destruct (negb (detected_carrier_ d4)); [exact Hph4|].
  match goal with
  | |- context [0 <=? cycle_ ?x] => set (d5 := x)
  end.
  assert (H5 : protocol_ok d5 /\ phases_in_range d5).
  { subst d5. destruct (Z.eqb_spec (cycle_ d4) (-1)) as [Hc|Hc];
      [|split; assumption].
    destruct (Qlt_bool _ _); [|split; assumption]. simpl andb. cbv iota.
    pose proof (beacon_search_protocol blk d4 Hok4 Hc) as Hb1.
    pose proof (beacon_search_phases blk d4 Hph4) as Hb2.
    destruct (find_beacon d4) as [corr d1]. split; assumption. }
  clearbody d5. destruct H5 as [Hok5 Hph5].
  destruct (Z.leb_spec 0 (cycle_ d5)) as [Hc|Hc]; [|exact Hph5].
  destruct (protocol_ok_cases _ Hok5) as [[Hm _]|Hopen]; [lia|].
  pose proof (extract_corr_blocks_phases d5 Hopen Hph5) as H.
  destruct (extract_corr_blocks d5); exact H.
Qed.

Lemma next_phases (inc : option Block) (d : ArrayDetector) :
  match inc with Some blk => block_in_turns blk | None => True end ->
  protocol_ok d -> phases_in_range d ->
  match next inc d with
  | Ok (d', _) => phases_in_range d'
  | Stop f => f = buffer_overrun
  end.
Proof.
  intros Hb Hok Hph. unfold next. cbv zeta.
  set (d2 := stop_at_last_block (switch_preamp_off d)).
  assert (H2 : protocol_ok d2 /\ phases_in_range d2).
  { split.
    - apply protocol_ok_view with (d := switch_preamp_off d);
        [apply view_stop_at_last_block
        |apply switch_preamp_off_protocol; exact Hok].
    - apply phases_in_range_view with (d := switch_preamp_off d);
        [ | |apply switch_preamp_off_phases; exact Hph];
        subst d2; unfold stop_at_last_block; split_ifs; reflexivity. }
  clearbody d2. clear d Hok Hph. destruct H2 as [Hok Hph].
  unfold read_and_process, Source.next.
  destruct (cancelled (carrier_det_ d2)); [|destruct inc as [blk|]].
  - destruct (0 <=? cycle_ d2); [|exact Hph].
    eapply advanced_phases with (d := d2);
      [apply write_cycle_stop_advanced | reflexivity | exact I | exact Hph].
  - cbv zeta. destruct (negb _); [exact Hph|].
    destruct (_ && _).
    + apply capture_noise_phases; assumption.
    + apply capture_phases; assumption.
  - destruct (0 <=? cycle_ d2); [|exact Hph].
    eapply advanced_phases with (d := d2);
      [apply write_cycle_stop_advanced | reflexivity | exact I | exact Hph].
Qed.

Lemma main_loop_phases (ticks : list Tick) :
  forall d,
    Forall tick_in_turns ticks ->
    protocol_ok d -> phases_in_range d ->
    match main_loop ticks d with
    | Running d' | Exited d' => phases_in_range d'
    | Crashed f => f = buffer_overrun
    end.
Proof.
  induction ticks as [|t ticks IH]; intros d Ht Hok Hph; simpl;
    [exact Hph|].
  inversion Ht as [|? ? Ht1 Ht2]; subst.
  set (d0 := if interrupt t then cancel d else d).
  assert (H0 : protocol_ok d0 /\ phases_in_range d0)
    by (subst d0; destruct (interrupt t); split; assumption).
  clearbody d0. destruct H0 as [Hok0 Hph0].
  pose proof (next_phases (incoming t) d0 Ht1 Hok0 Hph0) as Hn.
  destruct (next (incoming t) d0) as [[d' b]|f] eqn:E; [|exact Hn].
  apply (next_protocol _ _ _ _ Hok0) in E. destruct E as [_ E].
  destruct b; [apply IH; assumption | exact Hn].
Qed.

Lemma start_phases (args : fargs_t) (corr_size : Z) (output : bool)
      (u : Indeterminate) :
  phase_in_turns (any_synced_signal u) ->
  phases_in_range
    (start (ArrayDetector_new args corr_size (CFile_open output) u)).
Proof.
  intros Hu. unfold start, set_bias_tee. cbv zeta.
  destruct (negb _); destruct output; (split; [|exact Hu]);
    simpl; constructor.
Qed.

End Phases.

(** C4: when the phases that the FFT reports are [arg]s in turns, so at
    most half a turn in size, every [phase_error] passed to
    [write_cycle_block] in a run lies in [-127, 127] and no assertion of
    the writer fails; the quantiser maps half a turn or less into
    [-127, 127]; and the byte that [write_cycle_block] puts in front of
    the samples differs from the 0x80 that [write_cycle_stop] writes. *)
Theorem phase_error_never_sentinel
        (args : fargs_t) (output : bool) (u : Indeterminate)
        (ticks : list Tick) :
  phase_in_turns (any_synced_signal u) ->
  Forall tick_in_turns ticks ->
  match run args output u ticks with
  | Running d | Exited d =>
    Forall (fun p => -127 <= p <= 127) (phase_errors (calls_ (writer_ d)))
  | Crashed f => f <> assertion_failed
  end /\
  (forall error : Q,
      (- (1#2) <= error <= 1#2)%Q ->
      -127 <= to_int8 (error / (1#2) * 127) <= 127) /\
  (forall w, advanced call_cycle_stop [CByte 128] w
                      (Writer.write_cycle_stop w)) /\
  (forall p data len w w',
      -127 <= p <= 127 ->
      Writer.write_cycle_block p data len w = Some w' ->
      advanced (call_cycle_block p)
               (CByte (p mod 256) :: complex_bytes data len) w w'
      /\ p mod 256 <> 128).
Proof.
  intros Hu Ht. split; [|split; [|split]].
  - unfold run.
    pose proof (main_loop_phases ticks _ Ht
                  (start_protocol args 1024 output u)
                  (start_phases args 1024 output u Hu)) as H.
    destruct (main_loop _ _); [apply H | apply H | ].
    rewrite H. discriminate.
  - apply quantise_range.
  - apply write_cycle_stop_advanced.
  - intros p data len w w' Hp Hw. split.
    + apply (write_cycle_block_advanced _ _ _ _ _ Hw).
    + intros E.
      assert (Hc : p = 128 + 256 * (p / 256))
        by (rewrite <- E at 1; rewrite Z.add_comm; apply Z.div_mod; lia).
      lia.
Qed.

Lemma phase_error_never_sentinel_witness :
  phase_in_turns (any_synced_signal Scenario.unset) /\
  Forall tick_in_turns (Scenario.missed_pulse ++ [Scenario.end_of_input]) /\
  match run Scenario.args true Scenario.unset
            (Scenario.missed_pulse ++ [Scenario.end_of_input]) with
  | Running d | Exited d =>
    Forall (fun p => -127 <= p <= 127) (phase_errors (calls_ (writer_ d)))
  | Crashed f => f <> assertion_failed
  end.
Proof.
  assert (Hs : forall a b c, phase_in_turns (Scenario.signal a b c)).
  { intros a b c i f p n. simpl. split; discriminate. }
  assert (Hu : phase_in_turns (any_synced_signal Scenario.unset))
    by apply Hs.
  assert (Ht : Forall tick_in_turns
                      (Scenario.missed_pulse ++ [Scenario.end_of_input])).
  { unfold Scenario.missed_pulse. simpl.
    repeat (apply Forall_cons; [intros f p; apply Hs|]).
    apply Forall_cons; [exact I | apply Forall_nil]. }
  split; [exact Hu | split; [exact Ht|]].
  pose proof (phase_error_never_sentinel
                Scenario.args true Scenario.unset
                (Scenario.missed_pulse ++ [Scenario.end_of_input])
                Hu Ht) as H.
  destruct H as [H _]. exact H.
Defined.

(** ** The file header *)

Section Sink.

Lemma is_void_write_cycle_stop (w : CorxFileWriter) :
  Writer.is_void (Writer.write_cycle_stop w) = Writer.is_void w.
Proof. apply (advanced_is_void _ _ _ _ (write_cycle_stop_advanced w)). Qed.

Lemma is_void_write_cycle_start (h : CorxBeaconHeader) (w : CorxFileWriter) :
  Writer.is_void (Writer.write_cycle_start h w) = Writer.is_void w.
Proof.
  apply (advanced_is_void _ _ _ _ (write_cycle_start_advanced h w)).
Qed.

Lemma sink_of_view (d d' : ArrayDetector) :
  protocol_view d' = protocol_view d -> sink_view d' = sink_view d.
Proof.
  intros E. injection E as _ Ew Es El _. unfold sink_view.
  rewrite Ew, Es, El. reflexivity.
Qed.

Lemma sink_closed (d : ArrayDetector) :
  sink_view (set_writer_ (Writer.write_cycle_stop (writer_ d)) d)
  = sink_view d.
Proof.
  unfold sink_view. simpl. rewrite is_void_write_cycle_stop. reflexivity.
Qed.

Lemma extract_loop_sink (fuel : nat) :
  forall d d', extract_loop fuel d = Ok d' -> sink_view d' = sink_view d.
Proof.
  induction fuel as [|fuel IH]; intros d d'; simpl.
  - intros H. injection H as <-. reflexivity.
  - destruct (cycle_ d <? num_cycles_ d);
      [|intros H; injection H as <-; reflexivity].
    destruct (block_len (args_ d) <? _);
      [intros H; injection H as <-; reflexivity|].
    destruct (negb (fft_shift_in_bounds _ _)); [discriminate|].
    destruct (Qlt_bool (1#5) _).
    all: match goal with
         | |- context [Writer.write_cycle_block ?p ?data ?len ?w] =>
           destruct (Writer.write_cycle_block p data len w) as [w'|] eqn:Ew;
             [apply write_cycle_block_advanced, advanced_is_void in Ew
             |discriminate]
         end.
    all: intros H; apply IH in H; rewrite H; unfold sink_view; simpl;
      rewrite Ew; reflexivity.
Qed.

Lemma extract_corr_blocks_sink (d d' : ArrayDetector) :
  extract_corr_blocks d = Ok d' -> sink_view d' = sink_view d.
Proof.
  unfold extract_corr_blocks.
  destruct (extract_loop _ d) as [d1|] eqn:E; [|discriminate].
  apply extract_loop_sink in E.
  destruct (_ <=? _); intros H; injection H as <-; rewrite <- E;
    [apply (sink_closed (set_cycle_ (-1) d1)) | reflexivity].
Qed.

Lemma switch_preamp_off_sink (d : ArrayDetector) :
  sink_view (switch_preamp_off d) = sink_view d.
Proof.
  unfold switch_preamp_off, set_bias_tee. cbv zeta.
  destruct (_ && _); [|reflexivity].
  destruct (0 <=? cycle_ d); destruct (negb _); try reflexivity.
  all: apply (sink_closed (set_cycle_ (-1) d)).
Qed.

Lemma capture_noise_sink (blk : Block) (d d' : ArrayDetector) (b : bool) :
  capture_noise blk d = Ok (d', b) -> sink_view d' = sink_view d.
Proof.
  unfold capture_noise.
  destruct (extract_corr_blocks _) as [d3|] eqn:E; [|discriminate].
  apply extract_corr_blocks_sink in E.
  intros H. injection H as <- _. rewrite E.
  destruct (_ =? _); [|reflexivity].
  unfold sink_view. simpl. rewrite is_void_write_cycle_start.
  reflexivity.
Qed.

Lemma capture_sink (blk : Block) (d d' : ArrayDetector) (b : bool) :
  capture blk d = Ok (d', b) -> sink_view d' = sink_view d.
Proof.
  unfold capture. cbv zeta.
  match goal with
  | |- context [negb (detected_carrier_ ?x)] => set (d4 := x)
  end.
  assert (H4 : sink_view d4 = sink_view d).
  { apply sink_of_view. apply capture_tracking_view. }
  rewrite <- H4. clearbody d4.
  destruct (negb _).
  { intros H. injection H as <- _. reflexivity. }
  match goal with
  | |- context [0 <=? cycle_ ?x] => set (d5 := x)
  end.
  assert (H5 : sink_view d5 = sink_view d4).
  { subst d5. destruct (_ && _); [|reflexivity].
    pose proof (view_find_beacon d4) as Hv.
    apply sink_of_view in Hv.
    destruct (find_beacon d4) as [corr d1]. simpl in Hv.
    rewrite <- Hv. destruct (detected corr); [|reflexivity].
    cbv zeta. unfold sink_view.
    destruct (_ =? _); simpl; rewrite is_void_write_cycle_start;
      reflexivity. }
  rewrite <- H5. clearbody d5.
  destruct (0 <=? cycle_ d5).
  - destruct (extract_corr_blocks d5) as [d6|] eqn:E; [|discriminate].
    apply extract_corr_blocks_sink in E.
    intros H. injection H as <- _. exact E.
  - intros H. injection H as <- _. reflexivity.
Qed.

Lemma next_sink (inc : option Block) (d d' : ArrayDetector) (b : bool) :
  next inc d = Ok (d', b) -> sink_view d' = sink_view d.
Proof.
  unfold next. cbv zeta.
  set (d2 := stop_at_last_block (switch_preamp_off d)).
  assert (H2 : sink_view d2 = sink_view d).
  { subst d2. transitivity (sink_view (switch_preamp_off d));
      [apply sink_of_view, view_stop_at_last_block
      |apply switch_preamp_off_sink]. }
  rewrite <- H2. clearbody d2. clear d H2.
  unfold read_and_process.
  destruct (Source.next inc (carrier_det_ d2)) as [blk|].
  - cbv zeta. destruct (negb _).
    { intros H. injection H as <- _. reflexivity. }
    destruct (_ && _); intros H.
    + apply capture_noise_sink in H. exact H.
    + apply capture_sink in H. exact H.
  - intros H. injection H as <- _.
    destruct (0 <=? cycle_ d2); [apply sink_closed | reflexivity].
Qed.

Lemma main_loop_sink (ticks : list Tick) :
  forall d,
    match main_loop ticks d with
    | Running d' | Exited d' => sink_view d' = sink_view d
    | Crashed _ => True
    end.
Proof.
  induction ticks as [|t ticks IH]; intros d; simpl; [reflexivity|].
  destruct (next _ _) as [[d' b]|f] eqn:E; [|exact I].
  apply next_sink in E.
  assert (E' : sink_view d' = sink_view d)
    by (rewrite E; destruct (interrupt t); reflexivity).
  destruct b; [|exact E'].
  specialize (IH d'). destruct (main_loop ticks d'); try exact I;
    rewrite IH; exact E'.
Qed.

End Sink.

(** C8, as amended: on a writer with a file, [write_file_header]
    appends the four bytes of "CORX", the version byte 1 and the two
    [uint16_t] of the header, low byte first, nine bytes in all, and
    keeps the slice size; when the output is a file that the program
    opened, these nine bytes are all that [start] writes to it, and
    every trace of a run begins with them. *)
Theorem file_header_layout :
  (forall header f ss cs,
      Writer.write_file_header
        header {| out_ := Some f; slice_size_ := ss; calls_ := cs |}
      = {| out_ := Some (f ++ file_preamble (slice_start_idx header)
                                            (slice_size header));
           slice_size_ := slice_size header;
           calls_ := cs ++ [call_file_header] |}) /\
  (forall args u,
      out_ (writer_ (start (ArrayDetector_new args 1024 (CFile_open true) u)))
      = Some (file_preamble 0 1024)) /\
  (forall args u ticks,
      match run args true u ticks with
      | Running d | Exited d =>
        exists rest, out_ (writer_ d) = Some (file_preamble 0 1024 ++ rest)
      | Crashed _ => True
      end).
Proof.
  split; [|split].
  - intros header f ss cs. unfold Writer.write_file_header. simpl.
    rewrite <- !app_assoc. reflexivity.
  - intros args u. unfold start, set_bias_tee. cbv zeta.
    destruct (negb _); reflexivity.
  - intros args u ticks. unfold run.
    set (d0 := start (ArrayDetector_new args 1024 (CFile_open true) u)).
    pose proof (main_loop_protocol ticks d0 (start_protocol args 1024 true u))
      as Hp.
    pose proof (main_loop_sink ticks d0) as Hw.
    assert (H0 : sink_view d0 = (0, 1024, false))
      by (subst d0; unfold start, set_bias_tee; cbv zeta;
          destruct (negb _); reflexivity).
    assert (Hout : forall d,
               sink_view d = sink_view d0 ->
               preamble_written d ->
               exists rest,
                 out_ (writer_ d) = Some (file_preamble 0 1024 ++ rest)).
    { intros d Hs Hpre. rewrite H0 in Hs.
      unfold sink_view, Writer.is_void in Hs. injection Hs as Hs Hl Hv.
      unfold preamble_written in Hpre. rewrite Hs, Hl in Hpre.
      destruct (out_ (writer_ d)) as [f|]; [|discriminate].
      destruct Hpre as [rest ->]. exists rest. reflexivity. }
    clear H0.
    destruct (main_loop ticks d0) as [d|d|f]; [| |exact I];
      (apply Hout; [exact Hw | apply Hp]).
Qed.

(** On [stdout], [start] leaves the detector as it does on a file, the
    stream apart; with an input other than "rtlsdr" nothing is printed
    and the stream is the same as well. *)
Lemma start_on_stdout_state (d : ArrayDetector) :
  without_output (start_on_stdout d) = without_output (start d) /\
  (String.eqb (input_file (args_ d)) "rtlsdr" = false ->
   start_on_stdout d = start d).
Proof.
  unfold start_on_stdout, start, set_bias_tee_on_stdout, set_bias_tee,
    print_text, without_output.
  cbv zeta. members.
  destruct (String.eqb (input_file (args_ d)) "rtlsdr"); members.
  - split; [|discriminate].
    unfold Writer.write_file_header, Writer.put, Writer.called,
      Writer.is_void, dropped.
    cbv zeta. members. cbn [out_ slice_size_ calls_ option_map].
    destruct (out_ (writer_ d)); reflexivity.
  - split; reflexivity.
Qed.

(** C8, counterexample: the output "-" with the input "rtlsdr".  The
    writer is on [stdout], [start] switches the bias tee on before it
    writes the file header, and the text that [set_bias_tee] prints
    comes first: the stream does not begin with "CORX". *)
Lemma header_follows_log_on_stdout :
  let d := start_on_stdout
             (ArrayDetector_new Scenario.short_args 1024 (Some [])
                                Scenario.unset) in
  Writer.is_void (writer_ d) = false /\
  out_ (writer_ d)
  = Some (text_cells ("Enabled bias tee" ++ newline)
          ++ file_preamble 0 1024) /\
  ~ (exists rest, out_ (writer_ d) = Some (file_preamble 0 1024 ++ rest)).
Proof.
  vm_compute. split; [reflexivity | split; [reflexivity|]].
  intros [rest H]. discriminate H.
Qed.

(** ** The capture scheduler *)

Section Scheduler.

Lemma c_trunc_comp (x y : Q) : (x == y)%Q -> c_trunc x = c_trunc y.
Proof.
  intros E. unfold c_trunc.
  rewrite (Qfloor_comp x y E), (Qceiling_comp x y E).
  assert (Hb : Qle_bool 0 x = Qle_bool 0 y) by (rewrite E; reflexivity).
  rewrite Hb. reflexivity.
Qed.

(** The number of blocks skipped after the preamp is switched off, as
    an integer division. *)
Lemma skip_blocks_value (sr st : Z) :
  0 < st -> 0 <= sr -> sr / (5 * st) < 2 ^ 32 ->
  to_unsigned (PREAMP_OFF_SKIP * inject_Z sr / inject_Z st)
  = sr / (5 * st).
Proof.
  intros Hst Hsr Hr.
  assert (Hq : (inject_Z 0 < inject_Z st)%Q)
    by (rewrite <- Zlt_Qlt; exact Hst).
  change (inject_Z 0) with 0%Q in Hq.
  assert (E : (PREAMP_OFF_SKIP * inject_Z sr / inject_Z st
               == inject_Z sr / inject_Z (5 * st))%Q).
  { rewrite inject_Z_mult. unfold PREAMP_OFF_SKIP.
    change (inject_Z 5) with 5%Q. field. lra. }
  assert (Ht : c_trunc (PREAMP_OFF_SKIP * inject_Z sr / inject_Z st)
               = sr / (5 * st)).
  { rewrite (c_trunc_comp _ _ E). unfold c_trunc.
    rewrite <- Zdiv_Qdiv.
    assert (Hp : Qle_bool 0 (inject_Z sr / inject_Z (5 * st)) = true).
    { apply Qle_bool_iff. apply Qle_shift_div_l.
      - change 0%Q with (inject_Z 0). rewrite <- Zlt_Qlt. lia.
      - rewrite Qmult_0_l. change 0%Q with (inject_Z 0).
        rewrite <- Zle_Qle. exact Hsr. }
    rewrite Hp. reflexivity. }
  assert (H0 : 0 <= sr / (5 * st)) by (apply Z.div_pos; lia).
  unfold to_unsigned. rewrite cvtt_in_range; rewrite Ht.
  - unfold u32. apply Z.mod_small. lia.
  - change (2 ^ (64 - 1)) with 9223372036854775808. lia.
Qed.

End Scheduler.

(** C7: when [next] is called with [block_idx_] equal to a positive
    [preamp_off_block_], an open cycle is closed by [write_cycle_stop]
    and [cycle_] becomes [-1], [set_bias_tee(false)] switches the bias tee
    of the tuner off (a recording has none, and the call does nothing),
    and [blocks_skip_] becomes [0.2 * sdr_sample_rate / (block_len -
    history_len)] truncated to an integer; when it is called with
    [block_idx_] equal to a positive [last_block_], the reader is
    cancelled and [next] returns [false]. *)
Theorem preamp_switch_and_last_block (inc : option Block) (d : ArrayDetector) :
  (0 < preamp_off_block_ d -> block_idx_ d = preamp_off_block_ d ->
   let d' := switch_preamp_off d in
   cycle_ d' = (if 0 <=? cycle_ d then -1 else cycle_ d) /\
   calls_ (writer_ d')
   = calls_ (writer_ d)
     ++ (if 0 <=? cycle_ d then [call_cycle_stop] else []) /\
   bias_tee (carrier_det_ d')
   = (if String.eqb (input_file (args_ d)) "rtlsdr" then false
      else bias_tee (carrier_det_ d)) /\
   blocks_skip_ d'
   = to_unsigned ((1#5) * inject_Z (sdr_sample_rate (args_ d))
                  / inject_Z (block_len (args_ d) - history_len (args_ d))) /\
   (history_len (args_ d) < block_len (args_ d) ->
    0 <= sdr_sample_rate (args_ d) < 2 ^ 32 ->
    blocks_skip_ d'
    = sdr_sample_rate (args_ d)
      / (5 * (block_len (args_ d) - history_len (args_ d))))) /\
  (0 < last_block_ d -> block_idx_ d = last_block_ d ->
   cancelled (carrier_det_ (stop_at_last_block (switch_preamp_off d))) = true
   /\ exists d', next inc d = Ok (d', false)) /\
  next inc d
  = read_and_process inc (stop_at_last_block (switch_preamp_off d)).
Proof.
  split; [|split; [|reflexivity]].
  - intros Hp Hb. cbv zeta. unfold switch_preamp_off.
    apply Z.ltb_lt in Hp. rewrite Hp, Hb, Z.eqb_refl. simpl andb.
    cbv iota zeta. unfold set_bias_tee.
    destruct (0 <=? cycle_ d) eqn:Ec;
      destruct (String.eqb (input_file (args_ d)) "rtlsdr") eqn:Es;
      simpl; rewrite ?Es; simpl.
    all: split; [reflexivity|].
    all: split;
      [first [apply write_cycle_stop_advanced
             |rewrite app_nil_r; reflexivity]|].
    all: split; [reflexivity|].
    all: split; [reflexivity|].
    all: intros Hh [Hs0 Hs1]; apply skip_blocks_value; unfold stride;
      [lia | exact Hs0 | ].
    all: assert (Hd : sdr_sample_rate (args_ d)
                      / (5 * (block_len (args_ d) - history_len (args_ d)))
                      <= sdr_sample_rate (args_ d))
        by (apply Z.div_le_upper_bound; nia); lia.
  - intros Hl Hb.
    assert (Hc : cancelled
                   (carrier_det_ (stop_at_last_block (switch_preamp_off d)))
                 = true).
    { unfold stop_at_last_block.
      assert (E : last_block_ (switch_preamp_off d) = last_block_ d
                  /\ block_idx_ (switch_preamp_off d) = block_idx_ d).
      { unfold switch_preamp_off, set_bias_tee. split_ifs; split; reflexivity. }
      destruct E as [-> ->]. apply Z.ltb_lt in Hl.
      rewrite Hl, Hb, Z.eqb_refl. reflexivity. }
    split; [exact Hc|].
    unfold next, read_and_process, Source.next. cbv zeta. rewrite Hc.
    eexists; reflexivity.
Qed.

Lemma preamp_switch_and_last_block_witness :
  let d12 := Scenario.state_after (Scenario.missed_pulse ++ Scenario.steady 8) in
  let d14 := Scenario.state_after (Scenario.missed_pulse ++ Scenario.steady 10) in
  (0 < preamp_off_block_ d12 /\ block_idx_ d12 = preamp_off_block_ d12 /\
   blocks_skip_ (switch_preamp_off d12) = 0) /\
  (0 < last_block_ d14 /\ block_idx_ d14 = last_block_ d14 /\
   cancelled (carrier_det_ (stop_at_last_block (switch_preamp_off d14)))
   = true).
Proof.
  cbv zeta.
  set (d12 := Scenario.state_after (Scenario.missed_pulse ++ Scenario.steady 8)).
  set (d14 := Scenario.state_after (Scenario.missed_pulse ++ Scenario.steady 10)).
  assert (Hp : 0 < preamp_off_block_ d12) by (vm_compute; reflexivity).
  assert (Hb : block_idx_ d12 = preamp_off_block_ d12)
    by (vm_compute; reflexivity).
  assert (Hl : 0 < last_block_ d14) by (vm_compute; reflexivity).
  assert (Hc : block_idx_ d14 = last_block_ d14) by (vm_compute; reflexivity).
  split.
  - split; [exact Hp | split; [exact Hb|]].
    destruct (proj1 (preamp_switch_and_last_block None d12) Hp Hb)
      as (_ & _ & _ & _ & Hv).
    rewrite Hv; [reflexivity | vm_compute; reflexivity
                 | vm_compute; split; [discriminate | reflexivity]].
  - split; [exact Hl | split; [exact Hc|]].
    exact (proj1 (proj1 (proj2 (preamp_switch_and_last_block None d14))
                        Hl Hc)).
Defined.

(** ** Carrier recovery *)

Section Tracking.

Lemma track_carrier_keeps (blk : Block) (d : ArrayDetector) :
  (tracking_angle_diff blk d * 360 <= 50)%Q ->
  detected_carrier_ (track_carrier blk d) = detected_carrier_ d /\
  carrier_pos_ (track_carrier blk d)
  = (carrier_pos_ d + tracking_angle_diff blk d * (1#5))%Q.
Proof.
  intros H. unfold tracking_angle_diff in *.
  unfold track_carrier, measure_dc, shift_block. cbv zeta. members.
  unfold MAX_TRACKING_ANGLE_DIFF, TRACKING_ANGLE_DIFF_FACTOR.
  apply Qlt_bool_false_iff in H. rewrite H. members.
  split; reflexivity.
Qed.

Lemma track_carrier_loses (blk : Block) (d : ArrayDetector) :
  Qlt_bool MAX_TRACKING_ANGLE_DIFF (tracking_angle_diff blk d * 360)
  = true ->
  detected_carrier_ (track_carrier blk d) = false /\
  args_ (track_carrier blk d) = args_ d.
Proof.
  intros H. unfold tracking_angle_diff in *.
  unfold track_carrier, measure_dc, shift_block. cbv zeta. members.
  rewrite H. members. split; reflexivity.
Qed.

Lemma acquire_carrier_detected (blk : Block) (d : ArrayDetector) :
  detected_carrier_ (acquire_carrier blk d)
  = carrier_detected (carrier blk) || detected_carrier_ d.
Proof.
  unfold acquire_carrier, measure_dc, shift_block. cbv zeta.
  destruct (carrier_detected (carrier blk)); [|reflexivity].
  destruct (Qlt_bool _ _); reflexivity.
Qed.

(** What the tracking branch of [recover_carrier] does with the angle
    difference: above 50 degrees the carrier is searched again, and in
    every other case, a difference below -50 degrees included, the
    position moves by a fifth of the difference. *)
Lemma recover_carrier_tracking (blk : Block) (d : ArrayDetector) :
  detected_carrier_ d = true ->
  let angle_diff :=
    normalize_deciangle
      (normalize_deciangle
         (dc_arg (freq_shift blk (- carrier_pos_ d) (sample_phase_ d)))
       - dc_angle_ d) in
  ((angle_diff * 360 <= 50)%Q ->
   detected_carrier_ (recover_carrier blk d) = true /\
   carrier_pos_ (recover_carrier blk d)
   = (carrier_pos_ d + angle_diff * (1#5))%Q) /\
  ((50 < angle_diff * 360)%Q ->
   detected_carrier_ (recover_carrier blk d)
   = carrier_detected (carrier blk)).
Proof.
  intros Hd. cbv zeta.
  change (normalize_deciangle
            (normalize_deciangle
               (dc_arg (freq_shift blk (- carrier_pos_ d) (sample_phase_ d)))
             - dc_angle_ d))
    with (tracking_angle_diff blk d).
  unfold recover_carrier. rewrite Hd. cbv zeta.
  split; intros H.
  - destruct (track_carrier_keeps blk d H) as [Hk Hp].
    rewrite Hk, Hd. cbn [negb]. rewrite Hk, Hp. split; [exact Hd|reflexivity].
  - apply Qlt_bool_iff in H.
    destruct (track_carrier_loses blk d H) as [Hk _].
    rewrite Hk. cbn [negb]. rewrite acquire_carrier_detected, Hk.
    apply orb_false_r.
Qed.

End Tracking.

(** C2, the code at the failing input: the carrier is acquired at bin
    100 with a DC angle of a quarter turn, and in the next block the DC
    angle is zero.  The angle difference is a quarter turn backwards, 90
    degrees in size, yet the carrier stays locked and its position moves
    by a fifth of the difference. *)
Theorem backward_phase_jump_keeps_lock :
  match run Scenario.args false Scenario.unset Scenario.phase_jump_back with
  | Running d =>
    block_idx_ d = 2 /\
    (normalize_deciangle (dc_angle_ d - prev_dc_angle_ d) == - (1#4))%Q /\
    (Qabs (normalize_deciangle (dc_angle_ d - prev_dc_angle_ d)) * 360
     == 90)%Q /\
    detected_carrier_ d = true /\
    (carrier_pos_ d == 100 - (1#20))%Q
  | _ => False
  end.
Proof. vm_compute. repeat split. Qed.

(** ** Acquisition *)

Section Acquisition.




End Acquisition.




(** The position is compared as a [float]: with blocks of 16384 samples
    and a peak at bin 8192 that leans to the right by a hair, bin plus
    offset exceeds 8192, but the [float] nearest to it is 8192, which
    does not, and nothing is subtracted. *)
Lemma carrier_pos_is_single_precision :
  let c := Scenario.faint_lean 8192 in
  (inject_Z 8192 < inject_Z (argmax c)
                   + interpolate_parabolic (fft_power c) (argmax c))%Q /\
  match run Scenario.args false Scenario.unset
            [Scenario.tick
               (Scenario.block c (Scenario.signal 1000 0 Scenario.quiet))]
  with
  | Running d => (carrier_pos_ d == 8192)%Q
  | _ => False
  end.
Proof. vm_compute. split; reflexivity. Qed.
(** ** Beacon counting *)

Section BeaconCount.




End BeaconCount.




(** The time step is compared as a [float]: a pulse 1.50000005 beacon
    intervals after the previous one has a time step of 1.5, which does
    not exceed 1.5, and [beacon_] goes from 1 to 2. *)
Lemma time_step_is_single_precision :
  let d := set_synced_signal_
             (Scenario.signal 10 0 Scenario.pulse_after_one_and_a_half)
             (set_block_idx_ 1
                (set_beacon_ 1
                   (start (ArrayDetector_new Scenario.args 1024 None
                                             Scenario.unset)))) in
  ((inject_Z (stride (args_ d) * block_idx_ d + 8192) + (8192 # 10000000)
    - soa_ d) / inject_Z (sdr_sample_rate (args_ d))
   == 150000005 # 100000000)%Q /\
  beacon_ d = 1 /\
  beacon_ (snd (find_beacon d)) = 2.
Proof. vm_compute. repeat split. Qed.

(** ** The writer without a file *)

(** Case analysis on the conditions of a method, innermost first, with
    the members simplified in between. *)
Ltac split_members :=
  members;
  repeat (match goal with
          | |- context [if ?c then _ else _] =>
            lazymatch c with
            | context [if _ then _ else _] => fail
            | _ => destruct c
            end
          end; members).

Section Void.

Lemma dropped_write_cycle_stop (w : CorxFileWriter) :
  Writer.write_cycle_stop (dropped w) = dropped (Writer.write_cycle_stop w).
Proof. destruct w as [[f|] ss cs]; reflexivity. Qed.

Lemma dropped_write_cycle_start (h : CorxBeaconHeader) (w : CorxFileWriter) :
  Writer.write_cycle_start h (dropped w)
  = dropped (Writer.write_cycle_start h w).
Proof. destruct w as [[f|] ss cs]; reflexivity. Qed.

Lemma dropped_write_cycle_block (p : Z) (data : list (Q * Q)) (len : Z)
      (w w' : CorxFileWriter) :
  Writer.write_cycle_block p data len w = Some w' ->
  Writer.write_cycle_block p data len (dropped w) = Some (dropped w').
Proof.
  unfold Writer.write_cycle_block, Writer.is_void, dropped.
  destruct w as [[f|] ss cs]; simpl.
  - destruct (len =? ss); simpl; [|discriminate].
    destruct (p =? -128); [discriminate|].
    intros H. injection H as <-. reflexivity.
  - intros H. injection H as <-. reflexivity.
Qed.

(** One iteration of the loop of [extract_corr_blocks]. *)
Lemma extract_loop_unfold (fuel : nat) (d : ArrayDetector) :
  extract_loop (S fuel) d =
  if cycle_ d <? num_cycles_ d then
    if block_len (args_ d) <? u64 (corr_start_idx d + corr_size_ d)
    then Ok d
    else if negb (fft_shift_in_bounds (corr_size_ d)
                                      (corr_carrier_offset d))
    then Stop buffer_overrun
    else
      let corrected :=
        corr_block (synced_signal_ d) (corr_start_idx d)
                   (corr_start d - inject_Z (corr_start_idx d))
                   (- avg_dc_angle_ d)
                   (fft_shift_pos_len (corr_size_ d)
                                      (corr_carrier_offset d)) in
      let n := if Qlt_bool (1#5) (Qabs (corr_error corrected))
               then num_phase_errors_ d + 1
               else num_phase_errors_ d in
      match Writer.write_cycle_block
              (to_int8 (corr_error corrected / (1#2) * 127))
              (skipn (Z.to_nat (slice_start_ d))
                     (corrected_corr_fft corrected))
              (u16 (slice_len_ d)) (writer_ d)
      with
      | None => Stop assertion_failed
      | Some w =>
        extract_loop fuel
                     (set_cycle_ (cycle_ d + 1)
                        (set_writer_ w (set_num_phase_errors_ n d)))
      end
  else Ok d.
Proof.
  simpl. destruct (cycle_ d <? num_cycles_ d); [|reflexivity].
  destruct (_ <? _); [reflexivity|].
  destruct (negb _); [reflexivity|].
  cbv zeta. destruct (Qlt_bool _ _); reflexivity.
Qed.

Lemma without_output_extract_loop (fuel : nat) :
  forall d,
    mirrored without_output
             (extract_loop fuel d) (extract_loop fuel (without_output d)).
Proof.
  induction fuel as [|fuel IH]; intros d; [reflexivity|].
  rewrite !extract_loop_unfold.
  change (cycle_ (without_output d)) with (cycle_ d).
  change (num_cycles_ (without_output d)) with (num_cycles_ d).
  destruct (cycle_ d <? num_cycles_ d); [|reflexivity].
  change (args_ (without_output d)) with (args_ d).
  change (corr_start_idx (without_output d)) with (corr_start_idx d).
  change (corr_size_ (without_output d)) with (corr_size_ d).
  destruct (_ <? _); [reflexivity|].
  change (corr_carrier_offset (without_output d))
    with (corr_carrier_offset d).
  destruct (negb _); [reflexivity|].
  cbv zeta.
  change (synced_signal_ (without_output d)) with (synced_signal_ d).
  change (corr_start (without_output d)) with (corr_start d).
  change (avg_dc_angle_ (without_output d)) with (avg_dc_angle_ d).
  change (slice_start_ (without_output d)) with (slice_start_ d).
  change (slice_len_ (without_output d)) with (slice_len_ d).
  change (num_phase_errors_ (without_output d))
    with (num_phase_errors_ d).
  change (writer_ (without_output d)) with (dropped (writer_ d)).
  match goal with
  | |- context [Writer.write_cycle_block ?p ?data ?len (writer_ d)] =>
    destruct (Writer.write_cycle_block p data len (writer_ d))
      as [w'|] eqn:Ew;
      [rewrite (dropped_write_cycle_block _ _ _ _ _ Ew) | exact I]
  end.
  apply IH.
Qed.

Lemma without_output_extract_corr_blocks (d : ArrayDetector) :
  mirrored without_output
           (extract_corr_blocks d)
           (extract_corr_blocks (without_output d)).
Proof.
  unfold extract_corr_blocks.
  change (num_cycles_ (without_output d)) with (num_cycles_ d).
  change (cycle_ (without_output d)) with (cycle_ d).
  pose proof (without_output_extract_loop
                (Z.to_nat (num_cycles_ d - cycle_ d)) d) as H.
  destruct (extract_loop _ d) as [d1|[|]]; simpl in H; try exact H.
  - rewrite H.
    change (num_cycles_ (without_output d1)) with (num_cycles_ d1).
    change (cycle_ (without_output d1)) with (cycle_ d1).
    destruct (num_cycles_ d1 <=? cycle_ d1); simpl; [|reflexivity].
    unfold without_output. members.
    rewrite dropped_write_cycle_stop. reflexivity.
  - simpl. rewrite H. reflexivity.
Qed.

Lemma without_output_switch_preamp_off (d : ArrayDetector) :
  switch_preamp_off (without_output d)
  = without_output (switch_preamp_off d).
Proof.
  unfold switch_preamp_off, set_bias_tee, without_output. members.
  destruct (_ && _); [|reflexivity].
  destruct (0 <=? cycle_ d); members;
    destruct (String.eqb (input_file (args_ d)) "rtlsdr"); members;
      rewrite ?dropped_write_cycle_stop; reflexivity.
Qed.

Lemma without_output_stop_at_last_block (d : ArrayDetector) :
  stop_at_last_block (without_output d)
  = without_output (stop_at_last_block d).
Proof.
  unfold stop_at_last_block, cancel, without_output. members.
  split_ifs; reflexivity.
Qed.

Lemma without_output_recover_carrier (blk : Block) (d : ArrayDetector) :
  recover_carrier blk (without_output d)
  = without_output (recover_carrier blk d).
Proof.
  unfold recover_carrier, track_carrier, acquire_carrier, measure_dc,
    shift_block, without_output.
  any_rounding.
  split_members; reflexivity.
Qed.

Lemma without_output_find_beacon (d : ArrayDetector) :
  find_beacon (without_output d)
  = (fst (find_beacon d), without_output (snd (find_beacon d))).
Proof.
  unfold find_beacon, without_output.
  any_rounding.
  split_members; reflexivity.
Qed.

Lemma mirrored_step (r r' : Result ArrayDetector) :
  mirrored without_output r r' ->
  mirrored step_without_output
           match r with Ok d => Ok (d, true) | Stop f => Stop f end
           match r' with Ok d => Ok (d, true) | Stop f => Stop f end.
Proof.
  destruct r as [d|[|]]; simpl; intros H; try exact I; rewrite H;
    reflexivity.
Qed.

Lemma without_output_capture_noise (blk : Block) (d : ArrayDetector) :
  mirrored step_without_output
           (capture_noise blk d) (capture_noise blk (without_output d)).
Proof.
  unfold capture_noise. apply mirrored_step.
  match goal with
  | |- mirrored _ (extract_corr_blocks ?x) (extract_corr_blocks ?y) =>
    replace y with (without_output x);
      [apply without_output_extract_corr_blocks|]
  end.
  unfold shift_block, without_output. members.
  destruct (cycle_ d =? -1); members;
    rewrite ?dropped_write_cycle_start; reflexivity.
Qed.

Lemma without_output_beacon_search (blk : Block) (d : ArrayDetector) :
  (let (corr, d1) := find_beacon (without_output d) in
   if detected corr then
     let d2 := set_clock_error_ (estimate_clock_error d1) d1 in
     let d2 := set_cycle_ 0 d2 in
     let d2 := set_num_phase_errors_ 0 d2 in
     let d2 := if beacon_ d2 =? 0 then schedule_capture d2 else d2 in
     set_writer_
       (Writer.write_cycle_start (beacon_header blk corr d2) (writer_ d2))
       d2
   else d1)
  = without_output
      (let (corr, d1) := find_beacon d in
       if detected corr then
         let d2 := set_clock_error_ (estimate_clock_error d1) d1 in
         let d2 := set_cycle_ 0 d2 in
         let d2 := set_num_phase_errors_ 0 d2 in
         let d2 := if beacon_ d2 =? 0 then schedule_capture d2 else d2 in
         set_writer_
           (Writer.write_cycle_start (beacon_header blk corr d2)
                                     (writer_ d2))
           d2
       else d1).
Proof.
  rewrite without_output_find_beacon.
  destruct (find_beacon d) as [corr d1]. cbn [fst snd].
  destruct (detected corr); [|reflexivity].
  cbv zeta. unfold schedule_capture, without_output. members.
  destruct (beacon_ d1 =? 0); members;
    rewrite dropped_write_cycle_start; reflexivity.
Qed.

Lemma without_output_capture (blk : Block) (d : ArrayDetector) :
  mirrored step_without_output
           (capture blk d) (capture blk (without_output d)).
Proof.
  unfold capture. cbv zeta.
  rewrite without_output_recover_carrier.
  match goal with
  | |- mirrored _ (if negb (detected_carrier_ ?x) then _ else _) _ =>
    set (d4 := x)
  end.
  match goal with
  | |- mirrored _ _ (if negb (detected_carrier_ ?y) then _ else _) =>
    change y with (without_output d4)
  end.
  clearbody d4.
  change (detected_carrier_ (without_output d4)) with (detected_carrier_ d4).
  destruct (negb (detected_carrier_ d4)); [reflexivity|].
  change (cycle_ (without_output d4)) with (cycle_ d4).
  change (dc_ampl_ (without_output d4)) with (dc_ampl_ d4).
  change (avg_dc_ampl_ (without_output d4)) with (avg_dc_ampl_ d4).
  match goal with
  | |- mirrored _ (if 0 <=? cycle_ ?x then _ else _) _ => set (d5 := x)
  end.
  match goal with
  | |- mirrored _ _ (if 0 <=? cycle_ ?y then _ else _) =>
    replace y with (without_output d5)
  end.
  - clearbody d5.
    change (cycle_ (without_output d5)) with (cycle_ d5).
    destruct (0 <=? cycle_ d5); [|reflexivity].
    apply mirrored_step, without_output_extract_corr_blocks.
  - subst d5. destruct (_ && _); [|reflexivity].
    symmetry. apply without_output_beacon_search.
Qed.

Lemma without_output_read_and_process (inc : option Block)
      (d : ArrayDetector) :
  mirrored step_without_output
           (read_and_process inc d)
           (read_and_process inc (without_output d)).
Proof.
  unfold read_and_process.
  change (carrier_det_ (without_output d)) with (carrier_det_ d).
  destruct (Source.next inc (carrier_det_ d)) as [blk|].
  - cbv zeta.
    change (set_block_idx_ (u32 (block_idx_ (without_output d) + 1))
                           (without_output d))
      with (without_output (set_block_idx_ (u32 (block_idx_ d + 1)) d)).
    set (d1 := set_block_idx_ _ d). clearbody d1.
    change (blocks_skip_ (without_output d1)) with (blocks_skip_ d1).
    destruct (negb _); [reflexivity|].
    change (preamp_off_block_ (without_output d1))
      with (preamp_off_block_ d1).
    change (block_idx_ (without_output d1)) with (block_idx_ d1).
    destruct (_ && _).
    + apply without_output_capture_noise.
    + apply without_output_capture.
  - change (cycle_ (without_output d)) with (cycle_ d).
    destruct (0 <=? cycle_ d); simpl; [|reflexivity].
    unfold step_without_output, without_output. members.
    rewrite dropped_write_cycle_stop. reflexivity.
Qed.

Lemma without_output_next (inc : option Block) (d : ArrayDetector) :
  mirrored step_without_output (next inc d) (next inc (without_output d)).
Proof.
  unfold next. cbv zeta.
  rewrite without_output_switch_preamp_off,
    without_output_stop_at_last_block.
  apply without_output_read_and_process.
Qed.

Lemma without_output_main_loop (ticks : list Tick) :
  forall d,
    match main_loop ticks d with
    | Crashed assertion_failed => True
    | o => main_loop ticks (without_output d) = outcome_without_output o
    end.
Proof.
  induction ticks as [|t ticks IH]; intros d; simpl; [reflexivity|].
  replace (if interrupt t then cancel (without_output d)
           else without_output d)
    with (without_output (if interrupt t then cancel d else d))
    by (destruct (interrupt t); reflexivity).
  set (d0 := if interrupt t then cancel d else d). clearbody d0.
  pose proof (without_output_next (incoming t) d0) as H.
  destruct (next (incoming t) d0) as [[d' b]|[|]]; simpl in H;
    try exact I; rewrite H; simpl.
  - destruct b; [apply IH | reflexivity].
  - reflexivity.
Qed.

Lemma without_output_start (args : fargs_t) (corr_size : Z)
      (u : Indeterminate) :
  without_output
    (start (ArrayDetector_new args corr_size (CFile_open true) u))
  = start (ArrayDetector_new args corr_size (CFile_open false) u).
Proof.
  unfold start, set_bias_tee, without_output. cbv zeta.
  destruct (negb _); reflexivity.
Qed.

End Void.

(** C9: a writer without a file writes nothing and fails no assertion,
    whatever method is called on it; and when the phases that the FFT
    reports are in turns, a run without an output file goes through the
    states of the run with one, the file and the writer's slice size
    taken away: every other member, the calls made on the writer and the
    value that [next] returns are the same after each call. *)
Theorem void_writer_drops_writes
        (args : fargs_t) (u : Indeterminate) (ticks : list Tick) :
  phase_in_turns (any_synced_signal u) ->
  Forall tick_in_turns ticks ->
  run args false u ticks = outcome_without_output (run args true u ticks) /\
  match run args false u ticks with
  | Running d | Exited d => out_ (writer_ d) = None
  | Crashed f => f = buffer_overrun
  end /\
  (forall w header beacon phase_error data len,
      Writer.is_void w = true ->
      out_ (Writer.write_file_header header w) = None /\
      out_ (Writer.write_cycle_start beacon w) = None /\
      out_ (Writer.write_cycle_stop w) = None /\
      exists w',
        Writer.write_cycle_block phase_error data len w = Some w' /\
        out_ w' = None).
Proof.
  intros Hu Ht.
  assert (Hrun : run args false u ticks
                 = outcome_without_output (run args true u ticks)).
  { unfold run. rewrite <- without_output_start.
    pose proof (without_output_main_loop
                  ticks (start (ArrayDetector_new args 1024
                                                  (CFile_open true) u)))
      as Hm.
    pose proof (main_loop_phases ticks _ Ht
                  (start_protocol args 1024 true u)
                  (start_phases args 1024 true u Hu)) as Hp.
    destruct (main_loop ticks (start (ArrayDetector_new
                                        args 1024 (CFile_open true) u)))
      as [d|d|[|]]; try exact Hm.
    discriminate Hp. }
  split; [exact Hrun | split].
  - rewrite Hrun.
    pose proof (main_loop_phases ticks _ Ht
                  (start_protocol args 1024 true u)
                  (start_phases args 1024 true u Hu)) as Hp.
    unfold run.
    destruct (main_loop ticks _) as [d|d|f]; simpl;
      [reflexivity | reflexivity | exact Hp].
  - intros w header beacon p data len Hv.
    unfold Writer.write_file_header, Writer.write_cycle_start,
      Writer.write_cycle_stop, Writer.write_cycle_block, Writer.is_void in *.
    destruct w as [[f|] ss cs]; simpl in *; [discriminate|].
    repeat split. eexists; split; reflexivity.
Qed.

Lemma void_writer_drops_writes_witness :
  phase_in_turns (any_synced_signal Scenario.unset) /\
  Forall tick_in_turns (Scenario.missed_pulse ++ [Scenario.end_of_input]) /\
  run Scenario.args false Scenario.unset
      (Scenario.missed_pulse ++ [Scenario.end_of_input])
  = outcome_without_output
      (run Scenario.args true Scenario.unset
           (Scenario.missed_pulse ++ [Scenario.end_of_input])).
Proof.
  assert (Hs : forall a b c, phase_in_turns (Scenario.signal a b c)).
  { intros a b c i f p n. simpl. split; discriminate. }
  assert (Hu : phase_in_turns (any_synced_signal Scenario.unset))
    by apply Hs.
  assert (Ht : Forall tick_in_turns
                      (Scenario.missed_pulse ++ [Scenario.end_of_input])).
  { unfold Scenario.missed_pulse. simpl.
    repeat (apply Forall_cons; [intros f p; apply Hs|]).
    apply Forall_cons; [exact I | apply Forall_nil]. }
  split; [exact Hu | split; [exact Ht|]].
  pose proof (void_writer_drops_writes
                Scenario.args Scenario.unset
                (Scenario.missed_pulse ++ [Scenario.end_of_input])
                Hu Ht) as H.
  destruct H as [H _]. exact H.
Defined.

(** ** The split point of [fft_shift] *)

Section Split.

Lemma c_trunc_half (W : Z) (y : Q) :
  0 <= W ->
  (- inject_Z W <= 2 * y <= inject_Z W)%Q ->
  - (W / 2) <= c_trunc y <= W / 2.
Proof.
  intros HW Hy. destruct (Qlt_le_dec y 0) as [Hneg | Hpos].
  - destruct (c_trunc_nonpos y (Qlt_le_weak _ _ Hneg)) as (H1 & H2 & _).
    assert (H3 : (inject_Z (- W) <= inject_Z (2 * c_trunc y))%Q).
    { rewrite inject_Z_mult, inject_Z_opp.
      change (inject_Z 2) with 2%Q. clear - Hy H2. lra. }
    rewrite <- Zle_Qle in H3. clear - HW H1 H3.
    Z.div_mod_to_equations. lia.
  - destruct (c_trunc_nonneg y Hpos) as (H1 & H2 & _).
    assert (H3 : (inject_Z (2 * c_trunc y) <= inject_Z W)%Q).
    { rewrite inject_Z_mult. change (inject_Z 2) with 2%Q.
      clear - Hy H2. lra. }
    rewrite <- Zle_Qle in H3. clear - HW H1 H3.
    Z.div_mod_to_equations. lia.
Qed.

(** With the carrier within half a block of zero, the call of
    [fft_shift] in [extract_corr_blocks] stays inside its buffers. *)
Lemma fft_shift_in_bounds_centred (d : ArrayDetector) :
  0 < block_len (args_ d) ->
  0 <= corr_size_ d < 2 ^ 62 ->
  (- inject_Z (block_len (args_ d)) <= 2 * carrier_pos_ d
   <= inject_Z (block_len (args_ d)))%Q ->
  fft_shift_in_bounds (corr_size_ d) (corr_carrier_offset d) = true.
Proof.
  intros HB [HW0 HW1] Hcp.
  set (W := corr_size_ d) in *. set (B := block_len (args_ d)) in *.
  set (x := (- carrier_pos_ d * inject_Z W / inject_Z B)%Q).
  assert (Hq : (0 < inject_Z B)%Q)
    by (change 0%Q with (inject_Z 0); rewrite <- Zlt_Qlt; exact HB).
  assert (Hw : (0 <= inject_Z W)%Q)
    by (change 0%Q with (inject_Z 0); rewrite <- Zle_Qle; exact HW0).
  assert (Hx : (- inject_Z W <= 2 * x <= inject_Z W)%Q).
  { assert (E : (2 * x == (- (2 * carrier_pos_ d) * inject_Z W)
                          / inject_Z B)%Q)
      by (unfold x; field; lra).
    destruct Hcp as [Hc1 Hc2].
    assert (P1 : (0 <= (inject_Z B - 2 * carrier_pos_ d) * inject_Z W)%Q)
      by (apply Qmult_le_0_compat; lra).
    assert (P2 : (0 <= (inject_Z B + 2 * carrier_pos_ d) * inject_Z W)%Q)
      by (apply Qmult_le_0_compat; lra).
    rewrite E. split.
    - apply Qle_shift_div_l; [exact Hq|].
      setoid_replace (- inject_Z W * inject_Z B)%Q
        with (- (2 * carrier_pos_ d) * inject_Z W
              - (inject_Z B - 2 * carrier_pos_ d) * inject_Z W)%Q by ring.
      lra.
    - apply Qle_shift_div_r; [exact Hq|].
      setoid_replace (inject_Z W * inject_Z B)%Q
        with (- (2 * carrier_pos_ d) * inject_Z W
              + (inject_Z B + 2 * carrier_pos_ d) * inject_Z W)%Q by ring.
      lra. }
  pose proof (c_trunc_half W x HW0 Hx) as Ht.
  assert (Hoff : corr_carrier_offset d = c_trunc x mod 2 ^ 64).
  { unfold corr_carrier_offset, to_size_t, u64. fold W B x.
    rewrite cvtt_in_range; [reflexivity|].
    change (2 ^ (64 - 1)) with 9223372036854775808.
    change (2 ^ 62) with 4611686018427387904 in HW1. Z.div_mod_to_equations. lia. }
  assert (Hpos : fft_shift_pos_len W (corr_carrier_offset d)
                 = (W + 1) / 2 + c_trunc x).
  { unfold fft_shift_pos_len, u64. rewrite Hoff.
    rewrite Zplus_mod_idemp_r. apply Z.mod_small.
    change (2 ^ 62) with 4611686018427387904 in HW1.
    change (2 ^ 64) with 18446744073709551616. Z.div_mod_to_equations. lia. }
  unfold fft_shift_in_bounds, fft_shift_neg_len. rewrite Hpos.
  assert (Hn : u64 (W - ((W + 1) / 2 + c_trunc x))
               = W - ((W + 1) / 2 + c_trunc x)).
  { unfold u64. apply Z.mod_small.
    change (2 ^ 62) with 4611686018427387904 in HW1.
    change (2 ^ 64) with 18446744073709551616. Z.div_mod_to_equations. lia. }
  rewrite Hn. apply andb_true_iff. split; apply Z.leb_le; Z.div_mod_to_equations; lia.
Qed.

End Split.

(** C10, the code at the failing input: a tuner stream in blocks of 2048
    samples.  The carrier is acquired at bin 1024.25, stored as -1023.75,
    and its DC angle then falls by 0.49 turn in each of 23 blocks, a
    difference that the tracking branch follows by 0.098 bin per block; a
    pulse is found in the 21st block.  In the 24th block the first
    correlation block fits, [carrier_pos_] is below -1026, the
    [carrier_offset] passed to [fft_shift] is 513 and the split point
    [pos_len] is 1025, one element beyond the 1024 of the buffers. *)
Theorem fft_shift_overrun_after_drift :
  run Scenario.short_args false Scenario.unset (Scenario.slide_then_pulse 19)
  = Crashed buffer_overrun /\
  match run Scenario.short_args false Scenario.unset
            (removelast (Scenario.slide_then_pulse 19)) with
  | Running d =>
    block_idx_ d = 23 /\ cycle_ d = 0 /\ detected_carrier_ d = true /\
    (carrier_pos_ d == - (512953#500))%Q
  | _ => False
  end /\
  fft_shift_pos_len 1024 513 = 1025 /\
  fft_shift_in_bounds 1024 513 = false.
Proof. vm_compute. repeat split. Qed.

(** * Part III: further properties *)

(** ** The loop of [extract_corr_blocks] *)

Section Loop.

Lemma extract_loop_done (fuel : nat) (d : ArrayDetector) :
  num_cycles_ d <= cycle_ d -> extract_loop fuel d = Ok d.
Proof.
  intros H. destruct fuel as [|fuel]; [reflexivity|].
  rewrite extract_loop_unfold.
  apply Z.ltb_ge in H. rewrite H. reflexivity.
Qed.

(** Fuel beyond the number of cycles left is not used. *)
Lemma extract_loop_fuel (n : nat) :
  forall (k : nat) (d : ArrayDetector),
    num_cycles_ d - cycle_ d <= Z.of_nat n ->
    extract_loop (n + k) d = extract_loop n d.
Proof.
  induction n as [|n IH]; intros k d Hn.
  - rewrite !extract_loop_done by lia. reflexivity.
  - change (S n + k)%nat with (S (n + k)).
    rewrite !extract_loop_unfold.
    destruct (cycle_ d <? num_cycles_ d); [|reflexivity].
    destruct (_ <? _); [reflexivity|].
    destruct (negb _); [reflexivity|].
    cbv zeta.
    destruct (Writer.write_cycle_block _ _ _ _); [|reflexivity].
    apply IH. members. lia.
Qed.

(** The loop ends where the [for] statement ends: at the last cycle or
    at the [break]. *)
Lemma extract_loop_ends (n : nat) :
  forall d d',
    num_cycles_ d - cycle_ d <= Z.of_nat n ->
    extract_loop n d = Ok d' ->
    num_cycles_ d' = num_cycles_ d /\
    cycle_ d <= cycle_ d' /\
    (num_cycles_ d' <= cycle_ d' \/ corr_block_past_end d' = true).
Proof.
  induction n as [|n IH]; intros d d' Hn.
  - simpl. intros H. injection H as <-.
    split; [reflexivity | split; [lia | left; lia]].
  - rewrite extract_loop_unfold.
    destruct (Z.ltb_spec (cycle_ d) (num_cycles_ d)) as [Hc|Hc].
    + destruct (block_len (args_ d) <? _) eqn:Eb.
      * intros H. injection H as <-.
        split; [reflexivity | split; [lia | right; exact Eb]].
      * destruct (negb _); [discriminate|]. cbv zeta.
        destruct (Writer.write_cycle_block _ _ _ _) as [w|]; [|discriminate].
        intros H. apply IH in H; [|members; lia].
        revert H. members. intros (H1 & H2 & H3).
        split; [exact H1 | split; [lia | exact H3]].
    + intros H. injection H as <-.
      split; [reflexivity | split; [lia | left; lia]].
Qed.

End Loop.

(** X1: the loop of [extract_corr_blocks] runs at most
    [num_cycles_ - cycle_] times: more fuel changes nothing, and when the
    loop ends without a fault, [cycle_] has not decreased and either it
    has reached [num_cycles_] or the break test holds for the cycle it
    stopped at (its rounded start plus [corr_size_] exceeds
    [block_len]). *)
Theorem extract_loop_bounded (d : ArrayDetector) (k : nat) :
  extract_loop (Z.to_nat (num_cycles_ d - cycle_ d) + k) d
  = extract_loop (Z.to_nat (num_cycles_ d - cycle_ d)) d /\
  match extract_loop (Z.to_nat (num_cycles_ d - cycle_ d)) d with
  | Ok d' =>
    cycle_ d <= cycle_ d' /\
    (num_cycles_ d' <= cycle_ d' \/ corr_block_past_end d' = true)
  | Stop _ => True
  end.
Proof.
  split.
  - apply extract_loop_fuel. lia.
  - destruct (extract_loop _ d) as [d'|f] eqn:E; [|exact I].
    apply extract_loop_ends in E; [|lia].
    destruct E as (_ & H2 & H3). split; assumption.
Qed.

(** ** The trace format *)

Section Trace.

Lemma trace_phase_snoc (cs : list WriterCall) (c : WriterCall) :
  trace_phase (cs ++ [c]) = phase_step (trace_phase cs) c.
Proof. unfold trace_phase. rewrite fold_left_app. reflexivity. Qed.

Lemma trace_ok_view (d d' : ArrayDetector) :
  protocol_view d' = protocol_view d -> trace_ok d -> trace_ok d'.
Proof.
  unfold protocol_view, trace_ok. intros E.
  injection E as Ec Ew _ _ En. rewrite Ec, Ew, En. tauto.
Qed.

Lemma trace_ok_cases (d : ArrayDetector) :
  trace_ok d ->
  (cycle_ d = -1 /\ trace_phase (calls_ (writer_ d)) = closed)
  \/ trace_open d.
Proof.
  intros [Hp [Hc|Hc]].
  - left. split; [exact Hc|]. rewrite Hp, Hc. reflexivity.
  - right. split; [|lia]. rewrite Hp. unfold cycle_phase.
    destruct (Z.eqb_spec (cycle_ d) (-1)); [lia | reflexivity].
Qed.

Lemma trace_started (cells : list Cell) (d d' : ArrayDetector) :
  trace_phase (calls_ (writer_ d)) = closed -> cycle_ d' = 0 ->
  advanced call_cycle_start cells (writer_ d) (writer_ d') ->
  trace_open d'.
Proof.
  intros Hp H0 (Hc & _). unfold trace_open.
  rewrite Hc, trace_phase_snoc, Hp, H0. split; [reflexivity | lia].
Qed.

Lemma trace_block (p : Z) (cells : list Cell) (d d' : ArrayDetector) :
  trace_open d -> cycle_ d' = cycle_ d + 1 ->
  advanced (call_cycle_block p) cells (writer_ d) (writer_ d') ->
  trace_open d'.
Proof.
  intros [Hp Hc] H1 (Hcs & _). unfold trace_open.
  rewrite Hcs, trace_phase_snoc, Hp, H1. simpl.
  split; [|lia]. rewrite Z2Nat.inj_add by lia.
  rewrite Nat.add_1_r. reflexivity.
Qed.

Lemma trace_stopped (cells : list Cell) (d d' : ArrayDetector) :
  trace_open d ->
  advanced call_cycle_stop cells (writer_ d) (writer_ d') ->
  trace_phase (calls_ (writer_ d')) = closed.
Proof.
  intros [Hp Hc] (Hcs & _). rewrite Hcs, trace_phase_snoc, Hp. reflexivity.
Qed.

Lemma trace_closed_ok (d : ArrayDetector) :
  cycle_ d = -1 -> trace_phase (calls_ (writer_ d)) = closed -> trace_ok d.
Proof.
  intros Hc Hp. split; [|left; exact Hc]. rewrite Hp, Hc. reflexivity.
Qed.

Lemma extract_loop_trace (fuel : nat) :
  forall d d',
    trace_open d -> extract_loop fuel d = Ok d' -> trace_open d'.
Proof.
  induction fuel as [|fuel IH]; intros d d' Hopen.
  - simpl. intros H. injection H as <-. exact Hopen.
  - rewrite extract_loop_unfold.
    destruct (cycle_ d <? num_cycles_ d);
      [|intros H; injection H as <-; exact Hopen].
    destruct (block_len (args_ d) <? _);
      [intros H; injection H as <-; exact Hopen|].
    destruct (negb _); [discriminate|]. cbv zeta.
    match goal with
    | |- context [Writer.write_cycle_block ?p ?data ?len ?w] =>
      destruct (Writer.write_cycle_block p data len w) as [w'|] eqn:Ew;
        [apply write_cycle_block_advanced in Ew | discriminate]
    end.
    apply IH.
    eapply trace_block; [exact Hopen | reflexivity | exact Ew].
Qed.

Lemma extract_corr_blocks_trace (d d' : ArrayDetector) :
  trace_open d -> extract_corr_blocks d = Ok d' -> trace_ok d'.
Proof.
  intros Hopen. unfold extract_corr_blocks.
  destruct (extract_loop _ d) as [d1|f] eqn:E; [|discriminate].
  apply (extract_loop_trace _ _ _ Hopen) in E.
  destruct (Z.leb_spec (num_cycles_ d1) (cycle_ d1)) as [Hn|Hn];
    intros H; injection H as <-.
  - apply trace_closed_ok; [reflexivity|].
    eapply trace_stopped with (d := d1); [exact E|].
    apply write_cycle_stop_advanced.
  - destruct E as [Hp Hc]. split; [|right; lia].
    rewrite Hp. unfold cycle_phase.
    destruct (Z.eqb_spec (cycle_ d1) (-1)); [lia | reflexivity].
Qed.

Lemma switch_preamp_off_trace (d : ArrayDetector) :
  trace_ok d -> trace_ok (switch_preamp_off d).
Proof.
  intros Hok. unfold switch_preamp_off.
  destruct (_ && _); [|exact Hok].
  cbv zeta.
  match goal with
  | |- trace_ok (set_blocks_skip_ _ (set_bias_tee false ?x)) =>
    set (d1 := x)
  end.
  apply trace_ok_view with (d := d1).
  - transitivity (protocol_view (set_bias_tee false d1));
      [reflexivity | apply view_set_bias_tee].
  - subst d1.
    destruct (Z.leb_spec 0 (cycle_ d)) as [Hc|Hc]; [|exact Hok].
    destruct (trace_ok_cases _ Hok) as [[Hm _]|Hopen]; [lia|].
    apply trace_closed_ok; [reflexivity|].
    eapply trace_stopped with (d := d); [exact Hopen|].
    apply write_cycle_stop_advanced.
Qed.

Lemma capture_noise_trace (blk : Block) (d d' : ArrayDetector) (b : bool) :
  trace_ok d -> capture_noise blk d = Ok (d', b) -> trace_ok d'.
Proof.
  intros Hok. unfold capture_noise.
  match goal with
  | |- context [extract_corr_blocks ?x] =>
    destruct (extract_corr_blocks x) as [d1|f] eqn:E; [|discriminate];
      assert (Hopen : trace_open x)
  end.
  { destruct (Z.eqb_spec (cycle_ (shift_block blk d)) (-1)) as [Hc|Hc].
    - destruct (trace_ok_cases _ Hok) as [[_ Hp]|[_ Hopen]];
        [|change (cycle_ (shift_block blk d)) with (cycle_ d) in Hc; lia].
      eapply trace_started with (d := d); [exact Hp | reflexivity|].
      apply write_cycle_start_advanced.
    - destruct (trace_ok_cases _ Hok) as [[Hm _]|Hopen];
        [contradiction | exact Hopen]. }
  intros H. injection H as <- _.
  apply (extract_corr_blocks_trace _ _ Hopen E).
Qed.

Lemma beacon_search_trace (blk : Block) (d : ArrayDetector) :
  trace_ok d -> cycle_ d = -1 ->
  let (corr, d1) := find_beacon d in
  let d' :=
    if detected corr then
      let d2 := set_clock_error_ (estimate_clock_error d1) d1 in
      let d2 := set_cycle_ 0 d2 in
      let d2 := set_num_phase_errors_ 0 d2 in
      let d2 := if beacon_ d2 =? 0 then schedule_capture d2 else d2 in
      set_writer_
        (Writer.write_cycle_start (beacon_header blk corr d2) (writer_ d2))
        d2
    else d1 in
  (cycle_ d' = -1 /\ trace_ok d') \/ trace_open d'.
Proof.
  intros Hok Hc.
  pose proof (view_find_beacon d) as Hv.
  destruct (find_beacon d) as [corr d1]. simpl in Hv.
  pose proof (trace_ok_view _ _ Hv Hok) as Hok1.
  pose proof (view_equal_cycle _ _ Hv) as Hc1. rewrite Hc in Hc1.
  cbv zeta. destruct (detected corr).
  - right. destruct (trace_ok_cases _ Hok1) as [[_ Hp]|[_ Hopen]]; [|lia].
    eapply trace_started with (d := d1); [exact Hp | |].
    + split_ifs; reflexivity.
    + split_ifs; apply write_cycle_start_advanced.
  - left. split; assumption.
Qed.

Lemma capture_trace (blk : Block) (d d' : ArrayDetector) (b : bool) :
  trace_ok d -> capture blk d = Ok (d', b) -> trace_ok d'.
Proof.
  intros Hok. unfold capture. cbv zeta.
  match goal with
  | |- context [negb (detected_carrier_ ?x)] => set (d4 := x)
  end.
  assert (Hok4 : trace_ok d4).
  { apply trace_ok_view with (d := d); [|exact Hok].
    apply capture_tracking_view. }
  clearbody d4. clear d Hok.
  destruct (negb (detected_carrier_ d4)).
  { intros H. injection H as <- _. exact Hok4. }
  match goal with
  | |- context [0 <=? cycle_ ?x] => set (d5 := x)
  end.
  assert (H5 : (cycle_ d5 = -1 /\ trace_ok d5) \/ trace_open d5).
  { subst d5. destruct (Z.eqb_spec (cycle_ d4) (-1)) as [Hc|Hc].
    - destruct (Qlt_bool _ _); [|left; split; assumption].
      simpl andb. cbv iota.
      pose proof (beacon_search_trace blk d4 Hok4 Hc) as Hb.
      destruct (find_beacon d4) as [corr d1]. exact Hb.
    - simpl andb. cbv iota.
      destruct (trace_ok_cases _ Hok4) as [[Hm _]|Hopen];
        [contradiction | right; exact Hopen]. }
  clearbody d5.
  destruct (Z.leb_spec 0 (cycle_ d5)) as [Hc|Hc].
  - destruct (extract_corr_blocks d5) as [d6|f] eqn:E; [|discriminate].
    intros H. injection H as <- _.
    destruct H5 as [[Hm _]|Hopen]; [lia|].
    apply (extract_corr_blocks_trace _ _ Hopen E).
  - intros H. injection H as <- _.
    destruct H5 as [[_ H]|[_ H]]; [exact H | lia].
Qed.

Lemma next_trace (inc : option Block) (d d' : ArrayDetector) (b : bool) :
  trace_ok d -> next inc d = Ok (d', b) ->
  if b then trace_ok d'
  else trace_phase (calls_ (writer_ d')) = closed.
Proof.
  intros Hok. unfold next. cbv zeta.
  set (d2 := stop_at_last_block (switch_preamp_off d)).
  assert (Hok2 : trace_ok d2).
  { apply trace_ok_view with (d := switch_preamp_off d);
      [apply view_stop_at_last_block
      |apply switch_preamp_off_trace; exact Hok]. }
  clearbody d2. clear d Hok.
  unfold read_and_process.
  destruct (Source.next inc (carrier_det_ d2)) as [blk|].
  - cbv zeta. destruct (negb _).
    { intros H. injection H as <- <-. exact Hok2. }
    destruct (_ && _); intros H.
    + rewrite (capture_noise_returns_true _ _ _ _ H).
      eapply capture_noise_trace; [|exact H]. exact Hok2.
    + rewrite (capture_returns_true _ _ _ _ H).
      eapply capture_trace; [|exact H]. exact Hok2.
  - intros H. injection H as <- <-.
    destruct (Z.leb_spec 0 (cycle_ d2)) as [Hc|Hc].
    + destruct (trace_ok_cases _ Hok2) as [[Hm _]|Hopen]; [lia|].
      eapply trace_stopped with (d := d2); [exact Hopen|].
      apply write_cycle_stop_advanced.
    + destruct (trace_ok_cases _ Hok2) as [[_ Hp]|[_ Hopen]];
        [exact Hp | lia].
Qed.

Lemma main_loop_trace (ticks : list Tick) :
  forall d, trace_ok d ->
    match main_loop ticks d with
    | Running d' => trace_ok d'
    | Exited d' => trace_phase (calls_ (writer_ d')) = closed
    | Crashed _ => True
    end.
Proof.
  induction ticks as [|t ticks IH]; intros d Hok; simpl; [exact Hok|].
  assert (Hok' : trace_ok (if interrupt t then cancel d else d))
    by (destruct (interrupt t); exact Hok).
  destruct (next _ _) as [[d' b]|f] eqn:E; [|exact I].
  apply (next_trace _ _ _ _ Hok') in E.
  destruct b; [apply IH; exact E | exact E].
Qed.

Lemma start_trace (args : fargs_t) (corr_size : Z) (output : bool)
      (u : Indeterminate) :
  trace_ok (start (ArrayDetector_new args corr_size (CFile_open output) u)).
Proof.
  unfold start, set_bias_tee. cbv zeta.
  destruct (negb _); destruct output;
    (split; [reflexivity | left; reflexivity]).
Qed.

End Trace.

(** X2: the calls made on the writer in a run follow the trace format:
    [write_file_header] once and first, then cycles, each of them a
    [write_cycle_start], its [write_cycle_block]s and a
    [write_cycle_stop].  While the loop runs, [cycle_] is [-1] between
    cycles and otherwise the number of blocks written in the open cycle,
    which is below [num_cycles_]; when [next] has returned [false], no
    cycle is left open. *)
Theorem calls_follow_trace_format
        (args : fargs_t) (output : bool) (u : Indeterminate)
        (ticks : list Tick) :
  match run args output u ticks with
  | Running d =>
    trace_phase (calls_ (writer_ d))
    = (if cycle_ d =? -1 then closed else opened (Z.to_nat (cycle_ d))) /\
    (cycle_ d = -1 \/ 0 <= cycle_ d < num_cycles_ d)
  | Exited d => trace_phase (calls_ (writer_ d)) = closed
  | Crashed _ => True
  end.
Proof.
  unfold run.
  pose proof (main_loop_trace ticks _ (start_trace args 1024 output u)) as H.
  destruct (main_loop _ _); exact H.
Qed.

(** ** What a run does to the file *)

Section Writes.

Lemma writes_trans (a b c : CorxFileWriter) :
  writes a b -> writes b c -> writes a c.
Proof.
  intros Hab Hbc. induction Hbc as [|b c' Hbc IH|h b c' Hbc IH
                                   |p data len b c' c'' Hbc IH Hw].
  - exact Hab.
  - apply writes_stop, IH, Hab.
  - apply writes_start, IH, Hab.
  - eapply writes_block; [apply IH, Hab | exact Hw].
Qed.

(** Calls only append: to the file and to the calls made. *)
Lemma writes_append (w w' : CorxFileWriter) :
  writes w w' ->
  slice_size_ w' = slice_size_ w /\
  exists calls rest,
    calls_ w' = calls_ w ++ calls /\
    out_ w' = option_map (fun f => f ++ rest) (out_ w).
Proof.
  assert (Hstep : forall c cells a b b',
             (slice_size_ b = slice_size_ a /\
              exists calls rest,
                calls_ b = calls_ a ++ calls /\
                out_ b = option_map (fun f => f ++ rest) (out_ a)) ->
             advanced c cells b b' ->
             slice_size_ b' = slice_size_ a /\
             exists calls rest,
               calls_ b' = calls_ a ++ calls /\
               out_ b' = option_map (fun f => f ++ rest) (out_ a)).
  { intros c cells a b b' (Hs & calls & rest & Hc & Ho) (Hc' & Hs' & Ho').
    split; [congruence|].
    exists (calls ++ [c]), (rest ++ cells). split.
    - rewrite Hc', Hc, app_assoc. reflexivity.
    - rewrite Ho', Ho. destruct (out_ a); simpl; [|reflexivity].
      rewrite app_assoc. reflexivity. }
  intros H. induction H as [w|w w' H IH|h w w' H IH
                            |p data len w w' w'' H IH Hw].
  - split; [reflexivity|]. exists [], []. rewrite app_nil_r. split;
      [reflexivity|]. destruct (out_ w); simpl; [|reflexivity].
    rewrite app_nil_r. reflexivity.
  - apply (Hstep _ _ _ _ _ IH (write_cycle_stop_advanced w')).
  - apply (Hstep _ _ _ _ _ IH (write_cycle_start_advanced h w')).
  - apply (Hstep _ _ _ _ _ IH (write_cycle_block_advanced _ _ _ _ _ Hw)).
Qed.

Lemma extract_loop_writes (fuel : nat) :
  forall d d', extract_loop fuel d = Ok d' ->
               writes (writer_ d) (writer_ d').
Proof.
  induction fuel as [|fuel IH]; intros d d'.
  - simpl. intros H. injection H as <-. apply writes_none.
  - rewrite extract_loop_unfold.
    destruct (cycle_ d <? num_cycles_ d);
      [|intros H; injection H as <-; apply writes_none].
    destruct (block_len (args_ d) <? _);
      [intros H; injection H as <-; apply writes_none|].
    destruct (negb _); [discriminate|]. cbv zeta.
    match goal with
    | |- context [Writer.write_cycle_block ?p ?data ?len ?w] =>
      destruct (Writer.write_cycle_block p data len w) as [w'|] eqn:Ew;
        [|discriminate]
    end.
    intros H. apply IH in H. revert H. members. intros H.
    eapply writes_trans; [|exact H].
    eapply writes_block; [apply writes_none | exact Ew].
Qed.

Lemma extract_corr_blocks_writes (d d' : ArrayDetector) :
  extract_corr_blocks d = Ok d' -> writes (writer_ d) (writer_ d').
Proof.
  unfold extract_corr_blocks.
  destruct (extract_loop _ d) as [d1|f] eqn:E; [|discriminate].
  apply extract_loop_writes in E.
  destruct (_ <=? _); intros H; injection H as <-; [|exact E].
  members. apply writes_stop. exact E.
Qed.

Lemma writes_of_view (d d' : ArrayDetector) :
  protocol_view d' = protocol_view d -> writes (writer_ d) (writer_ d').
Proof.
  intros E. injection E as _ Ew _ _ _. rewrite Ew. apply writes_none.
Qed.

Lemma switch_preamp_off_writes (d : ArrayDetector) :
  writes (writer_ d) (writer_ (switch_preamp_off d)).
Proof.
  unfold switch_preamp_off, set_bias_tee. cbv zeta.
  destruct (_ && _); [|apply writes_none].
  destruct (0 <=? cycle_ d); destruct (negb _); members;
    try apply writes_none; apply writes_stop, writes_none.
Qed.

Lemma capture_noise_writes (blk : Block) (d d' : ArrayDetector) (b : bool) :
  capture_noise blk d = Ok (d', b) -> writes (writer_ d) (writer_ d').
Proof.
  unfold capture_noise.
  destruct (extract_corr_blocks _) as [d1|f] eqn:E; [|discriminate].
  apply extract_corr_blocks_writes in E.
  intros H. injection H as <- _.
  eapply writes_trans; [|exact E].
  destruct (_ =? _); members;
    [apply writes_start, writes_none | apply writes_none].
Qed.

Lemma capture_writes (blk : Block) (d d' : ArrayDetector) (b : bool) :
  capture blk d = Ok (d', b) -> writes (writer_ d) (writer_ d').
Proof.
  unfold capture. cbv zeta.
  match goal with
  | |- context [negb (detected_carrier_ ?x)] => set (d4 := x)
  end.
  assert (H4 : writes (writer_ d) (writer_ d4))
    by (apply writes_of_view, capture_tracking_view).
  clearbody d4.
  destruct (negb _).
  { intros H. injection H as <- _. exact H4. }
  match goal with
  | |- context [0 <=? cycle_ ?x] => set (d5 := x)
  end.
  assert (H5 : writes (writer_ d4) (writer_ d5)).
  { subst d5. destruct (_ && _); [|apply writes_none].
    pose proof (view_find_beacon d4) as Hv.
    apply writes_of_view in Hv.
    destruct (find_beacon d4) as [corr d1]. simpl in Hv.
    destruct (detected corr); [|exact Hv]. cbv zeta.
    eapply writes_trans; [exact Hv|].
    destruct (_ =? _); members; apply writes_start, writes_none. }
  clearbody d5.
  pose proof (writes_trans _ _ _ H4 H5) as H45.
  destruct (0 <=? cycle_ d5).
  - destruct (extract_corr_blocks d5) as [d6|] eqn:E; [|discriminate].
    apply extract_corr_blocks_writes in E.
    intros H. injection H as <- _. apply (writes_trans _ _ _ H45 E).
  - intros H. injection H as <- _. exact H45.
Qed.

Lemma next_writes (inc : option Block) (d d' : ArrayDetector) (b : bool) :
  next inc d = Ok (d', b) -> writes (writer_ d) (writer_ d').
Proof.
  unfold next. cbv zeta.
  set (d2 := stop_at_last_block (switch_preamp_off d)).
  assert (H2 : writes (writer_ d) (writer_ d2)).
  { eapply writes_trans; [apply switch_preamp_off_writes|].
    subst d2. apply writes_of_view, view_stop_at_last_block. }
  clearbody d2.
  unfold read_and_process.
  destruct (Source.next inc (carrier_det_ d2)) as [blk|].
  - cbv zeta. destruct (negb _).
    { intros H. injection H as <- _. exact H2. }
    destruct (_ && _); intros H.
    + apply capture_noise_writes in H. apply (writes_trans _ _ _ H2 H).
    + apply capture_writes in H. apply (writes_trans _ _ _ H2 H).
  - intros H. injection H as <- _.
    destruct (0 <=? cycle_ d2); [|exact H2].
    members. apply writes_stop. exact H2.
Qed.

Lemma main_loop_writes (ticks : list Tick) :
  forall d,
    match main_loop ticks d with
    | Running d' | Exited d' => writes (writer_ d) (writer_ d')
    | Crashed _ => True
    end.
Proof.
  induction ticks as [|t ticks IH]; intros d; simpl; [apply writes_none|].
  destruct (next _ _) as [[d' b]|f] eqn:E; [|exact I].
  apply next_writes in E.
  assert (E' : writes (writer_ d) (writer_ d'))
    by (destruct (interrupt t); exact E).
  destruct b; [|exact E'].
  specialize (IH d'). destruct (main_loop ticks d'); try exact I;
    apply (writes_trans _ _ _ E' IH).
Qed.

(** The loop over two runs of ticks is the loop over the second from
    where the first left off. *)
Lemma main_loop_app (ticks1 ticks2 : list Tick) :
  forall d,
    main_loop (ticks1 ++ ticks2) d
    = match main_loop ticks1 d with
      | Running d1 => main_loop ticks2 d1
      | o => o
      end.
Proof.
  induction ticks1 as [|t ticks1 IH]; intros d; simpl; [reflexivity|].
  destruct (next _ _) as [[d' [|]]|f]; [apply IH | reflexivity | reflexivity].
Qed.

Lemma byte_size_app (a b : list Cell) :
  byte_size (a ++ b) = byte_size a + byte_size b.
Proof.
  induction a as [|c a IH]; simpl; [reflexivity|]. rewrite IH. lia.
Qed.

Lemma byte_size_complex (data : list (Q * Q)) (len : Z) :
  0 <= len <= Z.of_nat (List.length data) ->
  byte_size (complex_bytes data len) = 8 * len.
Proof.
  unfold complex_bytes. intros [H0 H1].
  rewrite <- (Z2Nat.id len) at 2 by exact H0.
  assert (Hn : (Z.to_nat len <= List.length data)%nat) by lia.
  revert Hn. generalize (Z.to_nat len). clear.
  intros n. revert data. induction n as [|n IH]; intros data Hn.
  - reflexivity.
  - destruct data as [|c data]; [simpl in Hn; lia|].
    simpl in Hn. cbn [firstn flat_map app byte_size fold_right cell_size].
    change (fold_right (fun c n => cell_size c + n) 0
                       (flat_map (fun c => [CFloat (fst c); CFloat (snd c)])
                                 (firstn n data)))
      with (byte_size (flat_map (fun c => [CFloat (fst c); CFloat (snd c)])
                                (firstn n data))).
    rewrite IH by lia. lia.
Qed.

End Writes.

(** X3: the trace is append-only.  Whatever a run has in its file and
    in its list of calls after some ticks is a prefix of what it has
    after more ticks, and the slice size that the writer remembers does
    not change. *)
Theorem trace_is_append_only
        (args : fargs_t) (output : bool) (u : Indeterminate)
        (ticks more : list Tick) :
  match run args output u ticks, run args output u (ticks ++ more) with
  | Running d1, Running d2 | Running d1, Exited d2 =>
    slice_size_ (writer_ d2) = slice_size_ (writer_ d1) /\
    exists calls rest,
      calls_ (writer_ d2) = calls_ (writer_ d1) ++ calls /\
      out_ (writer_ d2)
      = option_map (fun f => f ++ rest) (out_ (writer_ d1))
  | Running _, Crashed _ => True
  | o1, o2 => o2 = o1
  end.
Proof.
  unfold run. rewrite main_loop_app.
  destruct (main_loop ticks _) as [d1|d1|f]; [|reflexivity|reflexivity].
  pose proof (main_loop_writes more d1) as H.
  destruct (main_loop more d1) as [d2|d2|f]; [| |exact I];
    apply writes_append; exact H.
Qed.

(** X4: the sizes of the records.  On a writer with a file the file
    header takes 9 bytes, a beacon header 39, a cycle block one byte and
    8 for each of its [len] samples, and the end of a cycle one byte;
    without a file nothing is counted. *)
Theorem record_sizes (w : CorxFileWriter) :
  Writer.is_void w = false ->
  (forall header,
      file_size (Writer.write_file_header header w) = file_size w + 9) /\
  (forall beacon,
      file_size (Writer.write_cycle_start beacon w) = file_size w + 39) /\
  file_size (Writer.write_cycle_stop w) = file_size w + 1 /\
  (forall phase_error data len w',
      0 <= len <= Z.of_nat (List.length data) ->
      Writer.write_cycle_block phase_error data len w = Some w' ->
      file_size w' = file_size w + 1 + 8 * len).
Proof.
  intros Hv. unfold file_size.
  unfold Writer.is_void in Hv.
  destruct w as [[f|] ss cs]; simpl in Hv; [clear Hv | discriminate].
  split; [|split; [|split]].
  - intros header. simpl. rewrite !byte_size_app. simpl. lia.
  - intros beacon. simpl. rewrite byte_size_app. simpl. lia.
  - simpl. rewrite !byte_size_app. simpl. lia.
  - intros p data len w' Hl Hw.
    apply write_cycle_block_advanced in Hw. destruct Hw as (_ & _ & Ho).
    rewrite Ho. cbn [out_ option_map]. rewrite byte_size_app.
    change (byte_size (CByte (p mod 256) :: complex_bytes data len))
      with (1 + byte_size (complex_bytes data len)).
    rewrite byte_size_complex by exact Hl. ring.
Qed.

Lemma record_sizes_witness :
  let w := Writer.write_file_header
             {| slice_start_idx := 0; slice_size := 2 |}
             (Writer.new (Some [])) in
  Writer.is_void w = false /\
  file_size w = 9 /\
  file_size (Writer.write_cycle_stop w) = 9 + 1.
Proof.
  cbv zeta.
  set (w := Writer.write_file_header _ _).
  assert (Hv : Writer.is_void w = false) by reflexivity.
  split; [exact Hv | split; [reflexivity|]].
  exact (proj1 (proj2 (proj2 (record_sizes w Hv)))).
Defined.

(** ** The split of [fft_shift] *)

Section SplitCover.

Lemma fft_shift_bounds_iff (len off : Z) :
  0 <= len < 2 ^ 64 ->
  fft_shift_in_bounds len off = true <-> fft_shift_pos_len len off <= len.
Proof.
  intros Hl. unfold fft_shift_in_bounds, fft_shift_neg_len.
  set (p := fft_shift_pos_len len off).
  assert (Hp : 0 <= p < 2 ^ 64) by (apply Z.mod_pos_bound; lia).
  split.
  - intros H. apply andb_true_iff in H. destruct H as [H _].
    apply Z.leb_le in H. exact H.
  - intros H. apply andb_true_iff. split; [apply Z.leb_le; exact H|].
    apply Z.leb_le. unfold u64. rewrite Z.mod_small by lia. lia.
Qed.

End SplitCover.

(** X5: when the split point of [fft_shift] is within the buffer, the
    two multiplies cover its [len] elements exactly once; and a carrier
    offset of [-k] that reaches the [size_t] parameter as [2^64 - k]
    moves the split point [k] elements down from the middle, the
    wrap-around of the addition undoing that of the conversion. *)
Theorem fft_shift_split_covers (len off : Z) :
  0 <= len < 2 ^ 63 ->
  (fft_shift_in_bounds len off = true ->
   fft_shift_pos_len len off + fft_shift_neg_len len off = len) /\
  (forall k, 0 <= k <= (len + 1) / 2 ->
             fft_shift_pos_len len (u64 (- k)) = (len + 1) / 2 - k /\
             fft_shift_in_bounds len (u64 (- k)) = true).
Proof.
  intros Hl.
  change (2 ^ 63) with 9223372036854775808 in Hl.
  assert (Hl64 : 0 <= len < 2 ^ 64)
    by (change (2 ^ 64) with 18446744073709551616; lia).
  split.
  - intros H. apply (fft_shift_bounds_iff len off Hl64) in H.
    unfold fft_shift_neg_len, u64.
    assert (Hp : 0 <= fft_shift_pos_len len off < 2 ^ 64)
      by (apply Z.mod_pos_bound; lia).
    rewrite Z.mod_small by lia. lia.
  - intros k Hk.
    assert (Hpos : fft_shift_pos_len len (u64 (- k)) = (len + 1) / 2 - k).
    { unfold fft_shift_pos_len, u64.
      rewrite Zplus_mod_idemp_r.
      apply Z.mod_small.
      change (2 ^ 64) with 18446744073709551616.
      Z.div_mod_to_equations. lia. }
    split; [exact Hpos|].
    apply (fft_shift_bounds_iff _ _ Hl64). rewrite Hpos.
    Z.div_mod_to_equations. lia.
Qed.

Lemma fft_shift_split_covers_witness :
  0 <= 1024 < 2 ^ 63 /\
  fft_shift_pos_len 1024 (u64 (- 6)) = (1024 + 1) / 2 - 6.
Proof.
  assert (H : 0 <= 1024 < 2 ^ 63) by (split; [discriminate | reflexivity]).
  split; [exact H|].
  refine (proj1 (proj2 (fft_shift_split_covers 1024 0 H) 6 _)).
  split; discriminate.
Defined.

(** ** The constructor *)

(** X6: the constructor leaves room for the cycles.  For a positive
    [int] block size, a sample rate of at least twice the beacon padding
    that fits [uint32_t] and a quotient that fits [int], [num_cycles_] is
    that quotient: the padding of 6000 samples, [num_cycles_] blocks of
    [corr_size_] samples and the padding again fit in one second of
    samples, and one more block would not.  The slice window is the
    whole block, and the detector starts unlocked, outside a cycle and
    before the first beacon. *)
Theorem constructor_cycles_fit
        (args : fargs_t) (corr_size : Z) (out : option (list Cell))
        (u : Indeterminate) :
  0 < corr_size <= INT_MAX ->
  2 * 6000 <= sdr_sample_rate args < 2 ^ 32 ->
  (sdr_sample_rate args - 2 * 6000) / corr_size <= INT_MAX ->
  let d := ArrayDetector_new args corr_size out u in
  corr_size_ d = corr_size /\
  num_cycles_ d = (sdr_sample_rate args - 2 * 6000) / corr_size /\
  0 <= num_cycles_ d /\
  skip_beacon_padding_ d + num_cycles_ d * corr_size_ d
  <= sdr_sample_rate args - skip_beacon_padding_ d /\
  sdr_sample_rate args - skip_beacon_padding_ d
  < skip_beacon_padding_ d + (num_cycles_ d + 1) * corr_size_ d /\
  (slice_start_ d = 0 /\ slice_len_ d = corr_size) /\
  (detected_carrier_ d = false /\ cycle_ d = -1 /\ beacon_ d = -1 /\
   last_block_ d = 0 /\ preamp_off_block_ d = 0).
Proof.
  intros HW Hsr Hq. cbv zeta. unfold ArrayDetector_new. members.
  unfold INT_MAX in *.
  change (2 ^ 31) with 2147483648 in *.
  change (2 ^ 32) with 4294967296 in *.
  assert (Hc : u64 corr_size = corr_size).
  { unfold u64. apply Z.mod_small.
    change (2 ^ 64) with 18446744073709551616. lia. }
  assert (Hs : u32 (sdr_sample_rate args - 2 * 6000)
               = sdr_sample_rate args - 2 * 6000).
  { unfold u32. apply Z.mod_small.
    change (2 ^ 32) with 4294967296. lia. }
  assert (Hw : forall z, 0 <= z <= 2147483648 - 1 -> wrap_int32 z = z).
  { intros z Hz. unfold wrap_int32.
    change (2 ^ 31) with 2147483648. change (2 ^ 32) with 4294967296.
    rewrite Z.mod_small by lia. lia. }
  assert (H0 : 0 <= (sdr_sample_rate args - 2 * 6000) / corr_size)
    by (apply Z.div_pos; lia).
  rewrite Hc, Hs.
  change (OUTPUT_WINDOW_LEN <=? 0) with true. cbv iota.
  rewrite !Hw by lia.
  repeat split; try reflexivity; try lia.
  - Z.div_mod_to_equations. nia.
  - Z.div_mod_to_equations. nia.
Qed.

Lemma constructor_cycles_fit_witness :
  let d := ArrayDetector_new Scenario.short_args 1024 None Scenario.unset in
  0 < 1024 <= INT_MAX /\
  2 * 6000 <= sdr_sample_rate Scenario.short_args < 2 ^ 32 /\
  num_cycles_ d = 2332 /\
  skip_beacon_padding_ d + num_cycles_ d * corr_size_ d
  <= sdr_sample_rate Scenario.short_args - skip_beacon_padding_ d.
Proof.
  cbv zeta.
  assert (HW : 0 < 1024 <= INT_MAX) by (split; [reflexivity | discriminate]).
  assert (Hs : 2 * 6000 <= sdr_sample_rate Scenario.short_args < 2 ^ 32)
    by (split; [discriminate | reflexivity]).
  assert (Hq : (sdr_sample_rate Scenario.short_args - 2 * 6000) / 1024
               <= INT_MAX) by discriminate.
  split; [exact HW | split; [exact Hs | split; [reflexivity|]]].
  pose proof (constructor_cycles_fit
                Scenario.short_args 1024 None Scenario.unset HW Hs Hq)
    as (_ & _ & _ & H & _).
  exact H.
Defined.

(** ** The break test *)

(** X7: the break test of the loop compares the rounded start plus the
    block size with [block_len] in [size_t].  For a rounded start [r]
    that is not below [-corr_size_], the test is [block_len < r +
    corr_size_]; so a start that rounds to a negative [r] within one
    correlation block before the buffer is not rejected when
    [corr_size_ <= block_len], and the index handed to [memcpy] is
    [2^64 + r]. *)
Theorem break_test_by_sign (d : ArrayDetector) :
  let r := c_round (corr_start d) in
  INT_MIN <= r <= INT_MAX ->
  0 <= corr_size_ d < 2 ^ 62 ->
  - corr_size_ d <= r ->
  corr_start_idx d = r mod 2 ^ 64 /\
  corr_block_past_end d = (block_len (args_ d) <? r + corr_size_ d) /\
  (r < 0 -> corr_size_ d <= block_len (args_ d) ->
   corr_block_past_end d = false /\ corr_start_idx d = 2 ^ 64 + r).
Proof.
  intros r Hr HW Hneg.
  assert (Hidx : corr_start_idx d = r mod 2 ^ 64).
  { unfold corr_start_idx, u64.
    rewrite (to_int_round (corr_start d) Hr). reflexivity. }
  unfold INT_MIN, INT_MAX in Hr.
  change (2 ^ 31) with 2147483648 in Hr.
  change (2 ^ 62) with 4611686018427387904 in HW.
  assert (Hsum : u64 (corr_start_idx d + corr_size_ d) = r + corr_size_ d).
  { unfold u64. rewrite Hidx, Zplus_mod_idemp_l.
    apply Z.mod_small. change (2 ^ 64) with 18446744073709551616. lia. }
  assert (Hpast : corr_block_past_end d
                  = (block_len (args_ d) <? r + corr_size_ d))
    by (unfold corr_block_past_end; rewrite Hsum; reflexivity).
  split; [exact Hidx | split; [exact Hpast|]].
  intros Hr0 HB. split.
  - rewrite Hpast. apply Z.ltb_ge. lia.
  - rewrite Hidx.
    replace r with ((2 ^ 64 + r) - 1 * 2 ^ 64) at 1 by ring.
    rewrite Zminus_mod, Z_mod_mult, Z.sub_0_r, Z.mod_mod by discriminate.
    apply Z.mod_small. change (2 ^ 64) with 18446744073709551616. lia.
Qed.

Lemma break_test_by_sign_witness :
  let d := set_cycle_ 0
             (set_soa_ (- (6944))
                (start (ArrayDetector_new Scenario.short_args 1024 None
                                          Scenario.unset))) in
  c_round (corr_start d) = -944 /\
  corr_block_past_end d = false /\
  corr_start_idx d = 2 ^ 64 - 944.
Proof.
  cbv zeta.
  set (d := set_cycle_ 0 _).
  assert (Hc : c_round (corr_start d) = -944) by (vm_compute; reflexivity).
  split; [exact Hc|].
  assert (Hr : INT_MIN <= c_round (corr_start d) <= INT_MAX)
    by (rewrite Hc; split; discriminate).
  assert (HW : 0 <= corr_size_ d < 2 ^ 62)
    by (split; [discriminate | reflexivity]).
  assert (Hn : - corr_size_ d <= c_round (corr_start d))
    by (rewrite Hc; discriminate).
  assert (H0 : c_round (corr_start d) < 0) by (rewrite Hc; reflexivity).
  assert (HB : corr_size_ d <= block_len (args_ d)) by discriminate.
  pose proof (proj2 (proj2 (break_test_by_sign d Hr HW Hn)) H0 HB)
    as [H1 H2].
  split; [exact H1|]. rewrite H2, Hc. reflexivity.
Defined.

(** ** Beacons and the schedule *)

Section Schedule.


Lemma c_round_below (x : Q) (n : Z) :
  (x <= inject_Z n)%Q -> c_round x <= n.
Proof.
  intros Hx. pose proof (c_round_half x) as [H _].
  assert (Hq : (inject_Z (c_round x) < inject_Z (n + 1))%Q).
  { rewrite inject_Z_plus. change (inject_Z 1) with 1%Q. lra. }
  rewrite <- Zlt_Qlt in Hq. lia.
Qed.

(** A conversion of [a/b * sr / st + idx] to [unsigned], as an integer
    division. *)
Lemma to_unsigned_scaled (a : Z) (b : positive) (sr st idx : Z) :
  0 <= a -> 0 < st -> 0 <= sr -> 0 <= idx ->
  idx + (a * sr) / (Zpos b * st) < 2 ^ 32 ->
  to_unsigned ((a # b) * inject_Z sr / inject_Z st + inject_Z idx)
  = idx + (a * sr) / (Zpos b * st).
Proof.
  intros Ha Hst Hsr Hidx Hr.
  assert (Hq : (0 < inject_Z st)%Q)
    by (change 0%Q with (inject_Z 0); rewrite <- Zlt_Qlt; exact Hst).
  assert (E : ((a # b) * inject_Z sr / inject_Z st + inject_Z idx
               == inject_Z (a * sr + idx * (Zpos b * st))
                  / inject_Z (Zpos b * st))%Q).
  { rewrite (Qmake_Qdiv a b), inject_Z_plus, !inject_Z_mult.
    field. split; [lra|].
    change 0%Q with (inject_Z 0). intros H. apply inject_Z_injective in H.
    discriminate H. }
  assert (Hdiv : (a * sr + idx * (Zpos b * st)) / (Zpos b * st)
                 = idx + (a * sr) / (Zpos b * st)).
  { rewrite Z.div_add by lia. lia. }
  assert (H0 : 0 <= (a * sr) / (Zpos b * st))
    by (apply Z.div_pos; nia).
  assert (Ht : c_trunc ((a # b) * inject_Z sr / inject_Z st + inject_Z idx)
               = idx + (a * sr) / (Zpos b * st)).
  { rewrite (c_trunc_comp _ _ E). unfold c_trunc.
    rewrite <- Zdiv_Qdiv, Hdiv.
    assert (Hp : Qle_bool 0 (inject_Z (a * sr + idx * (Zpos b * st))
                             / inject_Z (Zpos b * st)) = true).
    { apply Qle_bool_iff. apply Qle_shift_div_l.
      - change 0%Q with (inject_Z 0). rewrite <- Zlt_Qlt. lia.
      - rewrite Qmult_0_l. change 0%Q with (inject_Z 0).
        rewrite <- Zle_Qle. nia. }
    rewrite Hp. reflexivity. }
  unfold to_unsigned. rewrite cvtt_in_range; rewrite Ht.
  - unfold u32. apply Z.mod_small. lia.
  - change (2 ^ (64 - 1)) with 9223372036854775808.
    change (2 ^ 32) with 4294967296 in Hr. lia.
Qed.

(** The two blocks that [schedule_capture] sets, in integer
    arithmetic. *)
Lemma schedule_capture_blocks (d : ArrayDetector) :
  let sr := sdr_sample_rate (args_ d) in
  let st := stride (args_ d) in
  0 < st -> 0 <= sr -> 0 <= block_idx_ d ->
  block_idx_ d + (121 * sr) / (10 * st) < 2 ^ 32 ->
  preamp_off_block_ (schedule_capture d)
  = block_idx_ d + (101 * sr) / (10 * st) /\
  last_block_ (schedule_capture d)
  = block_idx_ d + (121 * sr) / (10 * st) /\
  0 <= (101 * sr) / (10 * st) <= (121 * sr) / (10 * st).
Proof.
  intros sr st Hst Hsr Hidx Hr.
  assert (Hmono : (101 * sr) / (10 * st) <= (121 * sr) / (10 * st))
    by (apply Z.div_le_mono; lia).
  assert (H0 : 0 <= (101 * sr) / (10 * st)) by (apply Z.div_pos; lia).
  split; [|split; [|split; assumption]].
  - unfold schedule_capture. members.
    unfold MAX_CAPTURE_TIME. fold sr. fold st.
    apply (to_unsigned_scaled 101 10 sr st (block_idx_ d));
      try assumption; lia.
  - unfold schedule_capture. members.
    change (MAX_CAPTURE_TIME + PREAMP_OFF_TIME)%Q with (121 # 10).
    fold sr. fold st.
    apply (to_unsigned_scaled 121 10 sr st (block_idx_ d));
      try assumption; lia.
Qed.

End Schedule.



(** X9: the schedule set at the first beacon, in integer arithmetic.
    With [stride = block_len - history_len] positive and no overflow of
    [unsigned], the preamp is switched off [101 * rate / (10 * stride)]
    blocks after the current one and the run stops [121 * rate / (10 *
    stride)] blocks after it, so the current block is not after the
    switch and the switch is not after the stop. *)
Theorem schedule_in_blocks (d : ArrayDetector) :
  let sr := sdr_sample_rate (args_ d) in
  let st := stride (args_ d) in
  let d' := schedule_capture d in
  0 < st -> 0 <= sr -> 0 <= block_idx_ d ->
  block_idx_ d + (121 * sr) / (10 * st) < 2 ^ 32 ->
  preamp_off_block_ d' = block_idx_ d + (101 * sr) / (10 * st) /\
  last_block_ d' = block_idx_ d + (121 * sr) / (10 * st) /\
  block_idx_ d <= preamp_off_block_ d' <= last_block_ d'.
Proof.
  intros sr st d' Hst Hsr Hidx Hr.
  destruct (schedule_capture_blocks d Hst Hsr Hidx Hr) as (Hp & Hl & H0).
  fold sr st in Hp, Hl, H0. fold d' in Hp, Hl.
  split; [exact Hp | split; [exact Hl|]].
  rewrite Hp, Hl. lia.
Qed.

Lemma schedule_in_blocks_witness :
  let d := set_block_idx_ 21
             (start (ArrayDetector_new Scenario.short_args 1024 None
                                       Scenario.unset)) in
  0 < stride (args_ d) /\
  preamp_off_block_ (schedule_capture d) = 21 + 11835 /\
  last_block_ (schedule_capture d) = 21 + 14179.
Proof.
  cbv zeta.
  set (d := set_block_idx_ 21 _).
  assert (Hst : 0 < stride (args_ d)) by reflexivity.
  assert (Hsr : 0 <= sdr_sample_rate (args_ d)) by discriminate.
  assert (Hidx : 0 <= block_idx_ d) by discriminate.
  assert (Hr : block_idx_ d
               + (121 * sdr_sample_rate (args_ d)) / (10 * stride (args_ d))
               < 2 ^ 32) by reflexivity.
  pose proof (schedule_in_blocks d Hst Hsr Hidx Hr) as (H1 & H2 & _).
  split; [exact Hst | split].
  - rewrite H1. reflexivity.
  - rewrite H2. reflexivity.
Defined.

(** ** The schedule of a run *)

Section OnSchedule.

Lemma schedule_view_recover_carrier (blk : Block) (d : ArrayDetector) :
  schedule_view (recover_carrier blk d) = schedule_view d.
Proof.
  unfold recover_carrier, track_carrier, acquire_carrier.
  split_ifs; reflexivity.
Qed.

Lemma schedule_view_find_beacon (d : ArrayDetector) :
  schedule_view (snd (find_beacon d)) = schedule_view d.
Proof. unfold find_beacon. split_ifs; reflexivity. Qed.

Lemma extract_loop_schedule (fuel : nat) :
  forall d d',
    extract_loop fuel d = Ok d' -> schedule_view d' = schedule_view d.
Proof.
  induction fuel as [|fuel IH]; intros d d'.
  - simpl. intros H. injection H as <-. reflexivity.
  - rewrite extract_loop_unfold.
    destruct (cycle_ d <? num_cycles_ d);
      [|intros H; injection H as <-; reflexivity].
    destruct (block_len (args_ d) <? _);
      [intros H; injection H as <-; reflexivity|].
    destruct (negb (fft_shift_in_bounds _ _)); [discriminate|].
    cbv zeta.
    destruct (Writer.write_cycle_block _ _ _ _) as [w|]; [|discriminate].
    intros H. apply IH in H. rewrite H. reflexivity.
Qed.

Lemma extract_corr_blocks_schedule (d d' : ArrayDetector) :
  extract_corr_blocks d = Ok d' -> schedule_view d' = schedule_view d.
Proof.
  unfold extract_corr_blocks.
  destruct (extract_loop _ d) as [d1|] eqn:E; [|discriminate].
  apply extract_loop_schedule in E.
  destruct (_ <=? _); intros H; injection H as <-; rewrite <- E;
    reflexivity.
Qed.

Lemma capture_noise_schedule (blk : Block) (d d' : ArrayDetector) (b : bool) :
  capture_noise blk d = Ok (d', b) -> schedule_view d' = schedule_view d.
Proof.
  unfold capture_noise.
  destruct (extract_corr_blocks _) as [d3|] eqn:E; [|discriminate].
  apply extract_corr_blocks_schedule in E.
  intros H. injection H as <- _. rewrite E.
  destruct (_ =? _); reflexivity.
Qed.

(** [capture] leaves the schedule alone or sets it from the current
    block. *)
Lemma capture_schedule (blk : Block) (d d' : ArrayDetector) (b : bool) :
  capture blk d = Ok (d', b) ->
  schedule_view d' = schedule_view d \/
  schedule_view d' = schedule_view (schedule_capture d).
Proof.
  unfold capture. cbv zeta.
  match goal with
  | |- context [negb (detected_carrier_ ?x)] => set (d4 := x)
  end.
  assert (H4 : schedule_view d4 = schedule_view d).
  { subst d4. transitivity (schedule_view (recover_carrier blk d));
      [reflexivity | apply schedule_view_recover_carrier]. }
  clearbody d4.
  assert (H4s : schedule_view (schedule_capture d4)
                = schedule_view (schedule_capture d)).
  { injection H4 as Ha Hc Hi Hp Hl. unfold schedule_view, schedule_capture.
    members. rewrite Ha, Hc, Hi. reflexivity. }
  assert (Hend : forall d6,
             schedule_view d6 = schedule_view d4 \/
             schedule_view d6 = schedule_view (schedule_capture d4) ->
             schedule_view d6 = schedule_view d \/
             schedule_view d6 = schedule_view (schedule_capture d)).
  { intros d6 [H|H]; [left; transitivity (schedule_view d4)
                     |right; transitivity
                               (schedule_view (schedule_capture d4))];
      assumption. }
  destruct (negb _).
  { intros H. injection H as <- _. left. exact H4. }
  match goal with
  | |- context [0 <=? cycle_ ?x] => set (d5 := x)
  end.
  assert (H5 : schedule_view d5 = schedule_view d4 \/
               schedule_view d5 = schedule_view (schedule_capture d4)).
  { subst d5. destruct (_ && _); [|left; reflexivity].
    pose proof (schedule_view_find_beacon d4) as Hv.
    destruct (find_beacon d4) as [corr d1]. simpl in Hv.
    destruct (detected corr); [|left; exact Hv].
    cbv zeta. destruct (_ =? _).
    - right. injection Hv as Ha Hc Hi Hp Hl.
      unfold schedule_view, schedule_capture. members.
      rewrite Ha, Hc, Hi. reflexivity.
    - left. transitivity (schedule_view d1); [reflexivity | exact Hv]. }
  clearbody d5.
  destruct (0 <=? cycle_ d5).
  - destruct (extract_corr_blocks d5) as [d6|] eqn:E; [|discriminate].
    apply extract_corr_blocks_schedule in E.
    intros H. injection H as <- _. apply Hend.
    destruct H5 as [H5|H5]; [left|right];
      (transitivity (schedule_view d5); [exact E | exact H5]).
  - intros H. injection H as <- _. apply Hend. exact H5.
Qed.

Lemma on_schedule_view (args : fargs_t) (n : Z) (d d' : ArrayDetector) :
  schedule_view d' = schedule_view d ->
  on_schedule args n d -> on_schedule args n d'.
Proof.
  intros E. injection E as Ha Hc Hi Hp Hl. unfold on_schedule.
  rewrite Ha, Hc, Hi, Hp, Hl. exact (fun H => H).
Qed.

(** What the first two statements of [next] do to the schedule. *)
Lemma switch_preamp_off_schedule (d : ArrayDetector) :
  let d' := switch_preamp_off d in
  args_ d' = args_ d /\
  block_idx_ d' = block_idx_ d /\
  preamp_off_block_ d' = preamp_off_block_ d /\
  last_block_ d' = last_block_ d /\
  cancelled (carrier_det_ d') = cancelled (carrier_det_ d) /\
  bias_tee (carrier_det_ d')
  = if (0 <? preamp_off_block_ d) && (block_idx_ d =? preamp_off_block_ d)
    then bias_tee (carrier_det_ d)
         && negb (String.eqb (input_file (args_ d)) "rtlsdr")
    else bias_tee (carrier_det_ d).
Proof.
  unfold switch_preamp_off, set_bias_tee. cbv zeta.
  destruct (_ && _); [|repeat split; reflexivity].
  destruct (0 <=? cycle_ d); members;
    destruct (String.eqb (input_file (args_ d)) "rtlsdr"); members;
    repeat split; try reflexivity;
    destruct (bias_tee (carrier_det_ d)); reflexivity.
Qed.

(** A [next] that returns [true] has read one block and keeps the run on
    schedule. *)
Lemma next_schedule (args : fargs_t) (n : Z) (inc : option Block)
      (d d' : ArrayDetector) :
  0 < stride args -> 0 <= sdr_sample_rate args -> 0 <= n ->
  n + 1 + (121 * sdr_sample_rate args) / (10 * stride args) < 2 ^ 32 ->
  on_schedule args n d ->
  next inc d = Ok (d', true) ->
  on_schedule args (n + 1) d'.
Proof.
  intros Hst Hsr Hn Hr (Ha & Hi & Hc & Hs & Hb).
  pose proof (schedule_capture_blocks
                (set_block_idx_ (n + 1) (switch_preamp_off d))) as Hnew.
  unfold next. cbv zeta.
  destruct (switch_preamp_off_schedule d)
    as (Ha1 & Hi1 & Hp1 & Hl1 & Hc1 & Hb1).
  set (d1 := switch_preamp_off d) in *. clearbody d1.
  rewrite Ha in Ha1. rewrite Hi in Hi1, Hb1, Hs, Hb. rewrite Hc in Hc1.
  rewrite Ha, Hb in Hb1.
  set (p := preamp_off_block_ d) in *.
  set (l := last_block_ d) in *. clearbody p l. clear d Ha Hi Hc Hb.
  assert (H232 : 0 <= (121 * sdr_sample_rate args) / (10 * stride args))
    by (apply Z.div_pos; lia).
  unfold stop_at_last_block. rewrite Hl1, Hi1.
  destruct ((0 <? l) && (n =? l)) eqn:Estop.
  { unfold read_and_process, Source.next, cancel. members.
    cbn [Source.cancel cancelled]. destruct (0 <=? _); discriminate. }
  unfold read_and_process, Source.next. rewrite Hc1.
  destruct inc as [blk|]; [|destruct (0 <=? _); discriminate].
  cbv zeta. rewrite Hi1.
  assert (Hu : u32 (n + 1) = n + 1).
  { unfold u32. apply Z.mod_small. lia. }
  rewrite Hu.
  set (d3 := set_block_idx_ (n + 1) d1) in *.
  assert (H3 : on_schedule args (n + 1) d3).
  { unfold on_schedule. subst d3. members. rewrite Ha1, Hp1, Hl1, Hc1, Hb1.
    split; [reflexivity|]. split; [reflexivity|]. split; [reflexivity|].
    split.
    - destruct Hs as [Hs|[Hs1 Hs2]]; [left; exact Hs|right].
      split; [exact Hs1|].
      apply andb_false_iff in Estop. destruct Estop as [E|E].
      + apply Z.ltb_ge in E. lia.
      + apply Z.eqb_neq in E. lia.
    - assert (Hl0 : p = 0 \/ 0 < p).
      { destruct Hs as [[Hs _]|[Hs _]]; lia. }
      destruct (String.eqb (input_file args) "rtlsdr");
        [|destruct (_ && _); reflexivity].
      destruct (Z.ltb_spec 0 p), (Z.eqb_spec n p),
        (Z.ltb_spec p n), (Z.ltb_spec p (n + 1));
        try reflexivity; lia. }
  destruct (blocks_skip_ d3 =? 0); cbn [negb].
  2:{ intros H. injection H as <-. revert H3. apply on_schedule_view.
      reflexivity. }
  destruct ((0 <? preamp_off_block_ d3)
            && (preamp_off_block_ d3 <? block_idx_ d3)) eqn:Enoise;
    intros H.
  - apply capture_noise_schedule in H. revert H3.
    apply on_schedule_view. exact H.
  - apply capture_schedule in H. destruct H as [H|H].
    + revert H3. apply on_schedule_view. exact H.
    + apply (on_schedule_view _ _ (schedule_capture d3)); [exact H|].
      destruct H3 as (Ha3 & Hi3 & Hc3 & Hs3 & Hb3).
      rewrite Enoise in Hb3.
      cbv zeta in Hnew. rewrite Ha3, Hi3 in Hnew.
      destruct (Hnew Hst Hsr ltac:(lia) ltac:(lia)) as (Ep & El & H0 & Hm).
      unfold on_schedule. rewrite Ep, El.
      change (args_ (schedule_capture d3)) with (args_ d3).
      change (carrier_det_ (schedule_capture d3)) with (carrier_det_ d3).
      change (block_idx_ (schedule_capture d3)) with (block_idx_ d3).
      rewrite Ha3, Hi3, Hc3, Hb3.
      split; [reflexivity|]. split; [reflexivity|]. split; [reflexivity|].
      split; [right; lia|].
      destruct (String.eqb (input_file args) "rtlsdr"); [|reflexivity].
      destruct (Z.ltb_spec
                  (n + 1 + 101 * sdr_sample_rate args / (10 * stride args))
                  (n + 1)); [lia|].
      rewrite andb_false_r. reflexivity.
Qed.

Lemma main_loop_schedule (args : fargs_t) (ticks : list Tick) :
  0 < stride args -> 0 <= sdr_sample_rate args ->
  forall n d,
    0 <= n ->
    n + Z.of_nat (List.length ticks)
    + (121 * sdr_sample_rate args) / (10 * stride args) < 2 ^ 32 ->
    on_schedule args n d ->
    match main_loop ticks d with
    | Running d' => on_schedule args (n + Z.of_nat (List.length ticks)) d'
    | _ => True
    end.
Proof.
  intros Hst Hsr.
  induction ticks as [|t ticks IH]; intros n d Hn Hr Hok.
  - simpl. rewrite Z.add_0_r. exact Hok.
  - cbn [main_loop]. cbn [List.length] in *. rewrite Nat2Z.inj_succ in *.
    destruct (interrupt t).
    { destruct (cancel_exits (incoming t) (cancel d)) as [d' E];
        [reflexivity|].
      rewrite E. exact I. }
    destruct (next _ _) as [[d' b]|f] eqn:E; [|exact I].
    destruct b; [|exact I].
    apply (next_schedule args n) in E; try assumption; [|lia].
    specialize (IH (n + 1) d' ltac:(lia) ltac:(lia) E).
    replace (n + Z.succ (Z.of_nat (List.length ticks)))
      with (n + 1 + Z.of_nat (List.length ticks)) by lia.
    exact IH.
Qed.

Lemma start_schedule (args : fargs_t) (corr_size : Z)
      (out : option (list Cell)) (u : Indeterminate) :
  on_schedule args 0 (start (ArrayDetector_new args corr_size out u)).
Proof.
  unfold on_schedule, start, set_bias_tee. cbv zeta. members.
  cbn [ArrayDetector_new args_ detected_carrier_ set_detected_carrier_].
  destruct (String.eqb (input_file args) "rtlsdr");
    repeat split; try reflexivity; left; split; reflexivity.
Qed.

End OnSchedule.

(** X10: a run on schedule.  While the loop runs, [block_idx_] is the
    number of calls of [next], the reader was not cancelled, the
    schedule is unset or the switch-off block is not after the last
    block and the last block is not passed, and the bias tee is on
    exactly when the input is the tuner and the switch-off block is not
    passed; for a positive stride and block numbers that fit
    [unsigned]. *)
Theorem run_stays_on_schedule
        (args : fargs_t) (output : bool) (u : Indeterminate)
        (ticks : list Tick) :
  0 < stride args -> 0 <= sdr_sample_rate args ->
  Z.of_nat (List.length ticks)
  + (121 * sdr_sample_rate args) / (10 * stride args) < 2 ^ 32 ->
  match run args output u ticks with
  | Running d =>
    block_idx_ d = Z.of_nat (List.length ticks) /\
    cancelled (carrier_det_ d) = false /\
    ((preamp_off_block_ d = 0 /\ last_block_ d = 0) \/
     (0 < preamp_off_block_ d <= last_block_ d /\
      block_idx_ d <= last_block_ d)) /\
    bias_tee (carrier_det_ d)
    = String.eqb (input_file args) "rtlsdr"
      && negb ((0 <? preamp_off_block_ d)
               && (preamp_off_block_ d <? block_idx_ d))
  | _ => True
  end.
Proof.
  intros Hst Hsr Hr. unfold run.
  pose proof (main_loop_schedule args ticks Hst Hsr 0 _ ltac:(lia)
                ltac:(lia)
                (start_schedule args 1024 (CFile_open output) u)) as H.
  destruct (main_loop _ _); try exact I.
  destruct H as (_ & H). exact H.
Qed.

Lemma run_stays_on_schedule_witness :
  0 < stride Scenario.args /\
  match run Scenario.args true Scenario.unset Scenario.missed_pulse with
  | Running d =>
    block_idx_ d = Z.of_nat (List.length Scenario.missed_pulse) /\
    cancelled (carrier_det_ d) = false /\
    ((preamp_off_block_ d = 0 /\ last_block_ d = 0) \/
     (0 < preamp_off_block_ d <= last_block_ d /\
      block_idx_ d <= last_block_ d)) /\
    bias_tee (carrier_det_ d)
    = String.eqb (input_file Scenario.args) "rtlsdr"
      && negb ((0 <? preamp_off_block_ d)
               && (preamp_off_block_ d <? block_idx_ d))
  | _ => True
  end.
Proof.
  assert (Hst : 0 < stride Scenario.args) by reflexivity.
  split; [exact Hst|].
  apply run_stays_on_schedule; [exact Hst | discriminate | reflexivity].
Defined.

(** ** The DC angles *)

Section Angles.

(** An angle of at most half a turn is normalised to at most half a
    turn. *)
Lemma normalize_deciangle_in_turns (x : Q) :
  (- (1#2) <= x <= 1#2)%Q ->
  (- (1#2) <= normalize_deciangle x <= 1#2)%Q.
Proof.
  intros [Hlo Hhi].
  assert (Hup : c_round x <= 1).
  { apply c_round_below. change (inject_Z 1) with 1%Q. lra. }
  assert (Hdown : -1 <= c_round x).
  { pose proof (c_round_half x) as [_ H].
    assert (Hq : (inject_Z (-2) < inject_Z (c_round x))%Q)
      by (change (inject_Z (-2)) with (-2)%Q; lra).
    rewrite <- Zlt_Qlt in Hq. lia. }
  unfold normalize_deciangle. rewrite to_int_round.
  - apply c_round_half.
  - unfold INT_MIN, INT_MAX. lia.
Qed.

Lemma angles_normalised_view (d d' : ArrayDetector) :
  angle_view d' = angle_view d ->
  angles_normalised d -> angles_normalised d'.
Proof.
  intros E. injection E as Hd Ha. unfold angles_normalised.
  rewrite Hd, Ha. exact (fun H => H).
Qed.

(** [recover_carrier] keeps [dc_angle_] or sets it to the normalised
    argument of a synced block. *)
Lemma recover_carrier_angles (blk : Block) (d : ArrayDetector) :
  avg_dc_angle_ (recover_carrier blk d) = avg_dc_angle_ d /\
  (dc_angle_ (recover_carrier blk d) = dc_angle_ d \/
   exists f p,
     dc_angle_ (recover_carrier blk d)
     = normalize_deciangle (dc_arg (freq_shift blk f p))).
Proof.
  unfold recover_carrier, track_carrier, acquire_carrier, measure_dc,
    shift_block.
  split_ifs; members; (split; [reflexivity|]);
    solve [left; reflexivity | right; eexists; eexists; reflexivity].
Qed.

Lemma angle_view_find_beacon (d : ArrayDetector) :
  angle_view (snd (find_beacon d)) = angle_view d.
Proof. unfold find_beacon. split_ifs; reflexivity. Qed.

Lemma extract_loop_angles (fuel : nat) :
  forall d d',
    extract_loop fuel d = Ok d' -> angle_view d' = angle_view d.
Proof.
  induction fuel as [|fuel IH]; intros d d'.
  - simpl. intros H. injection H as <-. reflexivity.
  - rewrite extract_loop_unfold.
    destruct (cycle_ d <? num_cycles_ d);
      [|intros H; injection H as <-; reflexivity].
    destruct (block_len (args_ d) <? _);
      [intros H; injection H as <-; reflexivity|].
    destruct (negb (fft_shift_in_bounds _ _)); [discriminate|].
    cbv zeta.
    destruct (Writer.write_cycle_block _ _ _ _) as [w|]; [|discriminate].
    intros H. apply IH in H. rewrite H. reflexivity.
Qed.

Lemma extract_corr_blocks_angles (d d' : ArrayDetector) :
  extract_corr_blocks d = Ok d' -> angle_view d' = angle_view d.
Proof.
  unfold extract_corr_blocks.
  destruct (extract_loop _ d) as [d1|] eqn:E; [|discriminate].
  apply extract_loop_angles in E.
  destruct (_ <=? _); intros H; injection H as <-; rewrite <- E;
    reflexivity.
Qed.

Lemma capture_noise_angles (blk : Block) (d d' : ArrayDetector) (b : bool) :
  capture_noise blk d = Ok (d', b) -> angle_view d' = angle_view d.
Proof.
  unfold capture_noise.
  destruct (extract_corr_blocks _) as [d3|] eqn:E; [|discriminate].
  apply extract_corr_blocks_angles in E.
  intros H. injection H as <- _. rewrite E.
  destruct (_ =? _); reflexivity.
Qed.

(** The running average of two normalised angles is normalised. *)
Lemma average_in_turns (x y : Q) :
  (- (1#2) <= x <= 1#2)%Q -> (- (1#2) <= y <= 1#2)%Q ->
  (- (1#2) <= x * AVG_ANGLE_WEIGHT + y * (1 - AVG_ANGLE_WEIGHT) <= 1#2)%Q.
Proof. unfold AVG_ANGLE_WEIGHT. intros Hx Hy. lra. Qed.

Lemma capture_angles (blk : Block) (d d' : ArrayDetector) (b : bool) :
  dc_in_turns blk -> angles_normalised d ->
  capture blk d = Ok (d', b) -> angles_normalised d'.
Proof.
  intros Hblk [Hd Ha]. unfold capture. cbv zeta.
  match goal with
  | |- context [negb (detected_carrier_ ?x)] => set (d4 := x)
  end.
  assert (H4 : angles_normalised d4).
  { destruct (recover_carrier_angles blk d) as [Eavg Edc].
    assert (Hdc : (- (1#2) <= dc_angle_ (recover_carrier blk d) <= 1#2)%Q).
    { destruct Edc as [E|[f [p E]]]; rewrite E;
        [exact Hd | apply normalize_deciangle_in_turns, Hblk]. }
    subst d4. unfold angles_normalised. members.
    split; [exact Hdc|].
    apply average_in_turns; [exact Hdc | rewrite Eavg; exact Ha]. }
  clearbody d4.
  destruct (negb _).
  { intros H. injection H as <- _. exact H4. }
  match goal with
  | |- context [0 <=? cycle_ ?x] => set (d5 := x)
  end.
  assert (H5 : angle_view d5 = angle_view d4).
  { subst d5. destruct (_ && _); [|reflexivity].
    pose proof (angle_view_find_beacon d4) as Hv.
    destruct (find_beacon d4) as [corr d1]. simpl in Hv.
    rewrite <- Hv. destruct (detected corr); [|reflexivity].
    cbv zeta. destruct (_ =? _); reflexivity. }
  clearbody d5.
  destruct (0 <=? cycle_ d5).
  - destruct (extract_corr_blocks d5) as [d6|] eqn:E; [|discriminate].
    apply extract_corr_blocks_angles in E.
    intros H. injection H as <- _.
    apply (angles_normalised_view d4); [|exact H4].
    rewrite E. exact H5.
  - intros H. injection H as <- _.
    apply (angles_normalised_view d4); [exact H5 | exact H4].
Qed.

Lemma angle_view_switch_preamp_off (d : ArrayDetector) :
  angle_view (switch_preamp_off d) = angle_view d.
Proof.
  unfold switch_preamp_off, set_bias_tee. cbv zeta.
  destruct (_ && _); [|reflexivity].
  destruct (0 <=? cycle_ d); destruct (negb _); reflexivity.
Qed.

Lemma angle_view_stop_at_last_block (d : ArrayDetector) :
  angle_view (stop_at_last_block d) = angle_view d.
Proof. unfold stop_at_last_block. split_ifs; reflexivity. Qed.

Lemma next_angles (inc : option Block) (d d' : ArrayDetector) (b : bool) :
  match inc with Some blk => dc_in_turns blk | None => True end ->
  angles_normalised d ->
  next inc d = Ok (d', b) -> angles_normalised d'.
Proof.
  intros Hblk Hok. unfold next. cbv zeta.
  set (d2 := stop_at_last_block (switch_preamp_off d)).
  assert (Hok2 : angles_normalised d2).
  { apply (angles_normalised_view d); [|exact Hok].
    subst d2. rewrite angle_view_stop_at_last_block.
    apply angle_view_switch_preamp_off. }
  clearbody d2. clear d Hok.
  unfold read_and_process, Source.next.
  destruct (cancelled (carrier_det_ d2)).
  { intros H. injection H as <- _.
    destruct (0 <=? cycle_ d2); exact Hok2. }
  destruct inc as [blk|].
  - cbv zeta.
    destruct (blocks_skip_ _ =? 0); cbn [negb].
    2:{ intros H. injection H as <- _. exact Hok2. }
    destruct (_ && _); intros H.
    + apply capture_noise_angles in H.
      apply (angles_normalised_view d2); [|exact Hok2].
      rewrite H. reflexivity.
    + apply (capture_angles blk) in H; [exact H | exact Hblk | exact Hok2].
  - intros H. injection H as <- _.
    destruct (0 <=? cycle_ d2); exact Hok2.
Qed.

Lemma main_loop_angles (ticks : list Tick) :
  Forall tick_dc_in_turns ticks ->
  forall d, angles_normalised d ->
    match main_loop ticks d with
    | Running d' | Exited d' => angles_normalised d'
    | Crashed _ => True
    end.
Proof.
  induction 1 as [|t ticks Ht _ IH]; intros d Hok; simpl; [exact Hok|].
  assert (Hok' : angles_normalised (if interrupt t then cancel d else d))
    by (destruct (interrupt t); exact Hok).
  destruct (next _ _) as [[d' b]|f] eqn:E; [|exact I].
  apply (next_angles _ _ _ _ Ht Hok') in E.
  destruct b; [apply IH; exact E | exact E].
Qed.

End Angles.

(** X11: the DC angles stay normalised.  When the argument of the DC
    component of every synced block is at most half a turn, [dc_angle_]
    and its running average [avg_dc_angle_], whose negation is the
    phase that every correlation block is rotated by, are within half a
    turn throughout a run. *)
Theorem angles_stay_normalised
        (args : fargs_t) (output : bool) (u : Indeterminate)
        (ticks : list Tick) :
  Forall tick_dc_in_turns ticks ->
  match run args output u ticks with
  | Running d | Exited d =>
    (- (1#2) <= dc_angle_ d <= 1#2)%Q /\
    (- (1#2) <= avg_dc_angle_ d <= 1#2)%Q
  | Crashed _ => True
  end.
Proof.
  intros Ht. unfold run.
  assert (H0 : angles_normalised
                 (start (ArrayDetector_new args 1024 (CFile_open output) u))).
  { unfold start, set_bias_tee. cbv zeta.
    destruct (negb _); split; split; discriminate. }
  pose proof (main_loop_angles ticks Ht _ H0) as H.
  destruct (main_loop _ _); exact H.
Qed.

Lemma angles_stay_normalised_witness :
  Forall tick_dc_in_turns Scenario.phase_jump_back /\
  match run Scenario.args true Scenario.unset Scenario.phase_jump_back with
  | Running d | Exited d =>
    (- (1#2) <= dc_angle_ d <= 1#2)%Q /\
    (- (1#2) <= avg_dc_angle_ d <= 1#2)%Q
  | Crashed _ => True
  end.
Proof.
  assert (Ht : Forall tick_dc_in_turns Scenario.phase_jump_back).
  { unfold Scenario.phase_jump_back.
    repeat (apply Forall_cons; [intros f p; split; discriminate|]).
    apply Forall_nil. }
  split; [exact Ht|].
  apply angles_stay_normalised. exact Ht.
Defined.

(** ** Skipped blocks *)

Section Skip.

(** With no schedule set, a block that arrives while [blocks_skip_] is
    not zero is counted and dropped. *)
Lemma next_skips (blk : Block) (d : ArrayDetector) :
  preamp_off_block_ d = 0 -> last_block_ d = 0 ->
  cancelled (carrier_det_ d) = false ->
  blocks_skip_ d <> 0 ->
  next (Some blk) d
  = Ok (set_blocks_skip_ (u32 (blocks_skip_ d - 1))
          (set_block_idx_ (u32 (block_idx_ d + 1)) d), true).
Proof.
  intros Hp Hl Hc Hs.
  unfold next, switch_preamp_off, stop_at_last_block. cbv zeta.
  rewrite Hp. cbn [Z.ltb Z.compare andb]. rewrite Hl.
  cbn [Z.ltb Z.compare andb].
  unfold read_and_process, Source.next. rewrite Hc. cbv zeta. members.
  apply Z.eqb_neq in Hs. rewrite Hs. reflexivity.
Qed.

Lemma main_loop_skips (ticks : list Tick) :
  forallb delivers ticks = true ->
  forall d,
    preamp_off_block_ d = 0 -> last_block_ d = 0 ->
    cancelled (carrier_det_ d) = false ->
    0 <= block_idx_ d ->
    block_idx_ d + Z.of_nat (List.length ticks) < 2 ^ 32 ->
    Z.of_nat (List.length ticks) <= blocks_skip_ d < 2 ^ 32 ->
    main_loop ticks d
    = Running
        (set_blocks_skip_ (blocks_skip_ d - Z.of_nat (List.length ticks))
           (set_block_idx_ (block_idx_ d + Z.of_nat (List.length ticks))
              d)).
Proof.
  induction ticks as [|t ticks IH]; intros Hd d Hp Hl Hc Hi Hn Hs.
  - cbn [main_loop List.length Z.of_nat]. rewrite Z.sub_0_r, Z.add_0_r.
    destruct d; reflexivity.
  - cbn [forallb] in Hd. apply andb_prop in Hd. destruct Hd as [Ht Hd].
    cbn [List.length] in Hn, Hs |- *. rewrite Nat2Z.inj_succ in Hn, Hs |- *.
    unfold delivers in Ht. cbn [main_loop].
    destruct (incoming t) as [blk|]; [|discriminate].
    destruct (interrupt t); [discriminate|].
    rewrite (next_skips blk d Hp Hl Hc) by lia.
    assert (Hu1 : u32 (block_idx_ d + 1) = block_idx_ d + 1)
      by (unfold u32; apply Z.mod_small; lia).
    assert (Hu2 : u32 (blocks_skip_ d - 1) = blocks_skip_ d - 1)
      by (unfold u32; apply Z.mod_small; lia).
    rewrite Hu1, Hu2.
    rewrite (IH Hd); members; try assumption; try lia.
    replace (blocks_skip_ d - 1 - Z.of_nat (List.length ticks))
      with (blocks_skip_ d - Z.succ (Z.of_nat (List.length ticks))) by lia.
    replace (block_idx_ d + 1 + Z.of_nat (List.length ticks))
      with (block_idx_ d + Z.succ (Z.of_nat (List.length ticks))) by lia.
    destruct d; reflexivity.
Qed.

End Skip.

(** X12: the blocks skipped at the start of a run.  While no more
    blocks have arrived than [skip] asks for, and no signal, the
    detector is as [start] left it but for the two counters: the blocks
    are counted in [block_idx_], taken off [blocks_skip_] and otherwise
    dropped, so that nothing is written after the file header and no
    carrier is looked for. *)
Theorem skipped_blocks_are_dropped
        (args : fargs_t) (output : bool) (u : Indeterminate)
        (ticks : list Tick) :
  forallb delivers ticks = true ->
  Z.of_nat (List.length ticks) <= skip args < 2 ^ 32 ->
  run args output u ticks
  = Running
      (set_blocks_skip_ (skip args - Z.of_nat (List.length ticks))
         (set_block_idx_ (Z.of_nat (List.length ticks))
            (start (ArrayDetector_new args 1024 (CFile_open output) u)))).
Proof.
  intros Hd Hs. unfold run.
  set (d := start (ArrayDetector_new args 1024 (CFile_open output) u)).
  assert (Hf : preamp_off_block_ d = 0 /\ last_block_ d = 0 /\
               cancelled (carrier_det_ d) = false /\
               block_idx_ d = 0 /\ blocks_skip_ d = skip args).
  { subst d. unfold start, set_bias_tee. cbv zeta.
    destruct (negb _); repeat split; reflexivity. }
  destruct Hf as (Hp & Hl & Hc & Hi & Hk). clearbody d.
  rewrite (main_loop_skips ticks Hd d Hp Hl Hc); rewrite ?Hi, ?Hk; try lia.
  reflexivity.
Qed.

Lemma skipped_blocks_are_dropped_witness :
  forallb delivers Scenario.phase_jump_back = true /\
  calls_ (writer_ (match run late_start_args true Scenario.unset
                               Scenario.phase_jump_back with
                   | Running d | Exited d => d
                   | Crashed _ =>
                     ArrayDetector_new late_start_args 1024 None
                                       Scenario.unset
                   end))
  = [call_file_header].
Proof.
  assert (Hd : forallb delivers Scenario.phase_jump_back = true)
    by reflexivity.
  assert (Hs : Z.of_nat (List.length Scenario.phase_jump_back)
               <= skip late_start_args < 2 ^ 32)
    by (split; [discriminate | reflexivity]).
  split; [exact Hd|].
  rewrite (skipped_blocks_are_dropped late_start_args true Scenario.unset
                                      Scenario.phase_jump_back Hd Hs).
  reflexivity.
Defined.
